(** * gossm: the interactive process proxy and the command dispatcher

    A shallow embedding of [internal/escape_simple.go] and of the
    dispatcher part of [internal/ssm.go] and [cmd/cmd.go].

    Goroutines and channels are modelled by what the calling goroutine
    observes: the outcome of every system call and the winner of every
    [select] are inputs (a record of the environment, or a list of
    loop iterations), and every function returns the trace of the
    effects it performs together with its Go return value. *)

From Stdlib Require Import List String Ascii ZArith Bool Lia.
From Stdlib Require Import Strings.Byte.
Import ListNotations.

Local Open Scope bool_scope.
Local Open Scope list_scope.

(** ** Go errors *)

(** A Go [error] value, by the way it was built.  [Wrapped] is the chain
    that [WrapError] builds with the go-wraperror library: a new value
    holding a "function:line" frame and the error it wraps. *)
Inductive error : Type :=
| EOF                                                  (* io.EOF *)
| ExitError (code : Z)                                 (* *exec.ExitError *)
| OSError (msg : string)                               (* errors of os and syscall *)
| Wrapped (funcName : string) (line : Z) (cause : error).

(** [nil] is [None]. *)
Definition goerror : Type := option error.

Fixpoint error_eqb (a b : error) : bool :=
  match a, b with
  | EOF, EOF => true
  | ExitError c, ExitError d => Z.eqb c d
  | OSError m, OSError n => String.eqb m n
  | Wrapped f l c, Wrapped g k d => String.eqb f g && Z.eqb l k && error_eqb c d
  | _, _ => false
  end.

(** Text printed through the colour library, as coloured pieces. *)
Inductive colour : Type := Plain | Yellow | Green.
Definition text : Type := list (colour * string).

(** [time.Duration] counts nanoseconds. *)
Definition Millisecond : Z := 1000000.
Definition Second : Z := 1000 * Millisecond.

(** ** The escape scanner: the loop of [copyWithEscapeDetection] *)

Module Escape.

Definition tilde : byte := x7e.   (* '~' *)
Definition dot : byte := x2e.     (* '.' *)
Definition CR : byte := x0d.      (* '\r' *)
Definition LF : byte := x0a.      (* '\n' *)

(** [b == '\r' || b == '\n'] *)
Definition is_newline (b : byte) : bool := Byte.eqb b CR || Byte.eqb b LF.

(** The two loop variables. *)
Record scanner : Type := mkScanner {
  lastWasNewline : bool;
  tildeSeen : bool
}.

(** [lastWasNewline := true; tildeSeen := false] *)
Definition initial : scanner :=
  {| lastWasNewline := true; tildeSeen := false |}.

(** What one iteration does with the byte it has read. *)
Inductive action : Type :=
| Suppress                        (* continue: the tilde is kept back *)
| Forward (chunk : list byte)     (* one dst.Write(chunk) *)
| EscapeTriggered.                (* escapeDetected <- true; return nil *)

(** The body of the loop from [b := buf[0]] on (lines 148-179). *)
Definition scan_byte (s : scanner) (b : byte) : action * scanner :=
  if lastWasNewline s && Byte.eqb b tilde then
    (Suppress, {| lastWasNewline := false; tildeSeen := true |})
  else if tildeSeen s then
    if Byte.eqb b dot then
      (EscapeTriggered, s)
    else
      (Forward [tilde; b],
       {| lastWasNewline := is_newline b; tildeSeen := false |})
  else
    (Forward [b],
     {| lastWasNewline := is_newline b; tildeSeen := tildeSeen s |}).

(** What [src.Read(buf)] returns, as far as the loop looks at it: an
    error (checked first, whatever [n] is), no byte, or one byte. *)
Inductive read_result : Type :=
| ReadErr (err : error)
| ReadNothing
| ReadByte (b : byte).

(** One turn of the [for] loop: either the context is already
    cancelled, or the [default] branch reads. *)
Inductive iteration : Type :=
| CtxDone
| Read (r : read_result).

(** How far the loop got. *)
Inductive status : Type :=
| Reading                         (* blocked in src.Read, input used up *)
| Returned (err : goerror).       (* returned; dst is closed by the defer *)

Record run : Type := mkRun {
  writes : list (list byte);      (* the dst.Write calls, in order *)
  escapeDetected : bool;          (* a value was sent on escapeDetected *)
  final : scanner;                (* the loop variables at the end *)
  result : status
}.

Definition wrote (chunk : list byte) (r : run) : run :=
  {| writes := chunk :: writes r;
     escapeDetected := escapeDetected r;
     final := final r;
     result := result r |}.

Definition stop (s : scanner) (esc : bool) (st : status) : run :=
  {| writes := []; escapeDetected := esc; final := s; result := st |}.

(** The loop of [copyWithEscapeDetection], over the iterations the
    environment offers. *)
Fixpoint copyWithEscapeDetection (s : scanner) (its : list iteration) : run :=
  match its with
  | [] => stop s false Reading
  | CtxDone :: _ => stop s false (Returned None)
  | Read (ReadErr err) :: _ =>
      if error_eqb err EOF then stop s false (Returned None)
      else stop s false (Returned (Some err))
  | Read ReadNothing :: rest => copyWithEscapeDetection s rest
  | Read (ReadByte b) :: rest =>
      match scan_byte s b with
      | (Suppress, s') => copyWithEscapeDetection s' rest
      | (Forward chunk, s') => wrote chunk (copyWithEscapeDetection s' rest)
      | (EscapeTriggered, s') => stop s' true (Returned None)
      end
  end.

(** The bytes that reached the child's input. *)
Definition forwarded (r : run) : list byte := List.concat (writes r).

(** The scanner fed a stream of bytes from its initial state. *)
Definition feed (bs : list byte) : run :=
  copyWithEscapeDetection initial (map (fun b => Read (ReadByte b)) bs).

(** The states the loop variables can be in at the top of the loop. *)
Inductive reachable : scanner -> Prop :=
| reach_initial : reachable initial
| reach_step s b : reachable s -> reachable (snd (scan_byte s b)).

(** A [~] stands at a line start of the stream: it is the first byte
    ([at_start]) or the byte before it is CR or LF. *)
Fixpoint tilde_at_line_start (at_start : bool) (bs : list byte) : bool :=
  match bs with
  | [] => false
  | b :: rest =>
      (at_start && Byte.eqb b tilde) || tilde_at_line_start (is_newline b) rest
  end.

(** The position after [pre] is a line start. *)
Definition line_start_after (at_start : bool) (pre : list byte) : bool :=
  match rev pre with
  | [] => at_start
  | b :: _ => is_newline b
  end.

(** The tilde the scanner holds back, if it is armed. *)
Definition held (s : scanner) : list byte :=
  if tildeSeen s then [tilde] else [].

(** The stream of loop turns that reads the bytes [bs] one by one. *)
Definition reads (bs : list byte) : list iteration :=
  map (fun b => Read (ReadByte b)) bs.

(** An armed scanner is not at a line start. *)
Definition exclusive (s : scanner) : Prop :=
  tildeSeen s = true -> lastWasNewline s = false.

End Escape.

(** ** The process proxy: [CallProcessWithSimpleEscape] and its helpers *)

Module Proxy.

Local Open Scope string_scope.
Local Open Scope list_scope.

Inductive signal : Type := SIGINT | SIGTERM.

(** The mode of the terminal on standard input: what it was before the
    call (a snapshot), or raw. *)
Inductive term_state : Type :=
| Snapshot (id : nat)
| RawMode.

Definition crlf : string := String "013" (String "010" EmptyString).

Inductive stream : Type := Stdin | Stdout | Stderr.
Inductive channel : Type := processDone | done.

(** The goroutines the proxy starts. *)
Inductive goroutine : Type :=
| DelayedNewline                  (* sleep 100ms, print "\r\n" *)
| CopyStdin                       (* copyWithEscapeDetection *)
| CmdWait                         (* processDone <- cmd.Wait() *)
| ProcessWait                     (* done <- cmd.Process.Wait() *)
| IgnoreSigint.                   (* the loop of CallProcessDirect *)

(** The effects of the calling goroutine. *)
Inductive event : Type :=
| IsTerminal                      (* term.IsTerminal(stdin) *)
| Command                         (* exec.Command(process, args...) *)
| Bind (s : stream)               (* cmd.Stdxx = os.Stdxx *)
| StdinPipe                       (* cmd.StdinPipe() *)
| Start                           (* cmd.Start() *)
| Run                             (* cmd.Run(): start, then wait *)
| Wait                            (* cmd.Wait() *)
| MakeRaw                         (* term.MakeRaw(stdin), raw mode entered *)
| MakeRawFailed                   (* term.MakeRaw(stdin) returned an error *)
| Restore (old : term_state)      (* term.Restore(stdin, old) *)
| Print (t : text)                (* fmt.Fprintf(os.Stderr, ...) *)
| Go (g : goroutine)
| Cancel                          (* cancel() *)
| ClosePipe                       (* stdinPipe.Close() *)
| Notify (sigs : list signal)     (* signal.Notify(sigs, ...) *)
| StopNotify                      (* signal.Stop(sigs) *)
| CloseDone                       (* close(done) *)
| Signal (sig : signal)           (* cmd.Process.Signal(sig) *)
| Kill                            (* cmd.Process.Kill() *)
| Receive (ch : channel)          (* <-ch: blocks until the child is gone *)
| TimerFired (d : Z).             (* <-time.After(d) *)

(** [strings.Split(fullFuncName, "/")] and its last part. *)
Fixpoint last_segment (acc s : string) : string :=
  match s with
  | EmptyString => acc
  | String c rest =>
      if Ascii.eqb c "/" then last_segment EmptyString rest
      else last_segment (String.append acc (String c EmptyString)) rest
  end.

(** [WrapError] of internal/error.go; [fullFuncName] and [line] are
    what [runtime.Caller(1)] reports for the calling function. *)
Definition WrapError (fullFuncName : string) (line : Z) (err : goerror) : goerror :=
  match err with
  | None => None
  | Some e => Some (Wrapped (last_segment EmptyString fullFuncName) line e)
  end.

(** [CallProcessDirect] of internal/ssm.go; [run] is what [cmd.Run()]
    returns. *)
Definition CallProcessDirect (run : goerror) : list event * goerror :=
  ([Command; Bind Stderr; Bind Stdout; Bind Stdin;
    Notify [SIGINT]; Go IgnoreSigint; Run; CloseDone],
   match run with
   | Some e =>
       WrapError "github.com/ottramst/gossm/internal.CallProcessDirect" 672 (Some e)
   | None => None
   end).

(** The child as [terminateGracefully] meets it. *)
Record child : Type := mkChild {
  sigterm : goerror;              (* result of Process.Signal(SIGTERM) *)
  exits_after : option Z;         (* ns after SIGTERM at which Process.Wait
                                     returns by itself; None: never *)
  wait_result : goerror;          (* the error Process.Wait returns *)
  timer_first : bool;             (* the select's pick when both are ready
                                     at the same instant *)
  kill : goerror                  (* result of Process.Kill() *)
}.

(** The grace period of [terminateGracefully]. *)
Definition gracePeriod : Z := 3 * Second.

(** The [done] case of the select wins over [time.After(gracePeriod)]. *)
Definition exits_in_grace (c : child) : bool :=
  match exits_after c with
  | None => false
  | Some t => (t <? gracePeriod)%Z || ((t =? gracePeriod)%Z && negb (timer_first c))
  end.

(** The winner of the select of [CallProcessWithSimpleEscape]. *)
Inductive winner : Type :=
| ProcessExit (err : goerror)     (* err := <-processDone *)
| EscapeSeen                      (* <-escapeDetected *)
| SignalReceived (sig : signal)   (* sig := <-sigs *)
| StdinErr (err : goerror).       (* err := <-stdinErr *)

(** Everything the environment decides during one call. *)
Record env : Type := mkEnv {
  stdin_is_terminal : bool;       (* term.IsTerminal *)
  prior : term_state;             (* the terminal mode before the call *)
  direct_run : goerror;           (* cmd.Run() of the fallback *)
  stdin_pipe : goerror;           (* err of cmd.StdinPipe() *)
  start : goerror;                (* err of cmd.Start() *)
  make_raw : goerror;             (* err of term.MakeRaw *)
  cooked_wait : goerror;          (* cmd.Wait() when raw mode failed *)
  race : winner;
  victim : child
}.

Section ErrorMethod.

(** The [Error()] method of an error belongs to its dynamic type, in
    os, syscall, os/exec and go-wraperror: a parameter here. *)
Variable Error : error -> string.

(** [isWaitError] *)
Definition isWaitError (err : goerror) : bool :=
  match err with
  | None => false
  | Some e =>
      let errStr := Error e in
      String.eqb errStr "wait: no child processes"
      || String.eqb errStr "waitid: no child processes"
  end.

(** The condition of the [if] in the [done] case. *)
Definition reportable (err : goerror) : bool :=
  match err with
  | None => false
  | Some e =>
      negb (String.eqb (Error e) "signal: terminated")
      && negb (String.eqb (Error e) "signal: broken pipe")
      && negb (isWaitError err)
  end.

(** [terminateGracefully] *)
Definition terminateGracefully (c : child) : list event * goerror :=
  match sigterm c with
  | Some _ => ([Signal SIGTERM], None)
  | None =>
      if exits_in_grace c then
        if reportable (wait_result c) then
          ([Signal SIGTERM; Go ProcessWait; Receive done], wait_result c)
        else
          ([Signal SIGTERM; Go ProcessWait; Receive done; Print
              [(Green, "Session terminated gracefully"); (Plain, crlf)]],
           None)
      else
        ([Signal SIGTERM; Go ProcessWait; TimerFired gracePeriod; Print
            [(Yellow, "Graceful termination timed out, forcing exit...");
             (Plain, crlf)];
          Kill]
         ++ match kill c with
            | Some _ => []
            | None => [Receive done]
            end,
         None)
  end.

(** The deferred calls of the interactive part, in the order they
    run: [signal.Stop(sigs)], [cancel()], [term.Restore]. *)
Definition deferred (old : term_state) : list event :=
  [StopNotify; Cancel; Restore old].

(** The chosen case of the select, up to its [return]. *)
Definition select_case (old : term_state) (w : winner) (c : child)
  : list event * goerror :=
  match w with
  | ProcessExit err =>
      ([Cancel; Print [(Plain, crlf)]], err)
  | EscapeSeen =>
      let (tr, err) := terminateGracefully c in
      ([Cancel; ClosePipe; Restore old; Print
          [(Plain, crlf);
           (Yellow, "Escape sequence detected. Terminating session...");
           (Plain, crlf)]]
       ++ tr, err)
  | SignalReceived sig =>
      ([Cancel; ClosePipe; Signal sig; Receive processDone], None)
  | StdinErr err =>
      ([Cancel; Receive processDone], err)
  end.

(** What the calling goroutine does from [term.MakeRaw] on, once raw
    mode is entered. *)
Definition interactive (old : term_state) (w : winner) (c : child)
  : list event * goerror :=
  let (tr, err) := select_case old w c in
  ([MakeRaw; Go DelayedNewline; Go CopyStdin; Notify [SIGINT; SIGTERM];
    Go CmdWait] ++ tr ++ deferred old, err).

(** [CallProcessWithSimpleEscape] *)
Definition CallProcessWithSimpleEscape (e : env) : list event * goerror :=
  if negb (stdin_is_terminal e) then
    let (tr, err) := CallProcessDirect (direct_run e) in
    (IsTerminal :: tr, err)
  else
    match stdin_pipe e with
    | Some err =>
        ([IsTerminal; Command; Bind Stderr; Bind Stdout; StdinPipe],
         WrapError
           "github.com/ottramst/gossm/internal.CallProcessWithSimpleEscape"
           34 (Some err))
    | None =>
        match start e with
        | Some err =>
            ([IsTerminal; Command; Bind Stderr; Bind Stdout; StdinPipe; Start],
             WrapError
               "github.com/ottramst/gossm/internal.CallProcessWithSimpleEscape"
               39 (Some err))
        | None =>
            match make_raw e with
            | Some _ =>
                ([IsTerminal; Command; Bind Stderr; Bind Stdout; StdinPipe;
                  Start; MakeRawFailed; Bind Stdin; Wait],
                 cooked_wait e)
            | None =>
                let (tr, err) := interactive (prior e) (race e) (victim e) in
                ([IsTerminal; Command; Bind Stderr; Bind Stdout; StdinPipe;
                  Start] ++ tr, err)
            end
        end
    end.

(** What the calling goroutine does once the select has chosen,
    deferred calls included. *)
Definition exit_path (old : term_state) (w : winner) (c : child)
  : list event :=
  fst (select_case old w c) ++ deferred old.

End ErrorMethod.

(** The call gets as far as the select: standard input is a terminal,
    the pipe and the child are started, raw mode is entered. *)
Definition enters_raw_mode (e : env) : bool :=
  stdin_is_terminal e
  && match stdin_pipe e with None => true | Some _ => false end
  && match start e with None => true | Some _ => false end
  && match make_raw e with None => true | Some _ => false end.

(** The terminal mode after an effect. *)
Definition mode_after (m : term_state) (ev : event) : term_state :=
  match ev with
  | MakeRaw => RawMode
  | Restore old => old
  | _ => m
  end.

Definition final_mode (m : term_state) (tr : list event) : term_state :=
  fold_left mode_after tr m.

Definition is_restore (ev : event) : bool :=
  match ev with Restore _ => true | _ => false end.

Definition is_print (ev : event) : bool :=
  match ev with Print _ => true | _ => false end.

Definition restores (tr : list event) : nat :=
  List.length (filter is_restore tr).

(** The effects up to, and without, the first [term.Restore]. *)
Fixpoint before_restore (tr : list event) : list event :=
  match tr with
  | [] => []
  | ev :: rest => if is_restore ev then [] else ev :: before_restore rest
  end.

(** No print to the terminal comes before the first [term.Restore]. *)
Definition restore_before_prints (tr : list event) : bool :=
  forallb (fun ev => negb (is_print ev)) (before_restore tr).

(** The detached goroutine of lines 57-60 prints its line break at
    some point [k] of the caller's trace, if the caller has not
    returned by then. *)
Definition with_delayed_newline (k : nat) (tr : list event) : list event :=
  if Nat.leb k (List.length tr)
  then firstn k tr ++ Print [(Plain, crlf)] :: skipn k tr
  else tr.

(** Sample environments: a child that exits as soon as it is asked
    to, one that never exits by itself, an interactive call, and a
    call whose standard input is not a terminal. *)
Definition prompt_child : child :=
  {| sigterm := None; exits_after := Some 0%Z; wait_result := None;
     timer_first := false; kill := None |}.

Definition stubborn_child : child :=
  {| sigterm := None; exits_after := None; wait_result := None;
     timer_first := true; kill := None |}.

(** A child that takes five seconds to exit after SIGTERM. *)
Definition late_child : child :=
  {| sigterm := None; exits_after := Some (5 * Second)%Z; wait_result := None;
     timer_first := false; kill := None |}.

Definition session (w : winner) (c : child) : env :=
  {| stdin_is_terminal := true; prior := Snapshot 0; direct_run := None;
     stdin_pipe := None; start := None; make_raw := None;
     cooked_wait := None; race := w; victim := c |}.

Definition piped (run : goerror) : env :=
  {| stdin_is_terminal := false; prior := Snapshot 0; direct_run := run;
     stdin_pipe := None; start := None; make_raw := None;
     cooked_wait := None; race := ProcessExit None; victim := prompt_child |}.

(** An [Error()] method for the examples: an error of os or syscall
    prints its message. *)
Definition os_text (e : error) : string :=
  match e with
  | OSError msg => msg
  | EOF => "EOF"
  | _ => EmptyString
  end.

End Proxy.

(** ** The command dispatcher: [SendCommand], [PrintCommandInvocation]
    and [monitorCommandInvocation] *)

Module Dispatch.

Local Open Scope string_scope.
Local Open Scope list_scope.

Record Target : Type := mkTarget {
  Name : string;                  (* AWS Instance ID *)
  PublicDomain : string;
  PrivateDomain : string
}.

Record SendCommandInput : Type := mkSendCommandInput {
  DocumentName : string;
  InstanceIds : list string;
  TimeoutSeconds : Z;
  CloudWatchOutputEnabled : bool; Parameters : list (string * list string)
}.

(** The part of [ssm.SendCommandOutput] the caller reads:
    [Command.CommandId] and [Command.InstanceIds]. *)
Record SendCommandOutput : Type := mkSendCommandOutput {
  CommandId : string;
  CommandInstanceIds : list string
}.

Record GetCommandInvocationInput : Type := mkGetCommandInvocationInput {
  InvocationCommandId : string;
  InvocationInstanceId : string
}.

(** The fields of [ssm.GetCommandInvocationOutput] the watcher reads;
    the pointers are taken as set. *)
Record GetCommandInvocationOutput : Type := mkGetCommandInvocationOutput {
  Status : string;
  InstanceId : string;
  StandardOutputContent : string;
  StandardErrorContent : string
}.

Definition shellDocumentName : string := "AWS-RunShellScript".
Definition commandTimeout : Z := 60.
Definition pollInterval : Z := 1 * Second.
Definition commandWaitTime : Z := 3 * Second.     (* cmd/cmd.go *)

(** The three lines a watcher can print. *)
Inductive line : Type :=
| success_line (instance stdout : string)
    (* fmt.Printf("[%s][%s] %s\n", green "success", yellow instance, green stdout) *)
| error_line (instance stderr : string)
    (* fmt.Printf("[%s][%s] %s\n", red "error", yellow instance, red stderr) *)
| get_failed_line (err : error).
    (* color.Red("Failed to get command invocation: %v", err) *)

(** The remote calls, and the other effects of the dispatcher. *)
Inductive effect : Type :=
| CallSendCommand (input : SendCommandInput)
| CallGetCommandInvocation (input : GetCommandInvocationInput)
| Sleep (d : Z)
| NewTicker (d : Z)
| TickerFired (d : Z)             (* <-ticker.C *)
| StopTicker
| Printed (l : line)              (* one fmt.Printf / color.Red call *)
| WgDone.

(** [SendCommand]: the input it builds, and the single call. [reply]
    is the answer of the service. *)
Definition SendCommand {A : Type} (reply : SendCommandInput -> A)
    (targets : list Target) (command : string) : list effect * A :=
  let instanceIDs := map Name targets in
  let input := {| DocumentName := shellDocumentName;
                  InstanceIds := instanceIDs;
                  TimeoutSeconds := commandTimeout;
                  CloudWatchOutputEnabled := true; Parameters :=
                    [("commands", [command])] |} in
  ([CallSendCommand input], reply input).

(** The inputs [displayCommandResults] builds, one per instance id of
    the answer. *)
Definition invocationInputs (sendOutput : SendCommandOutput)
  : list GetCommandInvocationInput :=
  map (fun instanceID =>
         {| InvocationCommandId := CommandId sendOutput;
            InvocationInstanceId := instanceID |})
      (CommandInstanceIds sendOutput).

(** [strings.ToLower] on the ASCII letters; the status names of the
    service are ASCII, and other bytes are left as they are. *)
Definition lower_ascii (c : ascii) : ascii :=
  let n := nat_of_ascii c in
  if Nat.leb 65 n && Nat.leb n 90 then ascii_of_nat (n + 32) else c.

Fixpoint ToLower (s : string) : string :=
  match s with
  | EmptyString => EmptyString
  | String c rest => String (lower_ascii c) (ToLower rest)
  end.

(** What the environment offers at one turn of the watcher's loop:
    the context is cancelled, or the ticker fires and the status call
    answers. *)
Inductive turn : Type :=
| CtxDone
| Poll (answer : error + GetCommandInvocationOutput).

Inductive next : Type := Continue | Return.

(** The [switch status] of the watcher. *)
Definition on_status (output : GetCommandInvocationOutput) : list effect * next :=
  let status := ToLower (Status output) in
  if String.eqb status "pending" || String.eqb status "inprogress"
     || String.eqb status "delayed" then
    ([], Continue)
  else if String.eqb status "success" then
    ([Printed (success_line (InstanceId output) (StandardOutputContent output))],
     Return)
  else
    ([Printed (error_line (InstanceId output) (StandardErrorContent output))],
     Return).

(** One turn of the [for]/[select] loop. *)
Definition iteration (input : GetCommandInvocationInput) (t : turn)
  : list effect * next :=
  match t with
  | CtxDone => ([], Return)
  | Poll (inl err) =>
      ([TickerFired pollInterval; CallGetCommandInvocation input;
        Printed (get_failed_line err)], Return)
  | Poll (inr output) =>
      let (effs, n) := on_status output in
      (TickerFired pollInterval :: CallGetCommandInvocation input :: effs, n)
  end.

(** The loop, over the turns the environment offers; when they are
    used up the watcher is blocked in its select ([Continue]). *)
Fixpoint poll_loop (input : GetCommandInvocationInput) (turns : list turn)
  : list effect * next :=
  match turns with
  | [] => ([], Continue)
  | t :: rest =>
      match iteration input t with
      | (effs, Return) => (effs, Return)
      | (effs, Continue) =>
          let (more, n) := poll_loop input rest in (effs ++ more, n)
      end
  end.

(** [monitorCommandInvocation]: the ticker, the loop, and the two
    deferred calls when it returns. *)
Definition monitorCommandInvocation (input : GetCommandInvocationInput)
    (turns : list turn) : list effect * next :=
  match poll_loop input turns with
  | (effs, Return) => (NewTicker pollInterval :: effs ++ [StopTicker; WgDone], Return)
  | (effs, Continue) => (NewTicker pollInterval :: effs, Continue)
  end.

Definition is_poll (e : effect) : bool :=
  match e with CallGetCommandInvocation _ => true | _ => false end.

(** The lines a trace prints, in order. *)
Fixpoint printed (effs : list effect) : list line :=
  match effs with
  | [] => []
  | Printed l :: rest => l :: printed rest
  | _ :: rest => printed rest
  end.

(** The status calls of a trace. *)
Definition polls (effs : list effect) : nat := List.length (filter is_poll effs).

(** *** The watchers as goroutines *)

(** One watcher goroutine: its input, the turns the environment still
    holds for it, what it has printed, and whether it has returned. *)
Record watcher : Type := mkWatcher {
  input : GetCommandInvocationInput;
  turns : list turn;
  lines : list line;
  returned : bool
}.

(** The state shared by the goroutines of [PrintCommandInvocation]:
    the WaitGroup counter, the watchers, and standard output. *)
Record pool : Type := mkPool {
  wg : Z;
  watchers : list watcher;
  stdout : list line
}.

Fixpoint replace {A : Type} (i : nat) (x : A) (l : list A) : list A :=
  match l, i with
  | [], _ => []
  | _ :: rest, O => x :: rest
  | y :: rest, S j => y :: replace j x rest
  end.

(** The scheduler runs watcher [i] for one turn of its loop. A watcher
    that has returned, or has no turn to take, does not move; the
    deferred [wg.Done()] runs when the watcher returns. *)
Definition run_one (i : nat) (p : pool) : pool :=
  match nth_error (watchers p) i with
  | None => p
  | Some w =>
      if returned w then p
      else
        match turns w with
        | [] => p
        | t :: rest =>
            let (effs, n) := iteration (input w) t in
            let ret := match n with Return => true | Continue => false end in
            {| wg := if ret then (wg p - 1)%Z else wg p;
               watchers :=
                 replace i {| input := input w; turns := rest;
                              lines := lines w ++ printed effs;
                              returned := ret |} (watchers p);
               stdout := stdout p ++ printed effs |}
        end
  end.

(** A schedule is the order in which the goroutines get to run. *)
Definition run_schedule (schedule : list nat) (p : pool) : pool :=
  fold_left (fun q i => run_one i q) schedule p.

(** The [for] loop of [PrintCommandInvocation]: [wg.Add(1)] and one
    goroutine per input.  [feeds i] is what the environment will offer
    the i-th watcher, and [early i] is how the goroutines started so far
    run before the loop comes to its next input. *)
Fixpoint spawn (feeds : nat -> list turn) (early : nat -> list nat) (i : nat)
    (inputs : list GetCommandInvocationInput) (p : pool) : pool :=
  match inputs with
  | [] => p
  | inp :: rest =>
      spawn feeds early (S i) rest
        (run_schedule (early i)
           {| wg := (wg p + 1)%Z;
              watchers := watchers p ++
                          [{| input := inp; turns := feeds i;
                              lines := []; returned := false |}];
              stdout := stdout p |})
  end.

(** [PrintCommandInvocation] up to [wg.Wait()]: the loop, and then the
    goroutines under [schedule]. *)
Definition PrintCommandInvocation (feeds : nat -> list turn)
    (early : nat -> list nat) (inputs : list GetCommandInvocationInput)
    (schedule : list nat) : pool :=
  run_schedule schedule
    (spawn feeds early 0 inputs {| wg := 0%Z; watchers := []; stdout := [] |}).

(** [wg.Wait()] returns: the counter is zero. *)
Definition wait_returns (p : pool) : bool := Z.eqb (wg p) 0.

(** The watchers that have not returned. *)
Definition live (ws : list watcher) : nat :=
  List.length (filter (fun w => negb (returned w)) ws).

(** [runCommand] of cmd/cmd.go from the send on: the command is sent;
    on an error the program logs it and exits; otherwise
    [displayCommandResults] sleeps, builds the inputs and watches. *)
Definition runCommand (reply : SendCommandInput -> error + SendCommandOutput)
    (targets : list Target) (command : string)
    (feeds : nat -> list turn) (early : nat -> list nat) (schedule : list nat)
  : list effect * option pool :=
  match SendCommand reply targets command with
  | (effs, inl _) => (effs, None)
  | (effs, inr sendOutput) =>
      (effs ++ [Sleep commandWaitTime],
       Some (PrintCommandInvocation feeds early (invocationInputs sendOutput)
               schedule))
  end.

(** The status, lower-cased, is one of the three the watcher keeps
    polling on. *)
Definition still_running (output : GetCommandInvocationOutput) : bool :=
  let status := ToLower (Status output) in
  String.eqb status "pending" || String.eqb status "inprogress"
  || String.eqb status "delayed".

(** A turn on which the watcher goes round its loop again. *)
Definition keeps_polling (t : turn) : bool :=
  match t with
  | Poll (inr output) => still_running output
  | _ => false
  end.

(** The effects of one status call that leaves the watcher polling. *)
Definition quiet_poll (input : GetCommandInvocationInput) : list effect :=
  [TickerFired pollInterval; CallGetCommandInvocation input].

(** What the watcher prints on the turn that ends it. *)
Definition last_words (t : turn) : list line :=
  match t with
  | CtxDone => []
  | Poll (inl err) => [get_failed_line err]
  | Poll (inr output) =>
      if String.eqb (ToLower (Status output)) "success"
      then [success_line (InstanceId output) (StandardOutputContent output)]
      else [error_line (InstanceId output) (StandardErrorContent output)]
  end.

(** A watcher that has not returned has printed nothing, and no
    watcher has printed more than one line. *)
Definition tidy (w : watcher) : Prop :=
  (returned w = false -> lines w = []) /\ List.length (lines w) <= 1.

(** What the pool keeps true under any schedule: the WaitGroup counts
    the watchers that have not returned, and every watcher is tidy. *)
Definition pool_ok (p : pool) : Prop :=
  wg p = Z.of_nat (live (watchers p)) /\ Forall tidy (watchers p).

(** Sample answers of the status call, and a service that echoes the
    instance ids it is sent. *)
Definition answer (status instance stdout stderr : string) : turn :=
  Poll (inr {| Status := status; InstanceId := instance;
               StandardOutputContent := stdout;
               StandardErrorContent := stderr |}).

Definition echo (input : SendCommandInput) : error + SendCommandOutput :=
  inr {| CommandId := "cmd-1"; CommandInstanceIds := InstanceIds input |}.

Definition two_targets : list Target :=
  [{| Name := "i-0"; PublicDomain := ""; PrivateDomain := "" |};
   {| Name := "i-1"; PublicDomain := ""; PrivateDomain := "" |}].

(** No goroutine runs before the loop of [PrintCommandInvocation] ends. *)
Definition idle (i : nat) : list nat := [].

Definition two_feeds (i : nat) : list turn :=
  match i with
  | O => [answer "Success" "i-0" "ok" ""]
  | _ => [answer "InProgress" "i-1" "" ""; answer "Failed" "i-1" "" "boom"]
  end.

End Dispatch.

From Stdlib Require Import Permutation.

(** ** More of the scanner and of the dispatcher *)

Module Extra.

(** A turn of the forwarding loop that is not an empty read. *)
Definition carries (it : Escape.iteration) : bool :=
  match it with
  | Escape.Read Escape.ReadNothing => false
  | _ => true
  end.

(** What the loop returns when a turn ends it: nil on a cancelled
    context and on EOF, the error otherwise. *)
Definition stopped_with (it : Escape.iteration) : option goerror :=
  match it with
  | Escape.CtxDone => Some None
  | Escape.Read (Escape.ReadErr err) =>
      Some (if error_eqb err EOF then None else Some err)
  | _ => None
  end.

(** A byte string holds a slash. *)
Fixpoint has_slash (s : string) : bool :=
  match s with
  | EmptyString => false
  | String c rest => Ascii.eqb c "/" || has_slash rest
  end.

(** The schedule that runs watcher [i] as often as its feed is long,
    for [i] from [from] on, [n] watchers in all. *)
Fixpoint one_after_another (feeds : nat -> list Dispatch.turn) (from n : nat)
  : list nat :=
  match n with
  | O => []
  | S m => repeat from (List.length (feeds from))
           ++ one_after_another feeds (S from) m
  end.

(** A feed holds a turn that ends the watcher. *)
Definition feed_ends (ts : list Dispatch.turn) : bool :=
  existsb (fun t => negb (Dispatch.keeps_polling t)) ts.

(** Where watcher [i] stands in its feed: the turns it has taken and
    the turns it still holds make up [feeds i]; while it has not
    returned every turn taken was a quiet poll and it has printed
    nothing; once it has returned, the last turn taken is the one that
    ended it and it has printed the lines of that turn. *)
Definition in_step (feeds : nat -> list Dispatch.turn) (i : nat)
    (w : Dispatch.watcher) : Prop :=
  exists consumed,
    feeds i = consumed ++ Dispatch.turns w
    /\ if Dispatch.returned w
       then exists pre t,
              consumed = pre ++ [t]
              /\ forallb Dispatch.keeps_polling pre = true
              /\ Dispatch.keeps_polling t = false
              /\ Dispatch.lines w = Dispatch.last_words t
       else forallb Dispatch.keeps_polling consumed = true
            /\ Dispatch.lines w = [].

(** Every watcher of the pool is in step with its feed. *)
Definition all_in_step (feeds : nat -> list Dispatch.turn) (p : Dispatch.pool)
  : Prop :=
  forall i w, nth_error (Dispatch.watchers p) i = Some w -> in_step feeds i w.

(** The lines of all the watchers, watcher by watcher. *)
Definition all_lines (ws : list Dispatch.watcher) : list Dispatch.line :=
  List.concat (map Dispatch.lines ws).

End Extra.

(** ** The instance inventory of [internal/ssm.go]: [FindInstances],
    [FindInstanceIdsWithConnectedSSM], [FindInstanceIdByIp],
    [FindDomainByInstanceId], and [GenerateSSHExecCommand] *)

Module Inventory.

Local Open Scope string_scope.
Local Open Scope list_scope.

(** [aws.ToString]: the string behind the pointer, empty for nil. *)
Definition ToString (p : option string) : string :=
  match p with
  | Some s => s
  | None => EmptyString
  end.

Record Tag : Type := mkTag {
  Key : option string;
  Value : option string
}.

(** The fields of [ec2types.Instance] that are read; each is a pointer. *)
Record Instance : Type := mkInstance {
  InstanceId : option string;
  Tags : list Tag;
  PublicDnsName : option string;
  PrivateDnsName : option string;
  PublicIpAddress : option string;
  PrivateIpAddress : option string
}.

(** A reservation, by its [Instances]. *)
Definition Reservation : Type := list Instance.

Record DescribeInstancesOutput : Type := mkDescribeInstancesOutput {
  Reservations : list Reservation;
  NextToken : option string
}.

(** One page of [DescribeInstanceInformation]: the [InstanceId] pointers
    of its [InstanceInformationList], and its [NextToken]. *)
Record InformationPage : Type := mkInformationPage {
  InstanceInformationList : list (option string);
  PageNextToken : option string
}.

(** The errors these functions build: [fmt.Errorf("<context>: %w", err)]
    around an error of the service, and [fmt.Errorf] with a message. *)
Inductive failure : Type :=
| Failed (context : string) (cause : error)
| Missing (message : string).

(** How a call ends: with a value, with an error, in a nil-pointer
    panic, or still waiting for an answer of the service. *)
Inductive outcome (A : Type) : Type :=
| Ok (a : A)
| Err (f : failure)
| Panic
| Waiting.

Arguments Ok {A} a.
Arguments Err {A} f.
Arguments Panic {A}.
Arguments Waiting {A}.

(** *** [FindInstanceIdsWithConnectedSSM] *)

(** The ids of one page: the pointers that are not nil. *)
Fixpoint page_ids (l : list (option string)) : list string :=
  match l with
  | [] => []
  | Some id :: rest => id :: page_ids rest
  | None :: rest => page_ids rest
  end.

(** [nextToken != nil && *nextToken != ""] *)
Definition has_more (nextToken : option string) : bool :=
  match nextToken with
  | Some s => negb (String.eqb s EmptyString)
  | None => false
  end.

(** The loop over the additional pages.  [answers] are the answers of
    the service to the calls still to come; the result carries the
    [NextToken] sent with each call made. *)
Fixpoint more_information (answers : list (error + InformationPage))
    (nextToken : option string) (instanceIDs : list string)
  : list (option string) * outcome (list string) :=
  if has_more nextToken then
    match answers with
    | [] => ([nextToken], Waiting)
    | inl err :: _ =>
        ([nextToken],
         Err (Failed "failed to describe additional instance information" err))
    | inr nextOutput :: rest =>
        let (calls, r) :=
          more_information rest (PageNextToken nextOutput)
            (instanceIDs ++ page_ids (InstanceInformationList nextOutput)) in
        (nextToken :: calls, r)
    end
  else ([], Ok instanceIDs).

Definition FindInstanceIdsWithConnectedSSM
    (answers : list (error + InformationPage))
  : list (option string) * outcome (list string) :=
  match answers with
  | [] => ([None], Waiting)
  | inl err :: _ =>
      ([None], Err (Failed "failed to describe instance information" err))
  | inr output :: rest =>
      let (calls, r) :=
        more_information rest (PageNextToken output)
          (page_ids (InstanceInformationList output)) in
      (None :: calls, r)
  end.

(** *** [FindInstances] *)

(** The table [map[string]*Target], as the list of its entries; a key
    occurs once. *)
Definition table : Type := list (string * Dispatch.Target).

(** [table[k] = v] *)
Fixpoint table_set (k : string) (v : Dispatch.Target) (t : table) : table :=
  match t with
  | [] => [(k, v)]
  | (k', v') :: rest =>
      if String.eqb k' k then (k, v) :: rest
      else (k', v') :: table_set k v rest
  end.

(** [table[k]] *)
Fixpoint table_get (k : string) (t : table) : option Dispatch.Target :=
  match t with
  | [] => None
  | (k', v') :: rest => if String.eqb k' k then Some v' else table_get k rest
  end.

(** The value of the first tag whose key is "Name", empty if none. *)
Fixpoint name_of_tags (tags : list Tag) : string :=
  match tags with
  | [] => EmptyString
  | tag :: rest =>
      if String.eqb (ToString (Key tag)) "Name" then ToString (Value tag)
      else name_of_tags rest
  end.

(** [fmt.Sprintf("%s\t(%s)", name, id)] *)
Definition displayName (name id : string) : string :=
  String.append name
    (String.append (String "009" "(") (String.append id ")")).

(** The body of the innermost loop; [None] is the panic of
    [*instance.InstanceId] on a nil pointer. *)
Definition add_instance (t : table) (instance : Instance) : option table :=
  match InstanceId instance with
  | None => None
  | Some id =>
      Some (table_set (displayName (name_of_tags (Tags instance)) id)
              {| Dispatch.Name := ToString (InstanceId instance);
                 Dispatch.PublicDomain := ToString (PublicDnsName instance);
                 Dispatch.PrivateDomain := ToString (PrivateDnsName instance) |}
              t)
  end.

Fixpoint add_instances (t : table) (instances : list Instance) : option table :=
  match instances with
  | [] => Some t
  | instance :: rest =>
      match add_instance t instance with
      | None => None
      | Some t' => add_instances t' rest
      end
  end.

Fixpoint add_reservations (t : table) (reservations : list Reservation)
  : option table :=
  match reservations with
  | [] => Some t
  | reservation :: rest =>
      match add_instances t reservation with
      | None => None
      | Some t' => add_reservations t' rest
      end
  end.

(** [batchSize]: all the ids left, or 199 of them when 200 or more are
    left. *)
Definition batchSize (instanceIDs : list string) : nat :=
  if Nat.leb 200 (List.length instanceIDs) then 199
  else List.length instanceIDs.

(** The loop [for len(instanceIDs) > 0]; the result carries the batch
    of ids sent with each [DescribeInstances] call made. *)
Fixpoint describe_batches (answers : list (error + DescribeInstancesOutput))
    (instanceIDs : list string) (t : table)
  : list (list string) * outcome table :=
  match instanceIDs with
  | [] => ([], Ok t)
  | _ :: _ =>
      let batch := firstn (batchSize instanceIDs) instanceIDs in
      match answers with
      | [] => ([batch], Waiting)
      | inl err :: _ => ([batch], Err (Failed "failed to describe instances" err))
      | inr output :: rest =>
          match add_reservations t (Reservations output) with
          | None => ([batch], Panic)
          | Some t' =>
              let (calls, r) :=
                describe_batches rest
                  (skipn (batchSize instanceIDs) instanceIDs) t' in
              (batch :: calls, r)
          end
      end
  end.

(** [FindInstances], given the ids with a connected agent. *)
Definition FindInstances (connected : outcome (list string))
    (answers : list (error + DescribeInstancesOutput))
  : list (list string) * outcome table :=
  match connected with
  | Ok instanceIDs => describe_batches answers instanceIDs []
  | Err f => ([], Err f)
  | Panic => ([], Panic)
  | Waiting => ([], Waiting)
  end.

(** *** [FindInstanceIdByIp] *)

(** The closure [findInstanceWithIP] on the instances of one output, in
    order; [None] is the panic of [*instance.InstanceId]. *)
Fixpoint instance_with_ip (ip : string) (instances : list Instance)
  : option string :=
  match instances with
  | [] => Some EmptyString
  | instance :: rest =>
      match PublicIpAddress instance, PrivateIpAddress instance with
      | None, None => instance_with_ip ip rest
      | _, _ =>
          if String.eqb ip (ToString (PublicIpAddress instance))
             || String.eqb ip (ToString (PrivateIpAddress instance))
          then InstanceId instance
          else instance_with_ip ip rest
      end
  end.

Definition findInstanceWithIP (ip : string) (output : DescribeInstancesOutput)
  : option string :=
  instance_with_ip ip (List.concat (Reservations output)).

Fixpoint more_instances_by_ip (ip : string)
    (answers : list (error + DescribeInstancesOutput))
    (nextToken : option string)
  : list (option string) * outcome string :=
  if has_more nextToken then
    match answers with
    | [] => ([nextToken], Waiting)
    | inl err :: _ =>
        ([nextToken], Err (Failed "failed to describe additional instances" err))
    | inr nextOutput :: rest =>
        match findInstanceWithIP ip nextOutput with
        | None => ([nextToken], Panic)
        | Some instanceID =>
            if negb (String.eqb instanceID EmptyString)
            then ([nextToken], Ok instanceID)
            else
              let (calls, r) :=
                more_instances_by_ip ip rest (NextToken nextOutput) in
              (nextToken :: calls, r)
        end
    end
  else
    ([], Err (Missing (String.append "no instance found with IP address: " ip))).

Definition FindInstanceIdByIp (ip : string)
    (answers : list (error + DescribeInstancesOutput))
  : list (option string) * outcome string :=
  match answers with
  | [] => ([None], Waiting)
  | inl err :: _ => ([None], Err (Failed "failed to describe instances" err))
  | inr output :: rest =>
      match findInstanceWithIP ip output with
      | None => ([None], Panic)
      | Some instanceID =>
          if negb (String.eqb instanceID EmptyString)
          then ([None], Ok instanceID)
          else
            let (calls, r) := more_instances_by_ip ip rest (NextToken output) in
            (None :: calls, r)
      end
  end.

(** *** [FindDomainByInstanceId] *)

(** The closure [findDomainForInstance] on the instances of one output. *)
Fixpoint domain_of_instance (id : string) (instances : list Instance)
  : list string :=
  match instances with
  | [] => []
  | instance :: rest =>
      if String.eqb (ToString (InstanceId instance)) id
      then [ToString (PublicDnsName instance);
            ToString (PrivateDnsName instance)]
      else domain_of_instance id rest
  end.

Definition findDomainForInstance (output : DescribeInstancesOutput)
    (id : string) : list string :=
  domain_of_instance id (List.concat (Reservations output)).

Fixpoint more_domains (instanceID : string)
    (answers : list (error + DescribeInstancesOutput))
    (nextToken : option string)
  : list (option string) * outcome (list string) :=
  if has_more nextToken then
    match answers with
    | [] => ([nextToken], Waiting)
    | inl err :: _ =>
        ([nextToken], Err (Failed "failed to describe additional instances" err))
    | inr nextOutput :: rest =>
        match findDomainForInstance nextOutput instanceID with
        | [] =>
            let (calls, r) := more_domains instanceID rest (NextToken nextOutput) in
            (nextToken :: calls, r)
        | domain => ([nextToken], Ok domain)
        end
    end
  else
    ([], Err (Missing (String.append "no domains found for instance: " instanceID))).

Definition FindDomainByInstanceId (instanceID : string)
    (answers : list (error + DescribeInstancesOutput))
  : list (option string) * outcome (list string) :=
  match answers with
  | [] => ([None], Waiting)
  | inl err :: _ => ([None], Err (Failed "failed to describe instances" err))
  | inr output :: rest =>
      match findDomainForInstance output instanceID with
      | [] =>
          let (calls, r) := more_domains instanceID rest (NextToken output) in
          (None :: calls, r)
      | domain => ([None], Ok domain)
      end
  end.

(** *** [GenerateSSHExecCommand] *)

(** [strings.Contains(s, substr)] *)
Fixpoint Contains (s substr : string) : bool :=
  String.prefix substr s
  || match s with
     | EmptyString => false
     | String _ rest => Contains rest substr
     end.

Definition GenerateSSHExecCommand (exec identity user domain : string) : string :=
  let newExec :=
    if String.eqb exec EmptyString
    then String.append user (String.append "@" domain)
    else exec in
  let hasIdentityFlag := Contains newExec " -i " in
  if negb hasIdentityFlag && negb (String.eqb identity EmptyString)
  then String.append "-i " (String.append identity (String.append " " newExec))
  else newExec.

(** All the instances of a list of answers. *)
Definition instances_of (outputs : list DescribeInstancesOutput) : list Instance :=
  List.concat (map (fun o => List.concat (Reservations o)) outputs).

(** The outputs among the first [n] answers. *)
Fixpoint outputs_of (answers : list (error + DescribeInstancesOutput))
  : list DescribeInstancesOutput :=
  match answers with
  | [] => []
  | inl _ :: rest => outputs_of rest
  | inr o :: rest => o :: outputs_of rest
  end.

(** The entry of an instance, when its id pointer is set. *)
Definition entry_of (i : Instance) : string * Dispatch.Target :=
  (displayName (name_of_tags (Tags i)) (ToString (InstanceId i)),
   {| Dispatch.Name := ToString (InstanceId i);
      Dispatch.PublicDomain := ToString (PublicDnsName i);
      Dispatch.PrivateDomain := ToString (PrivateDnsName i) |}).

(** What the table is to the instances added so far. *)
Definition table_of (t : table) (instances : list Instance) : Prop :=
  NoDup (map fst t)
  /\ (forall e, In e t -> exists i, In i instances /\ e = entry_of i)
  /\ (forall i, In i instances ->
        InstanceId i <> None /\ In (fst (entry_of i)) (map fst t)).

(** Sample answers of [DescribeInstances]: two pages with one instance
    each. *)
Definition two_pages : list (error + DescribeInstancesOutput) :=
  [inr {| Reservations :=
            [[{| InstanceId := Some "i-0"; Tags := [];
                 PublicDnsName := None; PrivateDnsName := None;
                 PublicIpAddress := None;
                 PrivateIpAddress := Some "10.0.0.1" |}]];
          NextToken := Some "t1" |};
   inr {| Reservations :=
            [[{| InstanceId := Some "i-7"; Tags := [];
                 PublicDnsName := None;
                 PrivateDnsName := Some "ip-10-0-0-7.internal";
                 PublicIpAddress := None;
                 PrivateIpAddress := Some "10.0.0.7" |}]];
          NextToken := None |}].

End Inventory.

(** ** The callers of the proxy: [runStartSession] of cmd/session.go and
    [startPortForwardingSession] of the port-forwarding command *)

Module Sessions.

Local Open Scope string_scope.
Local Open Scope list_scope.

(** An error as these callers hand it on: an error of a callee as it
    is, or [fmt.Errorf("<context>: %w", err)] around one. *)
Inductive report : Type :=
| AsIs (err : error)
| InContext (context : string) (cause : report).

(** The effects of a caller. *)
Inductive step : Type :=
| CreateSession (documentName : option string)
    (parameters : list (string * list string)) (target : string)
| Marshal                          (* json.Marshal *)
| CallProcess (process : string) (args : list string)
    (effects : list Proxy.event)   (* internal.CallProcess and what it does *)
| PrintRed (r : report)            (* color.Red(...) *)
| PrintDelete (sessionId : string) (* "Delete Session <id>" *)
| TerminateSession (sessionId : string)
| LogErrorAndExit (r : report).    (* logErrorAndExit: print, os.Exit(1) *)

(** What the environment and the configuration decide. *)
Record world : Type := mkWorld {
  ssmPluginPath : string;
  region : string;
  awsProfile : string;
  create : error + string;          (* CreateStartSession: the session id *)
  sessionJSON : error + string;     (* json.Marshal(session) *)
  paramsJSON : error + string;      (* json.Marshal(input) *)
  terminal : Proxy.env;             (* the environment of the proxy *)
  terminate : goerror               (* TerminateSession *)
}.

Section ErrorMethod.

Variable Error : error -> string.

(** [internal.CallProcess] *)
Definition CallProcess_ (w : world) (process : string) (args : list string)
  : list step * goerror :=
  let (effects, err) := Proxy.CallProcessWithSimpleEscape Error (terminal w) in
  ([CallProcess process args effects], err).

(** [executeSession] *)
Definition executeSession (w : world) : list step * option report :=
  match sessionJSON w with
  | inl err =>
      ([Marshal], Some (InContext "failed to marshal session" (AsIs err)))
  | inr sessionJSON =>
      match paramsJSON w with
      | inl err =>
          ([Marshal; Marshal],
           Some (InContext "failed to marshal session parameters" (AsIs err)))
      | inr paramsJSON =>
          let (tr, err) :=
            CallProcess_ w (ssmPluginPath w)
              [sessionJSON; region w; "StartSession"; awsProfile w; paramsJSON] in
          ([Marshal; Marshal] ++ tr,
           match err with Some e => Some (AsIs e) | None => None end)
      end
  end.

(** [internal.DeleteStartSession] *)
Definition DeleteStartSession (w : world) (sessionId : string)
  : list step * option report :=
  ([PrintDelete sessionId; TerminateSession sessionId],
   match terminate w with
   | Some err => Some (InContext "failed to terminate session" (AsIs err))
   | None => None
   end).

(** [runStartSession] from [createSession] on; the result tells whether
    the program was ended by [logErrorAndExit]. *)
Definition runStartSession (w : world) (target : string) : list step * bool :=
  match create w with
  | inl err =>
      ([CreateSession None [] target;
        LogErrorAndExit (InContext "failed to create session" (AsIs err))],
       true)
  | inr sessionId =>
      let (tr, err) := executeSession w in
      let (tr', err') := DeleteStartSession w sessionId in
      ([CreateSession None [] target] ++ tr
       ++ match err with Some r => [PrintRed r] | None => [] end
       ++ tr'
       ++ match err' with Some r => [LogErrorAndExit r] | None => [] end,
       match err' with Some _ => true | None => false end)
  end.

(** [startPortForwardingSession] *)
Definition startPortForwardingSession (w : world) (target : string)
    (localPort remotePort : string) : list step * option report :=
  let sessionInput :=
    CreateSession (Some "AWS-StartPortForwardingSession")
      [("portNumber", [remotePort]); ("localPortNumber", [localPort])]
      target in
  match create w with
  | inl err =>
      ([sessionInput],
       Some (InContext "failed to create session" (AsIs err)))
  | inr sessionId =>
      match sessionJSON w with
      | inl err =>
          ([sessionInput; Marshal],
           Some (InContext "failed to marshal session" (AsIs err)))
      | inr sessionJSON =>
          match paramsJSON w with
          | inl err =>
              ([sessionInput; Marshal; Marshal],
               Some (InContext "failed to marshal parameters" (AsIs err)))
          | inr paramsJSON =>
              let (tr, err) :=
                CallProcess_ w (ssmPluginPath w)
                  [sessionJSON; region w; "StartSession"; awsProfile w;
                   paramsJSON] in
              let (tr', err') := DeleteStartSession w sessionId in
              ([sessionInput; Marshal; Marshal] ++ tr
               ++ match err with Some e => [PrintRed (AsIs e)] | None => [] end
               ++ tr',
               match err' with
               | Some r => Some (InContext "failed to terminate session" r)
               | None => None
               end)
          end
      end
  end.

End ErrorMethod.

(** The effects on the terminal among the steps of a caller. *)
Fixpoint terminal_effects (tr : list step) : list Proxy.event :=
  match tr with
  | [] => []
  | CallProcess _ _ effects :: rest => effects ++ terminal_effects rest
  | _ :: rest => terminal_effects rest
  end.

Definition is_terminate (s : step) : bool :=
  match s with TerminateSession _ => true | _ => false end.

(** The steps before the first [TerminateSession], and those after. *)
Fixpoint before_terminate (tr : list step) : list step :=
  match tr with
  | [] => []
  | s :: rest => if is_terminate s then [] else s :: before_terminate rest
  end.

Fixpoint after_terminate (tr : list step) : list step :=
  match tr with
  | [] => []
  | s :: rest => if is_terminate s then rest else after_terminate rest
  end.

Definition is_call (s : step) : bool :=
  match s with CallProcess _ _ _ => true | _ => false end.

(** A sample world: an interactive terminal and a child that exits with
    status 7. *)
Definition sample (created : error + string) (json : error + string) : world :=
  {| ssmPluginPath := "/home/u/.gossm/session-manager-plugin";
     region := "eu-west-1"; awsProfile := "default";
     create := created; sessionJSON := json; paramsJSON := inr "{}";
     terminal := Proxy.session (Proxy.ProcessExit (Some (ExitError 7)))
                   Proxy.prompt_child;
     terminate := None |}.

End Sessions.

(** ** The argument parsing of cmd/cmd.go and cmd/scp.go *)

Module Args.

Local Open Scope string_scope.
Local Open Scope list_scope.

(** [strings.Split(s, sep)] for a separator of one byte. *)
Fixpoint Split (s : string) (sep : ascii) : list string :=
  match s with
  | EmptyString => [EmptyString]
  | String c rest =>
      if Ascii.eqb c sep then EmptyString :: Split rest sep
      else match Split rest sep with
           | [] => [String c EmptyString]
           | part :: parts => String c part :: parts
           end
  end.

(** The byte [c] occurs in [s]. *)
Fixpoint has_char (c : ascii) (s : string) : bool :=
  match s with
  | EmptyString => false
  | String d rest => Ascii.eqb d c || has_char c rest
  end.

(** The parsing of [handleDirectSSHCommand]: the server of the command,
    or the error "invalid SSH command format: must include
    user@server". *)
Definition direct_ssh_server (execFlag : string) : option string :=
  let parts := Split execFlag " " in
  let lastPart := List.last parts EmptyString in
  let serverParts := Split lastPart "@" in
  if Nat.ltb (List.length serverParts) 2 then None
  else Some (List.last serverParts EmptyString).

(** [validateSCPArguments]; [scpArgs] is the flag after
    [strings.TrimSpace]. *)
Definition validateSCPArguments (scpArgs : string) : string + string :=
  if String.eqb scpArgs EmptyString then
    inl "SCP command arguments are required"
  else if Nat.ltb (List.length (Split scpArgs " ")) 2 then
    inl "invalid SCP arguments: must include source and destination"
  else inr scpArgs.

(** The host of one argument in the form user@host:path, empty when the
    argument is not of that form. *)
Definition host_in (arg : string) : string :=
  let argParts := Split arg ":" in
  if Nat.ltb 1 (List.length argParts) then
    let hostParts := Split (List.hd EmptyString argParts) "@" in
    if Nat.eqb (List.length hostParts) 2
    then List.nth 1 hostParts EmptyString
    else EmptyString
  else EmptyString.

(** How the parsing of [findTargetInstanceID] ends. *)
Inductive parsed : Type :=
| Hostname (hostname : string)
| NoHostname          (* "could not identify target hostname in SCP arguments" *)
| IndexOutOfRange.    (* the panic of parts[len(parts)-2] *)

(** The parsing of [findTargetInstanceID], up to the lookup of the
    hostname. *)
Definition scp_hostname (scpArgs : string) : parsed :=
  let parts := Split scpArgs " " in
  if Nat.ltb (List.length parts) 2 then IndexOutOfRange
  else
    let dst := List.nth (List.length parts - 1) parts EmptyString in
    let src := List.nth (List.length parts - 2) parts EmptyString in
    let hostname := host_in dst in
    let hostname :=
      if String.eqb hostname EmptyString then host_in src else hostname in
    if String.eqb hostname EmptyString then NoHostname else Hostname hostname.

End Args.

(** ** The port prompts: [AskPorts] of internal/ssm.go and
    [GetPortConfiguration] of the port-forwarding command *)

Module Ports.

Local Open Scope string_scope.
Local Open Scope list_scope.

Record Port : Type := mkPort {
  Remote : string;
  Local_ : string                   (* the field Local *)
}.

(** A decimal digit. *)
Definition is_digit (c : ascii) : bool :=
  Nat.leb 48 (nat_of_ascii c) && Nat.leb (nat_of_ascii c) 57.

(** The value of a string of digits, after [acc]. *)
Fixpoint digits (acc : Z) (s : string) : option Z :=
  match s with
  | EmptyString => Some acc
  | String c rest =>
      if is_digit c
      then digits (10 * acc + (Z.of_nat (nat_of_ascii c) - 48)) rest
      else None
  end.

(** [strconv.Atoi] with [int] of 64 bits: an optional sign, then at
    least one digit and only digits, and a value that fits; [None] is
    its error. *)
Definition Atoi (s : string) : option Z :=
  let signed :=
    match s with
    | String c rest =>
        if Ascii.eqb c "-" then (true, rest)
        else if Ascii.eqb c "+" then (false, rest)
        else (false, s)
    | EmptyString => (false, s)
    end in
  match snd signed with
  | EmptyString => None
  | body =>
      match digits 0 body with
      | None => None
      | Some v =>
          let n := if fst signed then (- v)%Z else v in
          if ((- 2 ^ 63 <=? n) && (n <=? 2 ^ 63 - 1))%Z then Some n else None
      end
  end.

(** The errors of [AskPorts] and [GetPortConfiguration]. *)
Inductive port_error : Type :=
| AskFailed (err : goerror)         (* WrapError(err) of the prompt's error *)
| InvalidPort                       (* "you must specify a valid port number" *)
| NoConfiguration (cause : port_error).
                                    (* "failed to get port configuration: %w" *)

Section Trim.

(** [strings.TrimSpace], of the Go library: a parameter. *)
Variable TrimSpace : string -> string.

(** [AskPorts]; [answers] is what [survey.Ask] stores in the port, remote
    first, or its error. *)
Definition AskPorts (answers : error + (string * string)) : port_error + Port :=
  match answers with
  | inl err =>
      inl (AskFailed
             (Proxy.WrapError "github.com/ottramst/gossm/internal.AskPorts" 237
                (Some err)))
  | inr (remote, local) =>
      let remote := TrimSpace remote in
      match Atoi remote with
      | None => inl InvalidPort
      | Some _ =>
          let local := TrimSpace local in
          let local := if String.eqb local EmptyString then remote else local in
          if Nat.ltb 5 (String.length remote) || Nat.ltb 5 (String.length local)
          then inl InvalidPort
          else inr {| Remote := remote; Local_ := local |}
      end
  end.

(** [GetPortConfiguration]; the flags are given as they are set, and
    the result is the local port, then the remote port. *)
Definition GetPortConfiguration (remoteFlag localFlag : string)
    (answers : error + (string * string)) : port_error + (string * string) :=
  let remotePort := TrimSpace remoteFlag in
  let localPort := TrimSpace localFlag in
  if String.eqb remotePort EmptyString then
    match AskPorts answers with
    | inl err => inl (NoConfiguration err)
    | inr ports => inr (Local_ ports, Remote ports)
    end
  else if String.eqb localPort EmptyString then inr (remotePort, remotePort)
  else inr (localPort, remotePort).

End Trim.

End Ports.

(** * Properties of the escape scanner *)

Section EscapeScanner.

Import Escape.

Lemma byte_eqb_eq (a b : byte) : Byte.eqb a b = true <-> a = b.
Proof.
  split; [apply Byte.byte_dec_bl | apply Byte.byte_dec_lb].
Qed.

Lemma is_newline_spec (b : byte) : is_newline b = true <-> b = CR \/ b = LF.
Proof.
  unfold is_newline. rewrite orb_true_iff, !byte_eqb_eq. tauto.
Qed.

(** The three ways one turn of the loop can go. *)
Lemma scan_byte_cases (s : scanner) (b : byte) :
  (lastWasNewline s = true /\ b = tilde /\
   scan_byte s b = (Suppress, {| lastWasNewline := false; tildeSeen := true |}))
  \/ (lastWasNewline s && Byte.eqb b tilde = false /\ tildeSeen s = true /\
      b = dot /\ scan_byte s b = (EscapeTriggered, s))
  \/ (lastWasNewline s && Byte.eqb b tilde = false /\ tildeSeen s = true /\
      b <> dot /\
      scan_byte s b = (Forward [tilde; b],
                       {| lastWasNewline := is_newline b; tildeSeen := false |}))
  \/ (lastWasNewline s && Byte.eqb b tilde = false /\ tildeSeen s = false /\
      scan_byte s b = (Forward [b],
                       {| lastWasNewline := is_newline b; tildeSeen := false |})).
Proof.
  unfold scan_byte.
  destruct (lastWasNewline s && Byte.eqb b tilde) eqn:Harm.
  - left. apply andb_true_iff in Harm as [Hl Hb].
    apply byte_eqb_eq in Hb. auto.
  - right. destruct (tildeSeen s) eqn:Ht.
    + destruct (Byte.eqb b dot) eqn:Hd.
      * left. apply byte_eqb_eq in Hd. auto.
      * right; left. apply Byte.eqb_false in Hd. auto.
    + right; right. auto.
Qed.

Lemma scan_byte_exclusive (s : scanner) (b : byte) :
  exclusive s -> exclusive (snd (scan_byte s b)).
Proof.
  intros Hs.
  destruct (scan_byte_cases s b)
    as [(_ & _ & E) | [(_ & _ & _ & E) | [(_ & _ & _ & E) | (_ & _ & E)]]];
    rewrite E; unfold exclusive; simpl; auto; discriminate.
Qed.

Lemma reachable_exclusive (s : scanner) : reachable s -> exclusive s.
Proof.
  induction 1 as [| s b _ IH].
  - unfold exclusive; simpl; discriminate.
  - now apply scan_byte_exclusive.
Qed.

Lemma line_start_after_cons (a : bool) (x : byte) (pre : list byte) :
  line_start_after a (x :: pre) = line_start_after (is_newline x) pre.
Proof.
  unfold line_start_after. simpl.
  destruct (rev pre) as [| y l]; reflexivity.
Qed.

Lemma forwarded_wrote (chunk : list byte) (r : run) :
  forwarded (wrote chunk r) = chunk ++ forwarded r.
Proof. reflexivity. Qed.

Lemma copy_reads_cons (s : scanner) (b : byte) (bs : list byte) :
  copyWithEscapeDetection s (reads (b :: bs)) =
  match scan_byte s b with
  | (Suppress, s') => copyWithEscapeDetection s' (reads bs)
  | (Forward chunk, s') => wrote chunk (copyWithEscapeDetection s' (reads bs))
  | (EscapeTriggered, s') => stop s' true (Returned None)
  end.
Proof. reflexivity. Qed.

(** Without an escape, the loop over bytes is still reading, and what
    it has forwarded and what it holds back make up its input. *)
Lemma no_escape_conserves (bs : list byte) :
  forall s, exclusive s ->
    escapeDetected (copyWithEscapeDetection s (reads bs)) = false ->
    held s ++ bs =
      forwarded (copyWithEscapeDetection s (reads bs))
      ++ held (final (copyWithEscapeDetection s (reads bs)))
    /\ result (copyWithEscapeDetection s (reads bs)) = Reading.
Proof.
  induction bs as [| b bs IH]; intros s Hs.
  - intros _. cbn. now rewrite app_nil_r.
  - pose proof (scan_byte_exclusive s b Hs) as Hs'.
    rewrite copy_reads_cons.
    destruct (scan_byte_cases s b)
      as [(Hl & Hb & E) | [(_ & _ & _ & E) | [(_ & Ht & _ & E) | (_ & Ht & E)]]];
      rewrite E in *; cbn [snd] in Hs'.
    + intros Hesc. destruct (IH _ Hs' Hesc) as [Hc Hr]. split; [| exact Hr].
      rewrite <- Hc. subst b. unfold held at 1 2. cbn [tildeSeen].
      destruct (tildeSeen s) eqn:Ht; [| reflexivity].
      rewrite (Hs Ht) in Hl. discriminate.
    + cbn. discriminate.
    + intros Hesc. destruct (IH _ Hs' Hesc) as [Hc Hr]. split; [| exact Hr].
      rewrite forwarded_wrote. unfold held at 1. rewrite Ht.
      cbn [final wrote]. rewrite <- app_assoc, <- Hc. reflexivity.
    + intros Hesc. destruct (IH _ Hs' Hesc) as [Hc Hr]. split; [| exact Hr].
      rewrite forwarded_wrote. unfold held at 1. rewrite Ht.
      cbn [final wrote]. rewrite <- app_assoc, <- Hc. reflexivity.
Qed.

(** With an escape, the input splits at a [~.] that stands at a line
    start, and exactly the bytes before it were forwarded. *)
Lemma escape_splits (bs : list byte) :
  forall s, exclusive s ->
    escapeDetected (copyWithEscapeDetection s (reads bs)) = true ->
    exists pre post,
      held s ++ bs = pre ++ [tilde; dot] ++ post
      /\ forwarded (copyWithEscapeDetection s (reads bs)) = pre
      /\ line_start_after (lastWasNewline s || tildeSeen s) pre = true
      /\ result (copyWithEscapeDetection s (reads bs)) = Returned None.
Proof.
  induction bs as [| b bs IH]; intros s Hs.
  - cbn. discriminate.
  - pose proof (scan_byte_exclusive s b Hs) as Hs'.
    rewrite copy_reads_cons.
    destruct (scan_byte_cases s b)
      as [(Hl & Hb & E) | [(_ & Ht & Hb & E) | [(_ & Ht & _ & E) | (_ & Ht & E)]]];
      rewrite E in *; cbn [snd] in Hs'.
    + intros Hesc. destruct (IH _ Hs' Hesc) as (pre & post & Hsplit & Hf & Hls & Hr).
      exists pre, post. repeat split; auto.
      * rewrite <- Hsplit. subst b. unfold held. cbn [tildeSeen].
        destruct (tildeSeen s) eqn:Ht; [| reflexivity].
        rewrite (Hs Ht) in Hl. discriminate.
      * rewrite Hl. exact Hls.
    + intros _. exists [], bs. subst b. unfold held. rewrite Ht.
      repeat split. unfold line_start_after. cbn. apply orb_true_r.
    + intros Hesc.
      destruct (IH _ Hs' Hesc) as (pre & post & Hsplit & Hf & Hls & Hr).
      exists (tilde :: b :: pre), post. unfold held in *. rewrite Ht.
      cbn [tildeSeen lastWasNewline] in *.
      repeat split; auto.
      * cbn in *. now rewrite Hsplit.
      * rewrite forwarded_wrote, Hf. reflexivity.
      * rewrite !line_start_after_cons. rewrite orb_false_r in Hls. exact Hls.
    + intros Hesc.
      destruct (IH _ Hs' Hesc) as (pre & post & Hsplit & Hf & Hls & Hr).
      exists (b :: pre), post. unfold held in *. rewrite Ht.
      cbn [tildeSeen lastWasNewline] in *.
      repeat split; auto.
      * cbn in *. now rewrite Hsplit.
      * rewrite forwarded_wrote, Hf. reflexivity.
      * rewrite line_start_after_cons. rewrite orb_false_r in Hls. exact Hls.
Qed.

(** A disarmed scanner that meets no [~] at a line start writes every
    byte, one write per byte. *)
Lemma plain_bytes_pass (bs : list byte) :
  forall s, tildeSeen s = false ->
    tilde_at_line_start (lastWasNewline s) bs = false ->
    writes (copyWithEscapeDetection s (reads bs)) = map (fun b => [b]) bs
    /\ escapeDetected (copyWithEscapeDetection s (reads bs)) = false
    /\ result (copyWithEscapeDetection s (reads bs)) = Reading
    /\ tildeSeen (final (copyWithEscapeDetection s (reads bs))) = false
    /\ lastWasNewline (final (copyWithEscapeDetection s (reads bs)))
       = line_start_after (lastWasNewline s) bs.
Proof.
  induction bs as [| b bs IH]; intros s Ht Hno.
  - cbn. auto.
  - cbn [tilde_at_line_start] in Hno. apply orb_false_iff in Hno as [Harm Hrest].
    rewrite copy_reads_cons.
    destruct (scan_byte_cases s b)
      as [(Hl & Hb & _) | [(_ & Ht' & _) | [(_ & Ht' & _) | (_ & _ & E)]]];
      try congruence.
    + subst b. rewrite Hl in Harm. discriminate.
    + rewrite E.
      destruct (IH {| lastWasNewline := is_newline b; tildeSeen := false |}
                  eq_refl Hrest) as (Hw & He & Hr & Hf & Hl).
      cbn [writes escapeDetected result final wrote lastWasNewline] in *.
      rewrite Hw, line_start_after_cons. cbn [map]. auto.
Qed.

Lemma concat_singletons (bs : list byte) :
  List.concat (map (fun b => [b]) bs) = bs.
Proof.
  induction bs as [| b bs IH]; cbn; [reflexivity | now rewrite IH].
Qed.

(** A [~.] at a line start does trigger the escape: the first such
    pair ends the loop, whatever follows. *)
Lemma tilde_dot_at_line_start_escapes (pre post : list byte) :
  forall s, exclusive s ->
    line_start_after (lastWasNewline s) pre = true ->
    escapeDetected
      (copyWithEscapeDetection s (reads (pre ++ [tilde; dot] ++ post))) = true.
Proof.
  induction pre as [| b pre IH]; intros s Hs Hstart.
  - unfold line_start_after in Hstart. cbn in Hstart.
    cbn [app]. rewrite copy_reads_cons.
    unfold scan_byte at 1. rewrite Hstart. cbn [andb].
    change (Byte.eqb tilde tilde) with true. cbv iota.
    rewrite copy_reads_cons. reflexivity.
  - rewrite line_start_after_cons in Hstart.
    pose proof (scan_byte_exclusive s b Hs) as Hs'.
    cbn [app]. rewrite copy_reads_cons.
    destruct (scan_byte_cases s b)
      as [(Hl & Hb & E) | [(_ & _ & _ & E) | [(_ & _ & _ & E) | (_ & _ & E)]]];
      rewrite E in *; cbn [snd] in Hs'.
    + subst b. apply (IH _ Hs'). exact Hstart.
    + reflexivity.
    + apply (IH _ Hs'). exact Hstart.
    + apply (IH _ Hs'). exact Hstart.
Qed.

(** The escape is triggered exactly by the streams that hold [~.] at a
    line start. *)
Lemma escape_iff_tilde_dot_at_line_start (bs : list byte) :
  escapeDetected (feed bs) = true
  <-> exists pre post,
        bs = pre ++ [tilde; dot] ++ post /\ line_start_after true pre = true.
Proof.
  split.
  - intros Hesc.
    destruct (escape_splits bs initial (reachable_exclusive _ reach_initial) Hesc)
      as (pre & post & Hsplit & _ & Hls & _).
    exists pre, post. auto.
  - intros (pre & post & -> & Hls).
    apply (tilde_dot_at_line_start_escapes pre post initial);
      [apply reachable_exclusive, reach_initial | exact Hls].
Qed.

(** The loop over a stream that is then cut by the environment: what was
    read without escape is written first, and the loop goes on from the
    state it reached. *)
Lemma copy_reads_app (bs : list byte) (its : list iteration) :
  forall s,
    escapeDetected (copyWithEscapeDetection s (reads bs)) = false ->
    writes (copyWithEscapeDetection s (reads bs ++ its))
    = writes (copyWithEscapeDetection s (reads bs))
      ++ writes (copyWithEscapeDetection
                   (final (copyWithEscapeDetection s (reads bs))) its)
    /\ result (copyWithEscapeDetection s (reads bs ++ its))
       = result (copyWithEscapeDetection
                   (final (copyWithEscapeDetection s (reads bs))) its)
    /\ escapeDetected (copyWithEscapeDetection s (reads bs ++ its))
       = escapeDetected (copyWithEscapeDetection
                           (final (copyWithEscapeDetection s (reads bs))) its).
Proof.
  induction bs as [| b bs IH]; intros s.
  - cbn. auto.
  - change (reads (b :: bs) ++ its)
      with (Read (ReadByte b) :: (reads bs ++ its)).
    rewrite copy_reads_cons. cbn [copyWithEscapeDetection].
    destruct (scan_byte s b) as [[| chunk |] s'].
    + apply IH.
    + cbn [escapeDetected wrote writes result final]. intros Hesc.
      destruct (IH s' Hesc) as (Hw & Hr & He). rewrite Hw. auto.
    + cbn. discriminate.
Qed.

(** A stream with no [~] at a line start that ends with EOF: every byte
    is written and the loop returns nil. *)
Lemma plain_stream_then_eof (bs : list byte) :
  tilde_at_line_start true bs = false ->
  forwarded (copyWithEscapeDetection initial (reads bs ++ [Read (ReadErr EOF)]))
  = bs
  /\ result (copyWithEscapeDetection initial (reads bs ++ [Read (ReadErr EOF)]))
     = Returned None.
Proof.
  intros Hno.
  destruct (plain_bytes_pass bs initial eq_refl Hno) as (Hw & He & _).
  destruct (copy_reads_app bs [Read (ReadErr EOF)] initial He) as (Hw' & Hr' & _).
  unfold forwarded. rewrite Hw', Hr', Hw. cbn.
  rewrite app_nil_r, concat_singletons. auto.
Qed.

(** C2, as the code has it.  (1) When the scanner, fed any byte stream
    from its initial state, triggers the escape, the stream holds the
    two bytes [~] [.] with the [~] at a line start (first byte of the
    stream, or right after a CR or LF), and what was forwarded is
    exactly the bytes before them.  (2) An armed scanner that reads a
    byte other than [.] writes the tilde and that byte in one write and
    is disarmed.  (3) On newline, [~], [.] the newline itself is
    forwarded, then the escape is triggered, and neither the [~] nor
    the [.] is forwarded. *)
Theorem escape_only_on_tilde_dot_at_line_start :
  (forall bs : list byte,
      escapeDetected (feed bs) = true ->
      exists pre post,
        bs = pre ++ [tilde; dot] ++ post
        /\ line_start_after true pre = true
        /\ forwarded (feed bs) = pre
        /\ result (feed bs) = Returned None)
  /\ (forall (s : scanner) (b : byte),
         reachable s -> tildeSeen s = true -> b <> dot ->
         scan_byte s b =
         (Forward [tilde; b],
          {| lastWasNewline := is_newline b; tildeSeen := false |}))
  /\ (escapeDetected (feed [LF; tilde; dot]) = true
      /\ writes (feed [LF; tilde; dot]) = [[LF]]).
Proof.
  split; [| split].
  - intros bs Hesc.
    destruct (escape_splits bs initial (reachable_exclusive _ reach_initial) Hesc)
      as (pre & post & Hsplit & Hf & Hls & Hr).
    exists pre, post. auto.
  - intros s b Hreach Ht Hb.
    pose proof (reachable_exclusive s Hreach Ht) as Hl.
    destruct (scan_byte_cases s b)
      as [(Hl' & _) | [(_ & _ & Hb' & _) | [(_ & _ & _ & E) | (_ & Ht' & _)]]];
      congruence.
  - split; reflexivity.
Qed.

Lemma escape_only_on_tilde_dot_at_line_start_witness :
  (escapeDetected (feed [x61; CR; tilde; dot; x62]) = true
   /\ exists pre post,
       [x61; CR; tilde; dot; x62] = pre ++ [tilde; dot] ++ post
       /\ line_start_after true pre = true
       /\ forwarded (feed [x61; CR; tilde; dot; x62]) = pre
       /\ result (feed [x61; CR; tilde; dot; x62]) = Returned None)
  /\ (reachable (snd (scan_byte initial tilde))
      /\ tildeSeen (snd (scan_byte initial tilde)) = true
      /\ x2f <> dot
      /\ scan_byte (snd (scan_byte initial tilde)) x2f =
         (Forward [tilde; x2f],
          {| lastWasNewline := is_newline x2f; tildeSeen := false |})).
Proof.
  split.
  - split; [reflexivity |].
    apply (proj1 escape_only_on_tilde_dot_at_line_start). reflexivity.
  - split; [apply reach_step, reach_initial |].
    split; [reflexivity |].
    split; [discriminate |].
    apply (proj1 (proj2 escape_only_on_tilde_dot_at_line_start)).
    + apply reach_step, reach_initial.
    + reflexivity.
    + discriminate.
Defined.

(** C2 as stated fails in its last part: on newline, [~], [.] the
    scanner does forward a byte of the sequence, the newline. *)
Lemma newline_tilde_dot_forwards_newline :
  ~ (escapeDetected (feed [LF; tilde; dot]) = true
     /\ forwarded (feed [LF; tilde; dot]) = []).
Proof.
  intros [_ H]. vm_compute in H. discriminate.
Qed.

(** C3.  A byte stream with no [~] at a line start (first byte, or
    right after a CR or LF) is forwarded whole and in order, one write
    per byte, nothing is held back, and the escape is never triggered:
    the scanner is left reading. *)
Theorem plain_stream_forwarded_unchanged (bs : list byte) :
  tilde_at_line_start true bs = false ->
  forwarded (feed bs) = bs
  /\ writes (feed bs) = map (fun b => [b]) bs
  /\ held (final (feed bs)) = []
  /\ escapeDetected (feed bs) = false
  /\ result (feed bs) = Reading.
Proof.
  intros Hno.
  destruct (plain_bytes_pass bs initial eq_refl Hno) as (Hw & He & Hr & Hf & _).
  fold (reads bs) in *.
  unfold feed, forwarded. fold (reads bs).
  rewrite Hw, He, Hr. unfold held. rewrite Hf.
  rewrite concat_singletons. auto.
Qed.

Lemma plain_stream_forwarded_unchanged_witness :
  tilde_at_line_start true [x6c; x73; x20; tilde; x2f; tilde; dot; LF; x61; tilde; dot] = false
  /\ forwarded (feed [x6c; x73; x20; tilde; x2f; tilde; dot; LF; x61; tilde; dot])
     = [x6c; x73; x20; tilde; x2f; tilde; dot; LF; x61; tilde; dot].
Proof.
  split; [reflexivity |].
  apply (plain_stream_forwarded_unchanged
           [x6c; x73; x20; tilde; x2f; tilde; dot; LF; x61; tilde; dot]).
  reflexivity.
Defined.

(** C10.  In every state the loop variables can reach, [tildeSeen] and
    [lastWasNewline] are not both true.  Arming happens on a [~] at a
    line start, sets [tildeSeen] and clears [lastWasNewline], and the
    turn after it never arms again; every turn that writes leaves the
    scanner disarmed with [lastWasNewline] true exactly when the byte
    is CR or LF; the escape needs an armed scanner and a [.].  On [~~]
    at the start of the stream both tildes are forwarded in one write
    and the scanner is left disarmed, not at a line start. *)
Theorem armed_and_line_start_exclusive (s : scanner) (b b' : byte) :
  reachable s ->
  tildeSeen s && lastWasNewline s = false
  /\ match scan_byte s b with
     | (Suppress, s') =>
         b = tilde /\ lastWasNewline s = true
         /\ tildeSeen s' = true /\ lastWasNewline s' = false
         /\ fst (scan_byte s' b') <> Suppress
     | (Forward chunk, s') =>
         chunk = held s ++ [b]
         /\ tildeSeen s' = false
         /\ (lastWasNewline s' = true <-> b = CR \/ b = LF)
     | (EscapeTriggered, s') =>
         s' = s /\ b = dot /\ tildeSeen s = true
     end
  /\ writes (feed [tilde; tilde]) = [[tilde; tilde]]
  /\ final (feed [tilde; tilde]) = {| lastWasNewline := false; tildeSeen := false |}.
Proof.
  intros Hreach. pose proof (reachable_exclusive s Hreach) as Hex.
  split; [| split; [| split; reflexivity]].
  - destruct (tildeSeen s) eqn:Ht; [| reflexivity].
    now rewrite (Hex Ht).
  - destruct (scan_byte_cases s b)
      as [(Hl & Hb & E) | [(_ & Ht & Hb & E) | [(_ & Ht & _ & E) | (_ & Ht & E)]]];
      rewrite E.
    + repeat split; auto.
      unfold scan_byte. cbn [lastWasNewline tildeSeen andb].
      destruct (Byte.eqb b' dot); cbn; discriminate.
    + auto.
    + unfold held. rewrite Ht. cbn [lastWasNewline tildeSeen].
      repeat split; auto; apply is_newline_spec.
    + unfold held. rewrite Ht. cbn [lastWasNewline tildeSeen].
      repeat split; auto; apply is_newline_spec.
Qed.

Lemma armed_and_line_start_exclusive_witness :
  reachable (snd (scan_byte (snd (scan_byte initial LF)) tilde))
  /\ tildeSeen (snd (scan_byte (snd (scan_byte initial LF)) tilde))
     && lastWasNewline (snd (scan_byte (snd (scan_byte initial LF)) tilde))
     = false.
Proof.
  split; [apply reach_step, reach_step, reach_initial |].
  apply (armed_and_line_start_exclusive
           (snd (scan_byte (snd (scan_byte initial LF)) tilde)) tilde tilde).
  apply reach_step, reach_step, reach_initial.
Defined.

End EscapeScanner.

(** * Properties of the process proxy *)

Section ProcessProxy.

Import Proxy.
Local Open Scope string_scope.
Local Open Scope list_scope.

Variable Error : error -> string.

Lemma final_mode_app (m : term_state) (a b : list event) :
  final_mode m (a ++ b) = final_mode (final_mode m a) b.
Proof. apply fold_left_app. Qed.

(** The line break of the detached goroutine does not touch the mode. *)
Lemma final_mode_delayed_newline (m : term_state) (k : nat) (tr : list event) :
  final_mode m (with_delayed_newline k tr) = final_mode m tr.
Proof.
  unfold with_delayed_newline.
  destruct (Nat.leb k (List.length tr)); [| reflexivity].
  rewrite final_mode_app. cbn.
  rewrite <- (firstn_skipn k tr) at 3.
  now rewrite final_mode_app.
Qed.

Lemma final_mode_ends_with_restore (m old : term_state) (tr : list event) :
  final_mode m (tr ++ [Restore old]) = old.
Proof. now rewrite final_mode_app. Qed.

(** Once raw mode is entered, the call is the common prefix followed by
    [interactive]. *)
Lemma raw_mode_call (e : env) :
  enters_raw_mode e = true ->
  CallProcessWithSimpleEscape Error e =
  ([IsTerminal; Command; Bind Stderr; Bind Stdout; StdinPipe; Start;
    MakeRaw; Go DelayedNewline; Go CopyStdin; Notify [SIGINT; SIGTERM];
    Go CmdWait] ++ exit_path Error (prior e) (race e) (victim e),
   snd (select_case Error (prior e) (race e) (victim e))).
Proof.
  unfold enters_raw_mode, CallProcessWithSimpleEscape, interactive, exit_path.
  destruct (stdin_is_terminal e); [| discriminate].
  destruct (stdin_pipe e); [discriminate |].
  destruct (start e); [discriminate |].
  destruct (make_raw e); [discriminate |].
  intros _. cbn [negb andb].
  destruct (select_case Error (prior e) (race e) (victim e)) as [tr err].
  reflexivity.
Qed.

Lemma terminateGracefully_no_restore (c : child) :
  filter is_restore (fst (terminateGracefully Error c)) = [].
Proof.
  unfold terminateGracefully.
  destruct (sigterm c); [reflexivity |].
  destruct (exits_in_grace c).
  - destruct (reportable Error (wait_result c)); reflexivity.
  - destruct (kill c); reflexivity.
Qed.

(** On the escape path [term.Restore] runs twice: before the
    announcement, and again as the deferred call. *)
Lemma escape_path_restores_twice (old : term_state) (c : child) :
  restores (exit_path Error old EscapeSeen c) = 2.
Proof.
  unfold restores, exit_path, select_case.
  pose proof (terminateGracefully_no_restore c) as Hnone.
  destruct (terminateGracefully Error c) as [tr err]. cbn [fst] in *.
  rewrite !filter_app, Hnone. reflexivity.
Qed.

End ProcessProxy.

Section ProxyClaims.

Import Proxy.
Local Open Scope string_scope.
Local Open Scope list_scope.

(** C1, as the code has it.  Once raw mode is entered, on every exit
    path (process exit, escape, signal, error of the forwarding loop)
    the last thing the call does is [term.Restore] with the mode
    remembered by [term.MakeRaw], so the terminal is back in that mode
    when the call returns, wherever the detached line break falls.  On
    the escape, signal and forwarding-error paths the calling goroutine
    prints nothing before that restoration; on the process-exit path it
    prints the line break first and restores afterwards. *)
Theorem terminal_restored_on_every_exit_path
    (Error : error -> string) (e : env) (k : nat) :
  enters_raw_mode e = true ->
  final_mode (prior e)
    (with_delayed_newline k (fst (CallProcessWithSimpleEscape Error e)))
  = prior e
  /\ (exists tr,
        fst (CallProcessWithSimpleEscape Error e) = tr ++ [Restore (prior e)]
        /\ In MakeRaw tr)
  /\ match race e with
     | ProcessExit _ =>
         before_restore (exit_path Error (prior e) (race e) (victim e))
         = [Cancel; Print [(Plain, crlf)]; StopNotify; Cancel]
     | _ =>
         restore_before_prints (exit_path Error (prior e) (race e) (victim e))
         = true
     end.
Proof.
  intros Hraw.
  assert (Hend : exists tr,
             fst (CallProcessWithSimpleEscape Error e) = tr ++ [Restore (prior e)]
             /\ In MakeRaw tr).
  { rewrite (raw_mode_call Error e Hraw). cbn [fst].
    unfold exit_path, deferred.
    exists ([IsTerminal; Command; Bind Stderr; Bind Stdout; StdinPipe; Start;
             MakeRaw; Go DelayedNewline; Go CopyStdin;
             Notify [SIGINT; SIGTERM]; Go CmdWait]
            ++ fst (select_case Error (prior e) (race e) (victim e))
            ++ [StopNotify; Cancel]).
    split.
    - rewrite <- !app_assoc. reflexivity.
    - apply in_or_app. left. cbn. tauto. }
  split; [| split; [exact Hend |]].
  - rewrite final_mode_delayed_newline.
    destruct Hend as (tr & -> & _). apply final_mode_ends_with_restore.
  - unfold exit_path, select_case.
    destruct (race e) as [err | | sig | err]; try reflexivity.
    destruct (terminateGracefully Error (victim e)) as [tr err]. reflexivity.
Qed.

Lemma terminal_restored_on_every_exit_path_witness :
  enters_raw_mode (session EscapeSeen stubborn_child) = true
  /\ final_mode (Snapshot 0)
       (with_delayed_newline 9
          (fst (CallProcessWithSimpleEscape os_text
                  (session EscapeSeen stubborn_child))))
     = Snapshot 0.
Proof.
  split; [reflexivity |].
  apply (terminal_restored_on_every_exit_path os_text
           (session EscapeSeen stubborn_child) 9).
  reflexivity.
Defined.

(** C1 as stated fails on the process-exit path: the call gets to the
    select, the child exits with status 7, and the line break is
    printed while the terminal is still raw, before [term.Restore]. *)
Lemma process_exit_prints_before_restore :
  enters_raw_mode (session (ProcessExit (Some (ExitError 7))) prompt_child) = true
  /\ restore_before_prints
       (exit_path os_text (Snapshot 0)
          (ProcessExit (Some (ExitError 7))) prompt_child) = false
  /\ final_mode (Snapshot 0)
       [IsTerminal; Command; Bind Stderr; Bind Stdout; StdinPipe; Start;
        MakeRaw; Go DelayedNewline; Go CopyStdin; Notify [SIGINT; SIGTERM];
        Go CmdWait; Cancel; Print [(Plain, crlf)]] = RawMode
  /\ firstn 13 (fst (CallProcessWithSimpleEscape os_text
                       (session (ProcessExit (Some (ExitError 7))) prompt_child)))
     = [IsTerminal; Command; Bind Stderr; Bind Stdout; StdinPipe; Start;
        MakeRaw; Go DelayedNewline; Go CopyStdin; Notify [SIGINT; SIGTERM];
        Go CmdWait; Cancel; Print [(Plain, crlf)]].
Proof. repeat split. Qed.

(** C4.  When the call has reached the select and the child's exit is
    what the select picks, with [err] the result of [cmd.Wait()], the
    call returns exactly [err], [term.Restore] runs exactly once, and
    the terminal is left in the mode it had before the call. *)
Theorem process_exit_returns_exit_error
    (Error : error -> string) (e : env) (err : goerror) :
  enters_raw_mode e = true ->
  race e = ProcessExit err ->
  snd (CallProcessWithSimpleEscape Error e) = err
  /\ restores (fst (CallProcessWithSimpleEscape Error e)) = 1
  /\ final_mode (prior e) (fst (CallProcessWithSimpleEscape Error e)) = prior e.
Proof.
  intros Hraw Hrace.
  rewrite (raw_mode_call Error e Hraw). unfold exit_path. rewrite Hrace.
  repeat split.
Qed.

Lemma process_exit_returns_exit_error_witness :
  enters_raw_mode (session (ProcessExit (Some (ExitError 7))) stubborn_child) = true
  /\ snd (CallProcessWithSimpleEscape os_text
            (session (ProcessExit (Some (ExitError 7))) stubborn_child))
     = Some (ExitError 7)
  /\ restores (fst (CallProcessWithSimpleEscape os_text
                      (session (ProcessExit (Some (ExitError 7))) stubborn_child)))
     = 1.
Proof.
  split; [reflexivity |].
  pose proof (process_exit_returns_exit_error os_text
                (session (ProcessExit (Some (ExitError 7))) stubborn_child)
                (Some (ExitError 7)) eq_refl eq_refl) as H.
  split; apply H.
Defined.

(** C6.  When the call has reached the select and a signal is what the
    select picks, the calling goroutine cancels the context of the
    forwarding loop and closes the child's input, sends that same
    signal to the child, waits on [processDone] until the child is
    gone, runs the deferred calls and returns nil, whatever the child
    and the other inputs are; the forwarding loop, at its next turn
    after the cancellation, returns without writing. *)
Theorem signal_is_forwarded_and_awaited
    (Error : error -> string) (e : env) (sig : signal) :
  enters_raw_mode e = true ->
  race e = SignalReceived sig ->
  exit_path Error (prior e) (race e) (victim e)
  = [Cancel; ClosePipe; Signal sig; Receive processDone;
     StopNotify; Cancel; Restore (prior e)]
  /\ (exists tr, fst (CallProcessWithSimpleEscape Error e)
                 = tr ++ exit_path Error (prior e) (race e) (victim e))
  /\ snd (CallProcessWithSimpleEscape Error e) = None
  /\ (forall s its,
         Escape.copyWithEscapeDetection s (Escape.CtxDone :: its)
         = Escape.stop s false (Escape.Returned None)).
Proof.
  intros Hraw Hrace.
  rewrite (raw_mode_call Error e Hraw). cbn [fst snd].
  split; [| split; [| split]].
  - unfold exit_path. rewrite Hrace. reflexivity.
  - eexists. reflexivity.
  - rewrite Hrace. reflexivity.
  - reflexivity.
Qed.

Lemma signal_is_forwarded_and_awaited_witness :
  enters_raw_mode (session (SignalReceived SIGINT) stubborn_child) = true
  /\ snd (CallProcessWithSimpleEscape os_text
            (session (SignalReceived SIGINT) stubborn_child)) = None.
Proof.
  split; [reflexivity |].
  apply (signal_is_forwarded_and_awaited os_text
           (session (SignalReceived SIGINT) stubborn_child) SIGINT);
    reflexivity.
Defined.

(** C7, as the code has it.  When standard input is not a terminal the
    call is [CallProcessDirect]: the command is built with standard
    error, output and input bound to the caller's, run and awaited by
    [cmd.Run()]; raw mode is never entered and the forwarding loop is
    never started.  The call returns nil when [cmd.Run()] does;
    otherwise it returns the error of [cmd.Run()] wrapped by
    [WrapError] with the frame of [CallProcessDirect], not the error
    itself. *)
Theorem no_terminal_runs_directly (Error : error -> string) (e : env) :
  stdin_is_terminal e = false ->
  fst (CallProcessWithSimpleEscape Error e)
  = [IsTerminal; Command; Bind Stderr; Bind Stdout; Bind Stdin;
     Notify [SIGINT]; Go IgnoreSigint; Run; CloseDone]
  /\ ~ In MakeRaw (fst (CallProcessWithSimpleEscape Error e))
  /\ ~ In (Go CopyStdin) (fst (CallProcessWithSimpleEscape Error e))
  /\ snd (CallProcessWithSimpleEscape Error e)
     = match direct_run e with
       | None => None
       | Some err => Some (Wrapped "internal.CallProcessDirect" 672 err)
       end.
Proof.
  intros Htty. unfold CallProcessWithSimpleEscape. rewrite Htty.
  cbn [negb CallProcessDirect fst snd].
  split; [reflexivity |].
  split; [| split].
  - cbn. intros H. repeat (destruct H as [H | H]; [discriminate |]). exact H.
  - cbn. intros H. repeat (destruct H as [H | H]; [discriminate |]). exact H.
  - destruct (direct_run e); reflexivity.
Qed.

Lemma no_terminal_runs_directly_witness :
  stdin_is_terminal (piped (Some (ExitError 7))) = false
  /\ snd (CallProcessWithSimpleEscape os_text (piped (Some (ExitError 7))))
     = Some (Wrapped "internal.CallProcessDirect" 672 (ExitError 7)).
Proof.
  split; [reflexivity |].
  apply (no_terminal_runs_directly os_text (piped (Some (ExitError 7)))).
  reflexivity.
Defined.

(** C7 as stated fails: with standard input not a terminal and a child
    that exits with status 7, what the call returns is not the error
    of [cmd.Run()]. *)
Lemma direct_run_error_is_wrapped :
  stdin_is_terminal (piped (Some (ExitError 7))) = false
  /\ direct_run (piped (Some (ExitError 7))) = Some (ExitError 7)
  /\ snd (CallProcessWithSimpleEscape os_text (piped (Some (ExitError 7))))
     <> Some (ExitError 7).
Proof.
  split; [reflexivity |]. split; [reflexivity |].
  vm_compute. discriminate.
Qed.

(** When the timer of the select wins: the child never exits by
    itself, or exits later than the grace period, or at the very instant
    the timer fires with the timer picked. *)
Lemma exits_in_grace_false (c : child) :
  exits_in_grace c = false
  <-> (forall t, exits_after c = Some t ->
         (gracePeriod < t)%Z \/ (t = gracePeriod /\ timer_first c = true)).
Proof.
  unfold exits_in_grace. destruct (exits_after c) as [t |].
  - split.
    + intros H t' Ht'. injection Ht' as <-.
      apply orb_false_iff in H. destruct H as [Hlt Htie].
      apply Z.ltb_ge in Hlt. apply andb_false_iff in Htie.
      destruct Htie as [Hne | Hfirst].
      * apply Z.eqb_neq in Hne. left. lia.
      * apply negb_false_iff in Hfirst.
        destruct (Z.eq_dec t gracePeriod) as [-> | Hne];
          [right; split; [reflexivity | exact Hfirst] | left; lia].
    + intros H. destruct (H t eq_refl) as [Hgt | [-> Hfirst]].
      * apply orb_false_iff. split; [apply Z.ltb_ge; lia |].
        apply andb_false_iff. left. apply Z.eqb_neq. lia.
      * rewrite Z.ltb_irrefl, Z.eqb_refl, Hfirst. reflexivity.
  - split; [intros _ t H; discriminate | reflexivity].
Qed.

Lemma exits_in_grace_true (c : child) (t : Z) :
  exits_after c = Some t ->
  (t < gracePeriod)%Z \/ (t = gracePeriod /\ timer_first c = false) ->
  exits_in_grace c = true.
Proof.
  intros Hexit H. unfold exits_in_grace. rewrite Hexit.
  destruct H as [Hlt | [-> Hfirst]].
  - apply Z.ltb_lt in Hlt. now rewrite Hlt.
  - rewrite Z.eqb_refl, Hfirst. apply orb_true_r.
Qed.

(** The forced path of [terminateGracefully]. *)
Lemma terminateGracefully_forced (Error : error -> string) (c : child) :
  sigterm c = None -> exits_in_grace c = false ->
  terminateGracefully Error c
  = ([Signal SIGTERM; Go ProcessWait; TimerFired gracePeriod;
      Print [(Yellow, "Graceful termination timed out, forcing exit...");
             (Plain, crlf)];
      Kill]
     ++ match kill c with
        | Some _ => []
        | None => [Receive done]
        end,
     None).
Proof.
  intros Hsig Hgrace. unfold terminateGracefully. now rewrite Hsig, Hgrace.
Qed.

(** The graceful path of [terminateGracefully]. *)
Lemma terminateGracefully_awaited (Error : error -> string) (c : child) :
  sigterm c = None -> exits_in_grace c = true ->
  firstn 3 (fst (terminateGracefully Error c))
  = [Signal SIGTERM; Go ProcessWait; Receive done]
  /\ ~ In Kill (fst (terminateGracefully Error c))
  /\ snd (terminateGracefully Error c)
     = (if reportable Error (wait_result c) then wait_result c else None).
Proof.
  intros Hsig Hgrace. unfold terminateGracefully. rewrite Hsig, Hgrace.
  destruct (reportable Error (wait_result c)); cbn;
    (split; [reflexivity | split; [| reflexivity]]);
    intros H; repeat (destruct H as [H | H]; [discriminate |]); exact H.
Qed.

(** [Process.Kill] is called on the forced path only. *)
Lemma kill_only_when_forced (Error : error -> string) (c : child) :
  In Kill (fst (terminateGracefully Error c)) ->
  sigterm c = None /\ exits_in_grace c = false.
Proof.
  destruct (sigterm c) as [err |] eqn:Hsig.
  { unfold terminateGracefully. rewrite Hsig. cbn.
    intros [H | []]. discriminate. }
  destruct (exits_in_grace c) eqn:Hgrace; [| intros _; now split].
  intros H.
  destruct (terminateGracefully_awaited Error c Hsig Hgrace) as (_ & Hno & _).
  contradiction.
Qed.

(** C5.  [terminateGracefully] first sends SIGTERM.  If that signal
    fails (the child is already gone) it returns nil at once.
    Otherwise it waits for the child against a timer of 3 seconds: a
    child that exits before the timer is awaited and never killed, and
    [Process.Kill] is only called after the timer of 3 seconds has
    fired, for a child that had not exited before 3 seconds; after the
    kill the function waits for the child to exit, unless the kill
    itself fails (the child is already gone), and in both cases it
    returns nil.  This is the result of the call when the escape is
    what the select picks.  The kill is not only allowed but made: a
    child that never exits by itself, or exits later than 3 seconds
    after SIGTERM, or at that very instant with the timer picked by the
    select, is killed after the timer has fired and the warning is
    printed, and these are the only children killed; a child that exits
    earlier, or at that instant with its exit picked, is awaited, not
    killed, and the error of its wait is returned unless it is one of
    the expected ones. *)
Theorem graceful_then_forced_termination
    (Error : error -> string) (c : child) :
  hd_error (fst (terminateGracefully Error c)) = Some (Signal SIGTERM)
  /\ gracePeriod = 3000000000%Z
  /\ (sigterm c <> None ->
      terminateGracefully Error c = ([Signal SIGTERM], None))
  /\ (In Kill (fst (terminateGracefully Error c)) ->
      sigterm c = None
      /\ (forall t, exits_after c = Some t -> (gracePeriod <= t)%Z)
      /\ (exists pre post,
            fst (terminateGracefully Error c) = pre ++ Kill :: post
            /\ In (TimerFired gracePeriod) pre
            /\ ~ In Kill pre
            /\ post = match kill c with
                      | None => [Receive done]
                      | Some _ => []
                      end)
      /\ snd (terminateGracefully Error c) = None)
  /\ (forall t,
        sigterm c = None -> exits_after c = Some t -> (t < gracePeriod)%Z ->
        ~ In Kill (fst (terminateGracefully Error c))
        /\ ~ In (TimerFired gracePeriod) (fst (terminateGracefully Error c))
        /\ In (Receive done) (fst (terminateGracefully Error c)))
  /\ (forall e : env,
        enters_raw_mode e = true -> race e = EscapeSeen -> victim e = c ->
        snd (CallProcessWithSimpleEscape Error e)
        = snd (terminateGracefully Error c))
  /\ (sigterm c = None ->
      (forall t, exits_after c = Some t ->
         (gracePeriod < t)%Z \/ (t = gracePeriod /\ timer_first c = true)) ->
      terminateGracefully Error c
      = ([Signal SIGTERM; Go ProcessWait; TimerFired gracePeriod;
          Print [(Yellow, "Graceful termination timed out, forcing exit...");
                 (Plain, crlf)];
          Kill]
         ++ match kill c with
            | Some _ => []
            | None => [Receive done]
            end,
         None))
  /\ (In Kill (fst (terminateGracefully Error c))
      <-> sigterm c = None
          /\ (forall t, exits_after c = Some t ->
                (gracePeriod < t)%Z
                \/ (t = gracePeriod /\ timer_first c = true)))
  /\ (forall t,
        sigterm c = None -> exits_after c = Some t ->
        (t < gracePeriod)%Z \/ (t = gracePeriod /\ timer_first c = false) ->
        firstn 3 (fst (terminateGracefully Error c))
        = [Signal SIGTERM; Go ProcessWait; Receive done]
        /\ ~ In Kill (fst (terminateGracefully Error c))
        /\ snd (terminateGracefully Error c)
           = (if reportable Error (wait_result c) then wait_result c
              else None)).
Proof.
  split; [| split; [reflexivity | split; [| split; [| split; [| split;
    [| split; [| split]]]]]]].
  - unfold terminateGracefully.
    destruct (sigterm c); [reflexivity |].
    destruct (exits_in_grace c); [| reflexivity].
    destruct (reportable Error (wait_result c)); reflexivity.
  - unfold terminateGracefully. destruct (sigterm c); [reflexivity | congruence].
  - intros Hkill.
    destruct (kill_only_when_forced Error c Hkill) as [Hsig Hgrace].
    rewrite (terminateGracefully_forced Error c Hsig Hgrace). cbn [fst snd].
    split; [exact Hsig |]. split.
    { intros t Ht.
      destruct (proj1 (exits_in_grace_false c) Hgrace t Ht) as [Hgt | [-> _]];
        lia. }
    split; [| reflexivity].
    eexists [Signal SIGTERM; Go ProcessWait; TimerFired gracePeriod; Print _],
            _.
    cbn [app]. split; [reflexivity |].
    split; [cbn; tauto |].
    split; [| reflexivity].
    cbn. intros H. repeat (destruct H as [H | H]; [discriminate |]). exact H.
  - intros t Hsig Hexit Hlt.
    unfold terminateGracefully, exits_in_grace. rewrite Hsig, Hexit.
    apply Z.ltb_lt in Hlt. rewrite Hlt. cbn [orb].
    destruct (reportable Error (wait_result c)); cbn;
      (split; [| split; [| tauto]]);
      intros H; repeat (destruct H as [H | H]; [discriminate |]); exact H.
  - intros e Hraw Hrace Hvictim.
    rewrite (raw_mode_call Error e Hraw). cbn [snd].
    rewrite Hrace, Hvictim. cbn [select_case].
    destruct (terminateGracefully Error c). reflexivity.
  - intros Hsig Hlate. apply terminateGracefully_forced; [exact Hsig |].
    apply exits_in_grace_false. exact Hlate.
  - split.
    + intros Hkill.
      destruct (kill_only_when_forced Error c Hkill) as [Hsig Hgrace].
      split; [exact Hsig | apply exits_in_grace_false; exact Hgrace].
    + intros [Hsig Hlate].
      rewrite (terminateGracefully_forced Error c Hsig
                 (proj2 (exits_in_grace_false c) Hlate)).
      cbn. tauto.
  - intros t Hsig Hexit Hearly.
    apply terminateGracefully_awaited; [exact Hsig |].
    exact (exits_in_grace_true c t Hexit Hearly).
Qed.

Lemma graceful_then_forced_termination_witness :
  In Kill (fst (terminateGracefully os_text stubborn_child))
  /\ snd (terminateGracefully os_text stubborn_child) = None
  /\ (sigterm prompt_child = None
      /\ exits_after prompt_child = Some 0%Z
      /\ (0 < gracePeriod)%Z
      /\ ~ In Kill (fst (terminateGracefully os_text prompt_child)))
  /\ (sigterm late_child = None
      /\ exits_after late_child = Some 5000000000%Z
      /\ (gracePeriod < 5000000000)%Z
      /\ In Kill (fst (terminateGracefully os_text late_child))
      /\ last (fst (terminateGracefully os_text late_child)) Kill
         = Receive done).
Proof.
  split; [cbn; tauto |].
  split.
  - apply (graceful_then_forced_termination os_text stubborn_child).
    cbn; tauto.
  - split.
    + split; [reflexivity |]. split; [reflexivity |]. split; [reflexivity |].
      apply (proj1 (proj2 (proj2 (proj2 (proj2
               (graceful_then_forced_termination os_text prompt_child)))))
               0%Z eq_refl eq_refl eq_refl).
    + assert (Hlate : forall t, exits_after late_child = Some t ->
                (gracePeriod < t)%Z
                \/ (t = gracePeriod /\ timer_first late_child = true)).
      { intros t Ht. injection Ht as <-. left. reflexivity. }
      destruct (graceful_then_forced_termination os_text late_child)
        as (_ & _ & _ & _ & _ & _ & Hforced & Hiff & _).
      split; [reflexivity |]. split; [reflexivity |]. split; [reflexivity |].
      split.
      * apply (proj2 Hiff). split; [reflexivity | exact Hlate].
      * rewrite (Hforced eq_refl Hlate). reflexivity.
Defined.

End ProxyClaims.

(** * Properties of the command dispatcher *)

Section CommandDispatcher.

Import Dispatch.
Local Open Scope string_scope.
Local Open Scope list_scope.

Lemma iteration_keeps_polling (inp : GetCommandInvocationInput) (t : turn) :
  keeps_polling t = true ->
  iteration inp t = (quiet_poll inp, Continue).
Proof.
  destruct t as [| [err | output]]; cbn; try discriminate.
  unfold still_running, on_status. intros ->. reflexivity.
Qed.

Lemma iteration_stops (inp : GetCommandInvocationInput) (t : turn) :
  keeps_polling t = false ->
  snd (iteration inp t) = Return
  /\ printed (fst (iteration inp t)) = last_words t
  /\ polls (fst (iteration inp t)) = match t with CtxDone => 0 | Poll _ => 1 end
  /\ fst (iteration inp t)
     = match t with
       | CtxDone => []
       | Poll _ => quiet_poll inp ++ map Printed (last_words t)
       end.
Proof.
  destruct t as [| [err | output]]; cbn; auto.
  unfold still_running, on_status. intros ->.
  destruct (String.eqb (ToLower (Status output)) "success"); cbn; auto.
Qed.

Lemma poll_loop_running (inp : GetCommandInvocationInput) (pre rest : list turn) :
  forallb keeps_polling pre = true ->
  poll_loop inp (pre ++ rest)
  = (flat_map (fun _ => quiet_poll inp) pre ++ fst (poll_loop inp rest),
     snd (poll_loop inp rest)).
Proof.
  induction pre as [| t pre IH]; intros Hrun.
  - cbn. now destruct (poll_loop inp rest).
  - cbn [forallb] in Hrun. apply andb_true_iff in Hrun as [Ht Hpre].
    cbn [app poll_loop]. rewrite (iteration_keeps_polling inp t Ht).
    rewrite (IH Hpre). cbn [flat_map]. now rewrite <- app_assoc.
Qed.

Lemma printed_app (a b : list effect) :
  printed (a ++ b) = printed a ++ printed b.
Proof.
  induction a as [| e a IH]; [reflexivity |].
  destruct e; cbn; now rewrite IH.
Qed.

Lemma polls_app (a b : list effect) : polls (a ++ b) = polls a + polls b.
Proof.
  unfold polls. now rewrite filter_app, length_app.
Qed.

Lemma printed_quiet (inp : GetCommandInvocationInput) (pre : list turn) :
  printed (flat_map (fun _ => quiet_poll inp) pre) = [].
Proof. induction pre; cbn; auto. Qed.

Lemma polls_quiet (inp : GetCommandInvocationInput) (pre : list turn) :
  polls (flat_map (fun _ => quiet_poll inp) pre) = List.length pre.
Proof.
  induction pre as [| t pre IH]; [reflexivity |].
  cbn [flat_map]. rewrite polls_app, IH. reflexivity.
Qed.

(** Any list of turns is all quiet polls, or has a first turn that
    ends the watcher. *)
Lemma first_stopping_turn (ts : list turn) :
  forallb keeps_polling ts = true
  \/ exists pre t rest,
       ts = pre ++ t :: rest
       /\ forallb keeps_polling pre = true
       /\ keeps_polling t = false.
Proof.
  induction ts as [| t ts IH]; [now left |].
  destruct (keeps_polling t) eqn:Ht.
  - destruct IH as [Hall | (pre & t' & rest & -> & Hpre & Ht')].
    + left. cbn. now rewrite Ht.
    + right. exists (t :: pre), t', rest. cbn. rewrite Ht. auto.
  - right. exists [], t, ts. auto.
Qed.

Lemma poll_loop_stops (inp : GetCommandInvocationInput) (t : turn)
    (rest : list turn) :
  keeps_polling t = false ->
  poll_loop inp (t :: rest) = (fst (iteration inp t), Return).
Proof.
  intros Ht. cbn [poll_loop].
  destruct (iteration_stops inp t Ht) as (Hret & _).
  destruct (iteration inp t) as [effs n]. cbn in *. now subst n.
Qed.

Lemma last_words_short (t : turn) : List.length (last_words t) <= 1.
Proof.
  destruct t as [| [err | output]]; cbn; auto.
  destruct (String.eqb (ToLower (Status output)) "success"); cbn; auto.
Qed.

Lemma monitor_running (inp : GetCommandInvocationInput) (pre : list turn) :
  forallb keeps_polling pre = true ->
  monitorCommandInvocation inp pre
  = (NewTicker pollInterval :: flat_map (fun _ => quiet_poll inp) pre, Continue).
Proof.
  intros Hpre. unfold monitorCommandInvocation.
  rewrite <- (app_nil_r pre) at 1.
  rewrite (poll_loop_running inp pre [] Hpre). cbn. now rewrite app_nil_r.
Qed.

Lemma monitor_stops (inp : GetCommandInvocationInput) (pre : list turn)
    (t : turn) (rest : list turn) :
  forallb keeps_polling pre = true ->
  keeps_polling t = false ->
  monitorCommandInvocation inp (pre ++ t :: rest)
  = (NewTicker pollInterval
     :: (flat_map (fun _ => quiet_poll inp) pre ++ fst (iteration inp t))
     ++ [StopTicker; WgDone], Return).
Proof.
  intros Hpre Ht. unfold monitorCommandInvocation.
  rewrite (poll_loop_running inp pre (t :: rest) Hpre).
  rewrite (poll_loop_stops inp t rest Ht). reflexivity.
Qed.

(** A watcher never prints more than one line. *)
Lemma monitor_prints_at_most_once (inp : GetCommandInvocationInput)
    (ts : list turn) :
  List.length (printed (fst (monitorCommandInvocation inp ts))) <= 1.
Proof.
  destruct (first_stopping_turn ts) as [Hall | (pre & t & rest & -> & Hpre & Ht)].
  - rewrite (monitor_running inp ts Hall). cbn [fst printed].
    rewrite printed_quiet. cbn. lia.
  - rewrite (monitor_stops inp pre t rest Hpre Ht). cbn [fst printed].
    rewrite !printed_app, printed_quiet.
    destruct (iteration_stops inp t Ht) as (_ & -> & _).
    cbn. rewrite app_nil_r. apply last_words_short.
Qed.

(** C8, as the code has it.  The watcher makes its status calls at the
    ticks of a ticker of 1 second.  As long as every answer has a
    status that, lower-cased, is pending, inprogress or delayed, it
    goes on polling and prints nothing.  It returns at the first turn
    that is not such an answer: on a cancelled context it prints
    nothing; on a failed status call it prints the failure notice; on a
    status that lower-cases to success it prints the success line with
    the captured standard output; on any other status it prints the
    error line with the captured standard error.  So a watcher prints
    at most one line, whatever the environment offers. *)
Theorem watcher_polls_until_terminal_status
    (inp : GetCommandInvocationInput) (pre : list turn) (t : turn)
    (rest : list turn) :
  forallb keeps_polling pre = true ->
  keeps_polling t = false ->
  pollInterval = 1000000000%Z
  /\ monitorCommandInvocation inp pre
     = (NewTicker pollInterval :: flat_map (fun _ => quiet_poll inp) pre,
        Continue)
  /\ monitorCommandInvocation inp (pre ++ t :: rest)
     = (NewTicker pollInterval
        :: (flat_map (fun _ => quiet_poll inp) pre
            ++ match t with
               | CtxDone => []
               | Poll _ => quiet_poll inp ++ map Printed (last_words t)
               end)
        ++ [StopTicker; WgDone], Return)
  /\ printed (fst (monitorCommandInvocation inp (pre ++ t :: rest)))
     = last_words t
  /\ polls (fst (monitorCommandInvocation inp (pre ++ t :: rest)))
     = List.length pre + match t with CtxDone => 0 | Poll _ => 1 end
  /\ (forall ts,
         List.length (printed (fst (monitorCommandInvocation inp ts))) <= 1).
Proof.
  intros Hpre Ht.
  destruct (iteration_stops inp t Ht) as (_ & Hw & Hp & Hf).
  split; [reflexivity |].
  split; [apply (monitor_running inp pre Hpre) |].
  rewrite (monitor_stops inp pre t rest Hpre Ht). cbn [fst].
  split; [now rewrite Hf |].
  split; [| split].
  - cbn [printed]. rewrite !printed_app, printed_quiet, Hw. cbn.
    now rewrite app_nil_r.
  - change (NewTicker pollInterval
            :: (flat_map (fun _ => quiet_poll inp) pre ++ fst (iteration inp t))
               ++ [StopTicker; WgDone])
      with ([NewTicker pollInterval]
            ++ (flat_map (fun _ => quiet_poll inp) pre ++ fst (iteration inp t))
               ++ [StopTicker; WgDone]).
    rewrite !polls_app, polls_quiet, Hp. cbn. lia.
  - apply monitor_prints_at_most_once.
Qed.

Lemma watcher_polls_until_terminal_status_witness :
  forallb keeps_polling
    [answer "Pending" "i-0" "" ""; answer "InProgress" "i-0" "" "";
     answer "DELAYED" "i-0" "" ""] = true
  /\ keeps_polling (answer "Success" "i-0" "done" "") = false
  /\ printed (fst (monitorCommandInvocation
                     {| InvocationCommandId := "cmd-1";
                        InvocationInstanceId := "i-0" |}
                     ([answer "Pending" "i-0" "" "";
                       answer "InProgress" "i-0" "" "";
                       answer "DELAYED" "i-0" "" ""]
                      ++ answer "Success" "i-0" "done" ""
                      :: [answer "Failed" "i-0" "" "late"])))
     = [success_line "i-0" "done"].
Proof.
  split; [reflexivity |]. split; [reflexivity |].
  apply (watcher_polls_until_terminal_status
           {| InvocationCommandId := "cmd-1"; InvocationInstanceId := "i-0" |}
           [answer "Pending" "i-0" "" ""; answer "InProgress" "i-0" "" "";
            answer "DELAYED" "i-0" "" ""]
           (answer "Success" "i-0" "done" "")
           [answer "Failed" "i-0" "" "late"]);
    reflexivity.
Defined.

(** C8 as stated fails: a watcher whose context is cancelled while the
    status is Pending stops polling and returns without having printed
    any result. *)
Lemma cancelled_watcher_prints_nothing :
  snd (monitorCommandInvocation
         {| InvocationCommandId := "cmd-1"; InvocationInstanceId := "i-0" |}
         [answer "Pending" "i-0" "" ""; CtxDone]) = Return
  /\ polls (fst (monitorCommandInvocation
                   {| InvocationCommandId := "cmd-1";
                      InvocationInstanceId := "i-0" |}
                   [answer "Pending" "i-0" "" ""; CtxDone])) = 1
  /\ List.length
       (printed (fst (monitorCommandInvocation
                        {| InvocationCommandId := "cmd-1";
                           InvocationInstanceId := "i-0" |}
                        [answer "Pending" "i-0" "" ""; CtxDone]))) <> 1.
Proof.
  split; [reflexivity |]. split; [reflexivity |].
  vm_compute. discriminate.
Qed.

(** *** The pool of watchers *)

Lemma replace_map {A B : Type} (f : A -> B) (l : list A) :
  forall (i : nat) (x y : A),
    nth_error l i = Some y -> f x = f y ->
    map f (replace i x l) = map f l.
Proof.
  induction l as [| a l IH]; intros [| i] x y Hnth Hf; cbn in *;
    try discriminate.
  - injection Hnth as ->. now rewrite Hf.
  - now rewrite (IH i x y Hnth Hf).
Qed.

Lemma replace_Forall {A : Type} (P : A -> Prop) (l : list A) :
  forall (i : nat) (x : A),
    Forall P l -> P x -> Forall P (replace i x l).
Proof.
  induction l as [| a l IH]; intros [| i] x Hl Hx; cbn; auto;
    inversion Hl; subst; constructor; auto.
Qed.

Lemma replace_live (ws : list watcher) :
  forall (i : nat) (w w' : watcher),
    nth_error ws i = Some w -> returned w = false ->
    Z.of_nat (live (replace i w' ws))
    = (Z.of_nat (live ws) - (if returned w' then 1 else 0))%Z.
Proof.
  unfold live.
  induction ws as [| a ws IH]; intros [| i] w w' Hnth Hw;
    cbn [replace nth_error filter] in *; try discriminate.
  - injection Hnth as ->. rewrite Hw.
    destruct (returned w'); cbn [negb Datatypes.length]; lia.
  - specialize (IH i w w' Hnth Hw).
    destruct (returned a); cbn [negb Datatypes.length]; lia.
Qed.

Lemma live_app (a b : list watcher) : live (a ++ b) = live a + live b.
Proof. unfold live. now rewrite filter_app, length_app. Qed.

Lemma live_zero (ws : list watcher) :
  live ws = 0 <-> Forall (fun w => returned w = true) ws.
Proof.
  unfold live. induction ws as [| w ws IH]; cbn.
  - split; auto.
  - destruct (returned w) eqn:Hw; cbn.
    + rewrite IH. split; intros H; [constructor; auto | now inversion H].
    + split; [discriminate |]. intros H. inversion H. congruence.
Qed.

Lemma run_one_spec (i : nat) (p : pool) :
  pool_ok p ->
  pool_ok (run_one i p)
  /\ map input (watchers (run_one i p)) = map input (watchers p).
Proof.
  intros [Hwg Htidy]. unfold run_one.
  destruct (nth_error (watchers p) i) as [w |] eqn:Hnth;
    [| split; [split |]; auto].
  destruct (returned w) eqn:Hret; [split; [split |]; auto |].
  destruct (turns w) as [| t rest]; [split; [split |]; auto |].
  assert (Hw : tidy w).
  { rewrite Forall_forall in Htidy. apply Htidy.
    eapply nth_error_In; eauto. }
  destruct Hw as [Hquiet _]. specialize (Hquiet Hret).
  destruct (keeps_polling t) eqn:Ht.
  - rewrite (iteration_keeps_polling (input w) t Ht). cbv beta iota.
    split; [split |]; cbn [wg watchers].
    + erewrite replace_live by eauto. cbn [returned]. lia.
    + apply replace_Forall; [exact Htidy |].
      split; cbn [returned lines]; rewrite Hquiet; cbn; auto.
    + eapply replace_map; eauto.
  - destruct (iteration_stops (input w) t Ht) as (Hn & Hpr & _).
    destruct (iteration (input w) t) as [effs n]. cbn [fst snd] in Hn, Hpr.
    subst n. cbv beta iota.
    split; [split |]; cbn [wg watchers].
    + erewrite replace_live by eauto. cbn [returned]. lia.
    + apply replace_Forall; [exact Htidy |].
      split; cbn [returned lines]; [discriminate |].
      rewrite Hquiet, Hpr. cbn [app]. apply last_words_short.
    + eapply replace_map; eauto.
Qed.

Lemma run_schedule_spec (schedule : list nat) :
  forall p : pool,
    pool_ok p ->
    pool_ok (run_schedule schedule p)
    /\ map input (watchers (run_schedule schedule p)) = map input (watchers p).
Proof.
  induction schedule as [| i schedule IH]; intros p Hp; [now split |].
  change (run_schedule (i :: schedule) p)
    with (run_schedule schedule (run_one i p)).
  destruct (run_one_spec i p Hp) as [Hok Hin].
  destruct (IH (run_one i p) Hok) as [Hok' Hin'].
  split; [exact Hok' |]. now rewrite Hin', Hin.
Qed.

Lemma spawn_spec (feeds : nat -> list turn) (early : nat -> list nat)
    (inputs : list GetCommandInvocationInput) :
  forall (i : nat) (p : pool),
    pool_ok p ->
    pool_ok (spawn feeds early i inputs p)
    /\ map input (watchers (spawn feeds early i inputs p))
       = map input (watchers p) ++ inputs.
Proof.
  induction inputs as [| inp inputs IH]; intros i p Hp.
  - cbn. rewrite app_nil_r. split; [exact Hp | reflexivity].
  - cbn [spawn].
    match goal with
    | |- context [run_schedule (early i) ?q] => set (p' := q)
    end.
    assert (Hp' : pool_ok p').
    { destruct Hp as [Hwg Htidy]. subst p'. split; cbn [wg watchers].
      - rewrite live_app, Hwg. unfold live. cbn. lia.
      - apply Forall_app. split; [exact Htidy |].
        constructor; [| constructor]. split; cbn; auto. }
    destruct (run_schedule_spec (early i) p' Hp') as [Hok Hin].
    destruct (IH (S i) _ Hok) as (Hok' & Hin').
    split; [exact Hok' |]. rewrite Hin', Hin. subst p'. cbn [watchers].
    rewrite map_app. cbn. now rewrite <- app_assoc.
Qed.

Lemma PrintCommandInvocation_spec (feeds : nat -> list turn)
    (early : nat -> list nat) (inputs : list GetCommandInvocationInput)
    (schedule : list nat) :
  pool_ok (PrintCommandInvocation feeds early inputs schedule)
  /\ map input (watchers (PrintCommandInvocation feeds early inputs schedule))
     = inputs.
Proof.
  unfold PrintCommandInvocation.
  assert (H0 : pool_ok {| wg := 0; watchers := []; stdout := [] |}).
  { split; cbn; auto. }
  destruct (spawn_spec feeds early inputs 0 _ H0) as (Hok & Hin).
  destruct (run_schedule_spec schedule _ Hok) as [Hok' Hin'].
  split; [exact Hok' |]. now rewrite Hin', Hin.
Qed.

Lemma wait_returns_iff (p : pool) :
  pool_ok p ->
  wait_returns p = true <-> Forall (fun w => returned w = true) (watchers p).
Proof.
  intros [Hwg _]. unfold wait_returns. rewrite Z.eqb_eq, Hwg, <- live_zero. lia.
Qed.

(** C9.  [SendCommand] makes one send-command call, whose instance ids
    are the names of all the targets, in order.  When the call fails
    nothing is watched; otherwise one watcher goroutine is started per
    instance id of the answer (per target, when the service answers
    with the ids it was sent).  The goroutines run in whatever order
    the scheduler picks, and two schedules can print the results in
    different orders.  Under every schedule the WaitGroup counter is
    the number of watchers that have not returned, so [wg.Wait()], and
    with it the dispatcher, returns exactly when every watcher has
    returned; each of them has then printed at most one line. *)
Theorem dispatcher_returns_after_all_watchers
    (reply : SendCommandInput -> error + SendCommandOutput)
    (targets : list Target) (command : string)
    (feeds : nat -> list turn) (early : nat -> list nat)
    (schedule : list nat) :
  fst (SendCommand reply targets command)
  = [CallSendCommand
       {| DocumentName := shellDocumentName;
          InstanceIds := map Name targets;
          TimeoutSeconds := commandTimeout;
          CloudWatchOutputEnabled := true; Parameters :=
            [("commands", [command])] |}]
  /\ match snd (SendCommand reply targets command) with
     | inl _ =>
         runCommand reply targets command feeds early schedule
         = (fst (SendCommand reply targets command), None)
     | inr sendOutput =>
         exists p,
           runCommand reply targets command feeds early schedule
           = (fst (SendCommand reply targets command) ++ [Sleep commandWaitTime],
              Some p)
           /\ map (fun w => InvocationInstanceId (input w)) (watchers p)
              = CommandInstanceIds sendOutput
           /\ wg p = Z.of_nat (live (watchers p))
           /\ (wait_returns p = true
               <-> Forall (fun w => returned w = true) (watchers p))
           /\ Forall tidy (watchers p)
     end
  /\ (forall p,
         snd (runCommand echo targets command feeds early schedule) = Some p ->
         map (fun w => InvocationInstanceId (input w)) (watchers p)
         = map Name targets)
  /\ (wait_returns
        (PrintCommandInvocation two_feeds idle
           (invocationInputs
              {| CommandId := "cmd-1"; CommandInstanceIds := ["i-0"; "i-1"] |})
           [0; 1; 1]) = true
      /\ wait_returns
           (PrintCommandInvocation two_feeds idle
              (invocationInputs
                 {| CommandId := "cmd-1"; CommandInstanceIds := ["i-0"; "i-1"] |})
              [1; 1; 0]) = true
      /\ stdout
           (PrintCommandInvocation two_feeds idle
              (invocationInputs
                 {| CommandId := "cmd-1"; CommandInstanceIds := ["i-0"; "i-1"] |})
              [0; 1; 1])
         <> stdout
              (PrintCommandInvocation two_feeds idle
                 (invocationInputs
                    {| CommandId := "cmd-1"; CommandInstanceIds := ["i-0"; "i-1"] |})
                 [1; 1; 0])).
Proof.
  assert (Hids : forall out p,
             p = PrintCommandInvocation feeds early (invocationInputs out) schedule ->
             map (fun w => InvocationInstanceId (input w)) (watchers p)
             = CommandInstanceIds out).
  { intros out p ->.
    destruct (PrintCommandInvocation_spec feeds early (invocationInputs out)
                  schedule)
      as [_ Hin].
    rewrite <- (map_map input InvocationInstanceId), Hin.
    unfold invocationInputs. rewrite map_map. cbn. apply map_id. }
  split; [reflexivity |]. split; [| split].
  - unfold runCommand. cbn [SendCommand fst snd].
    destruct (reply _) as [err | out]; [reflexivity |].
    eexists. split; [reflexivity |].
    destruct (PrintCommandInvocation_spec feeds early (invocationInputs out)
                  schedule)
      as [Hok _].
    split; [now apply Hids |].
    split; [apply Hok |].
    split; [now apply wait_returns_iff | apply Hok].
  - intros p. unfold runCommand. cbn [SendCommand echo fst snd].
    intros Hp. injection Hp as Hp. symmetry in Hp.
    rewrite (Hids _ p Hp). reflexivity.
  - split; [reflexivity |]. split; [reflexivity |].
    vm_compute. discriminate.
Qed.

Lemma dispatcher_returns_after_all_watchers_witness :
  snd (runCommand echo two_targets "uptime" two_feeds idle [1; 0; 1])
  = Some (PrintCommandInvocation two_feeds idle
            (invocationInputs
               {| CommandId := "cmd-1"; CommandInstanceIds := ["i-0"; "i-1"] |})
            [1; 0; 1])
  /\ map (fun w => InvocationInstanceId (input w))
       (watchers (PrintCommandInvocation two_feeds idle
                    (invocationInputs
                       {| CommandId := "cmd-1";
                          CommandInstanceIds := ["i-0"; "i-1"] |})
                    [1; 0; 1]))
     = map Name two_targets.
Proof.
  split; [reflexivity |].
  apply (proj1 (proj2 (proj2
           (dispatcher_returns_after_all_watchers
              echo two_targets "uptime" two_feeds idle [1; 0; 1])))).
  reflexivity.
Defined.

End CommandDispatcher.

(** * Further properties of the escape scanner *)

Section ScannerMore.

Import Escape Extra.

(** X1.  Whatever is typed, what has reached the child is a prefix of
    it.  Without an escape the rest is what the scanner holds back, at
    most the one tilde it is armed with; with an escape the rest starts
    with the [~.] that triggered it. *)
Theorem forwarded_is_prefix_of_input (bs : list byte) :
  exists rest,
    bs = forwarded (feed bs) ++ rest
    /\ (escapeDetected (feed bs) = false ->
        rest = held (final (feed bs)) /\ List.length rest <= 1)
    /\ (escapeDetected (feed bs) = true ->
        exists post, rest = tilde :: dot :: post).
Proof.
  pose proof (reachable_exclusive _ reach_initial) as Hex.
  destruct (escapeDetected (feed bs)) eqn:Hesc.
  - destruct (escape_splits bs initial Hex Hesc)
      as (pre & post & Hsplit & Hf & _).
    exists (tilde :: dot :: post). unfold feed. fold (reads bs).
    rewrite Hf. cbn in Hsplit. split; [exact Hsplit |].
    split; [discriminate | intros _; now exists post].
  - destruct (no_escape_conserves bs initial Hex Hesc) as [Hc _].
    exists (held (final (feed bs))). unfold feed. fold (reads bs).
    cbn in Hc. split; [exact Hc |].
    split; [| discriminate].
    intros _. split; [reflexivity |].
    unfold held. destruct (tildeSeen _); cbn; lia.
Qed.

(** Once the loop has returned, no further turn is taken. *)
Lemma returned_is_final (its more : list iteration) :
  forall s err,
    result (copyWithEscapeDetection s its) = Returned err ->
    copyWithEscapeDetection s (its ++ more) = copyWithEscapeDetection s its.
Proof.
  induction its as [| it its IH]; intros s err Hret.
  - cbn in Hret. discriminate.
  - destruct it as [| [e | | b]]; cbn [app copyWithEscapeDetection] in *.
    + reflexivity.
    + reflexivity.
    + now apply (IH s err).
    + destruct (scan_byte s b) as [[| chunk |] s'].
      * now apply (IH s' err).
      * cbn [result wrote] in Hret. now rewrite (IH s' err Hret).
      * reflexivity.
Qed.

(** X2.  After the escape nothing more is read or forwarded: bytes
    typed after the [~.] never reach the child, and the loop has
    returned nil. *)
Theorem nothing_forwarded_after_escape (bs more : list byte) :
  escapeDetected (feed bs) = true ->
  feed (bs ++ more) = feed bs
  /\ result (feed (bs ++ more)) = Returned None.
Proof.
  intros Hesc.
  destruct (escape_splits bs initial (reachable_exclusive _ reach_initial) Hesc)
    as (_ & _ & _ & _ & _ & Hr).
  assert (Hsame : feed (bs ++ more) = feed bs).
  { unfold feed. rewrite map_app. fold (reads bs).
    apply (returned_is_final (reads bs) _ initial None Hr). }
  rewrite Hsame. split; [reflexivity | exact Hr].
Qed.

Lemma nothing_forwarded_after_escape_witness :
  escapeDetected (feed [x6c; LF; tilde; dot]) = true
  /\ feed ([x6c; LF; tilde; dot] ++ [x72; x6d; LF]) = feed [x6c; LF; tilde; dot].
Proof.
  split; [reflexivity |].
  apply (nothing_forwarded_after_escape [x6c; LF; tilde; dot] [x72; x6d; LF]).
  reflexivity.
Defined.

(** X3.  When the input ends (EOF, a read error, or the cancelled
    context) before any escape, the loop has written exactly what it
    wrote for the bytes read so far and returns: nil on EOF and on
    cancellation, the read error otherwise.  A tilde held back at that
    moment is never written. *)
Theorem end_of_input_drops_held_tilde
    (bs : list byte) (it : iteration) (more : list iteration) (ret : goerror) :
  escapeDetected (feed bs) = false ->
  stopped_with it = Some ret ->
  writes (copyWithEscapeDetection initial (reads bs ++ it :: more))
  = writes (feed bs)
  /\ result (copyWithEscapeDetection initial (reads bs ++ it :: more))
     = Returned ret
  /\ escapeDetected (copyWithEscapeDetection initial (reads bs ++ it :: more))
     = false
  /\ forwarded (copyWithEscapeDetection initial (reads bs ++ it :: more))
     ++ held (final (feed bs)) = bs.
Proof.
  intros Hesc Hstop.
  pose proof (reachable_exclusive _ reach_initial) as Hex.
  destruct (copy_reads_app bs (it :: more) initial Hesc) as (Hw & Hr & He).
  destruct (no_escape_conserves bs initial Hex Hesc) as [Hc _].
  assert (Hend : writes (copyWithEscapeDetection
                           (final (copyWithEscapeDetection initial (reads bs)))
                           (it :: more)) = []
                 /\ result (copyWithEscapeDetection
                              (final (copyWithEscapeDetection initial (reads bs)))
                              (it :: more)) = Returned ret
                 /\ escapeDetected
                      (copyWithEscapeDetection
                         (final (copyWithEscapeDetection initial (reads bs)))
                         (it :: more)) = false).
  { destruct it as [| [e | | b]]; cbn in Hstop; try discriminate;
      injection Hstop as <-; cbn [copyWithEscapeDetection].
    - repeat split.
    - destruct (error_eqb e EOF); repeat split. }
  destruct Hend as (Hw' & Hr' & He').
  unfold forwarded, feed in *. fold (reads bs) in *.
  rewrite Hw, Hr, He, Hw', Hr', He', app_nil_r.
  repeat split. cbn in Hc. now rewrite <- Hc.
Qed.

Lemma end_of_input_drops_held_tilde_witness :
  escapeDetected (feed [x6c; LF; tilde]) = false
  /\ stopped_with (Read (ReadErr EOF)) = Some None
  /\ forwarded (copyWithEscapeDetection initial
                  (reads [x6c; LF; tilde] ++ [Read (ReadErr EOF)]))
     = [x6c; LF].
Proof.
  split; [reflexivity |]. split; [reflexivity |].
  pose proof (end_of_input_drops_held_tilde [x6c; LF; tilde]
                (Read (ReadErr EOF)) [] None eq_refl eq_refl) as (_ & _ & _ & H).
  apply (app_inv_tail (held (final (feed [x6c; LF; tilde])))).
  exact H.
Defined.

(** X4.  Reads that return no byte and no error leave no trace: the
    loop behaves as if they had not happened. *)
Theorem empty_reads_are_skipped (its : list iteration) :
  forall s,
    copyWithEscapeDetection s (filter carries its)
    = copyWithEscapeDetection s its.
Proof.
  induction its as [| it its IH]; intros s; [reflexivity |].
  destruct it as [| [e | | b]]; cbn [filter carries copyWithEscapeDetection].
  - reflexivity.
  - reflexivity.
  - apply IH.
  - destruct (scan_byte s b) as [[| chunk |] s'];
      [apply IH | now rewrite IH | reflexivity].
Qed.

End ScannerMore.

Section ScannerFirstPair.

Import Escape Extra.

Lemma firstn_app_left {A : Type} (a b c d : list A) :
  a ++ b = c ++ d -> List.length a <= List.length c -> a = firstn (List.length a) c.
Proof.
  revert c. induction a as [| x a IH]; intros c Heq Hlen; [reflexivity |].
  destruct c as [| y c]; cbn in Hlen; [lia |].
  cbn in Heq. injection Heq as -> Heq. cbn.
  f_equal. apply IH; [exact Heq | lia].
Qed.

(** X5.  A [~.] at a line start always triggers the escape, and it is
    the first such pair of the stream that does: what was forwarded is
    an initial part of the bytes before the pair. *)
Theorem escape_fires_at_first_tilde_dot (pre post : list byte) :
  line_start_after true pre = true ->
  escapeDetected (feed (pre ++ [tilde; dot] ++ post)) = true
  /\ result (feed (pre ++ [tilde; dot] ++ post)) = Returned None
  /\ exists k, forwarded (feed (pre ++ [tilde; dot] ++ post)) = firstn k pre.
Proof.
  intros Hstart.
  pose proof (reachable_exclusive _ reach_initial) as Hex.
  assert (Hshort : escapeDetected (feed (pre ++ [tilde; dot])) = true).
  { pose proof (tilde_dot_at_line_start_escapes pre [] initial Hex Hstart) as H.
    exact H. }
  destruct (escape_splits (pre ++ [tilde; dot]) initial Hex Hshort)
    as (pre' & post' & Hsplit & Hf & _ & Hr).
  assert (Hsame : feed (pre ++ [tilde; dot] ++ post) = feed (pre ++ [tilde; dot])).
  { change (pre ++ [tilde; dot] ++ post) with (pre ++ ([tilde; dot] ++ post)).
    rewrite app_assoc. unfold feed. rewrite map_app.
    apply (returned_is_final _ _ initial None Hr). }
  rewrite Hsame. split; [exact Hshort |]. split; [exact Hr |].
  exists (List.length pre'). unfold feed. fold (reads (pre ++ [tilde; dot])).
  rewrite Hf. cbn [held initial tildeSeen app] in Hsplit.
  apply (firstn_app_left pre' ([tilde; dot] ++ post') pre [tilde; dot]).
  - now rewrite Hsplit.
  - apply (f_equal (@List.length byte)) in Hsplit.
    rewrite !length_app in Hsplit. cbn in Hsplit. lia.
Qed.

Lemma escape_fires_at_first_tilde_dot_witness :
  line_start_after true [x6c; x73; CR] = true
  /\ escapeDetected (feed ([x6c; x73; CR] ++ [tilde; dot] ++ [x71])) = true.
Proof.
  split; [reflexivity |].
  apply (escape_fires_at_first_tilde_dot [x6c; x73; CR] [x71]). reflexivity.
Defined.

End ScannerFirstPair.

(** * Further properties of the process proxy *)

Section ProxyMore.

Import Proxy Extra.
Local Open Scope string_scope.
Local Open Scope list_scope.

(** The call leaves the terminal in the mode it found. *)
Lemma call_keeps_mode (Error : error -> string) (e : env) :
  final_mode (prior e) (fst (CallProcessWithSimpleEscape Error e)) = prior e.
Proof.
  destruct (enters_raw_mode e) eqn:Hraw.
  - rewrite (raw_mode_call Error e Hraw). cbn [fst].
    unfold exit_path, deferred.
    change [StopNotify; Cancel; Restore (prior e)]
      with ([StopNotify; Cancel] ++ [Restore (prior e)]).
    rewrite !app_assoc. apply final_mode_ends_with_restore.
  - unfold enters_raw_mode, CallProcessWithSimpleEscape in *.
    destruct (stdin_is_terminal e); [| reflexivity].
    destruct (stdin_pipe e); [reflexivity |].
    destruct (start e); [reflexivity |].
    destruct (make_raw e); [reflexivity | discriminate].
Qed.

(** X6.  On every path of the call, whatever the environment does, the
    terminal is in the mode it had before the call when the call
    returns.  Unless the call gets as far as entering raw mode, it never
    enters raw mode, never calls [term.Restore], and never starts the
    forwarding loop; a failure of the pipe or of the start is returned
    wrapped with the frame of [CallProcessWithSimpleEscape], and a
    failure of raw mode makes the call wait for the child and return the
    result of [cmd.Wait()] as it is. *)
Theorem terminal_mode_kept_on_all_paths (Error : error -> string) (e : env) :
  final_mode (prior e) (fst (CallProcessWithSimpleEscape Error e)) = prior e
  /\ (enters_raw_mode e = false ->
      ~ In MakeRaw (fst (CallProcessWithSimpleEscape Error e))
      /\ restores (fst (CallProcessWithSimpleEscape Error e)) = 0
      /\ ~ In (Go CopyStdin) (fst (CallProcessWithSimpleEscape Error e)))
  /\ (stdin_is_terminal e = true ->
      match stdin_pipe e, start e, make_raw e with
      | Some err, _, _ =>
          snd (CallProcessWithSimpleEscape Error e)
          = Some (Wrapped "internal.CallProcessWithSimpleEscape" 34 err)
          /\ ~ In Start (fst (CallProcessWithSimpleEscape Error e))
      | None, Some err, _ =>
          snd (CallProcessWithSimpleEscape Error e)
          = Some (Wrapped "internal.CallProcessWithSimpleEscape" 39 err)
      | None, None, Some _ =>
          snd (CallProcessWithSimpleEscape Error e) = cooked_wait e
          /\ In Wait (fst (CallProcessWithSimpleEscape Error e))
      | None, None, None => enters_raw_mode e = true
      end).
Proof.
  split; [apply call_keeps_mode | split].
  - unfold enters_raw_mode, CallProcessWithSimpleEscape.
    destruct (stdin_is_terminal e); cbn [negb andb].
    + destruct (stdin_pipe e); [| destruct (start e); [| destruct (make_raw e)]];
        intros Hraw; try discriminate;
        (split; [| split]; [| reflexivity |]); cbn;
        intros H; repeat (destruct H as [H | H]; [discriminate |]); exact H.
    + intros _. cbn.
      (split; [| split]; [| reflexivity |]);
        intros H; repeat (destruct H as [H | H]; [discriminate |]); exact H.
  - intros Htty. unfold enters_raw_mode, CallProcessWithSimpleEscape.
    rewrite Htty. cbn [negb andb].
    destruct (stdin_pipe e); [| destruct (start e); [| destruct (make_raw e)]].
    + split; [reflexivity |]. cbn.
      intros H; repeat (destruct H as [H | H]; [discriminate |]); exact H.
    + reflexivity.
    + split; [reflexivity |]. cbn. tauto.
    + reflexivity.
Qed.

Lemma terminal_mode_kept_on_all_paths_witness :
  enters_raw_mode (piped None) = false
  /\ restores (fst (CallProcessWithSimpleEscape os_text (piped None))) = 0.
Proof.
  split; [reflexivity |].
  apply (terminal_mode_kept_on_all_paths os_text (piped None)). reflexivity.
Defined.

(** X7.  [term.Restore] runs exactly once after the select on the
    process-exit, signal and forwarding-error paths, and exactly twice
    on the escape path: once before the announcement and once more as
    the deferred call, whatever [terminateGracefully] does in between. *)
Theorem restore_count_per_exit_path
    (Error : error -> string) (old : term_state) (w : winner) (c : child) :
  restores (exit_path Error old w c)
  = match w with EscapeSeen => 2 | _ => 1 end.
Proof.
  destruct w as [err | | sig | err]; try reflexivity.
  unfold restores, exit_path, select_case.
  pose proof (terminateGracefully_no_restore Error c) as Hnone.
  destruct (terminateGracefully Error c) as [tr err]. cbn [fst] in *.
  rewrite !filter_app, Hnone. reflexivity.
Qed.

(** X8.  [terminateGracefully] returns an error in one case only: the
    SIGTERM was delivered, the child exited before the timer, and
    [Process.Wait] returned an error whose text is none of "signal:
    terminated", "signal: broken pipe", "wait: no child processes",
    "waitid: no child processes"; it then returns that very error, has
    not printed the success line and has not killed the child. *)
Theorem terminateGracefully_error_iff
    (Error : error -> string) (c : child) (err : error) :
  snd (terminateGracefully Error c) = Some err
  <-> (sigterm c = None
       /\ exits_in_grace c = true
       /\ wait_result c = Some err
       /\ Error err <> "signal: terminated"
       /\ Error err <> "signal: broken pipe"
       /\ Error err <> "wait: no child processes"
       /\ Error err <> "waitid: no child processes"
       /\ fst (terminateGracefully Error c)
          = [Signal SIGTERM; Go ProcessWait; Receive done]).
Proof.
  unfold terminateGracefully.
  destruct (sigterm c) as [e |].
  { cbn. split; [discriminate | intros (H & _); discriminate]. }
  destruct (exits_in_grace c).
  - unfold reportable, isWaitError.
    destruct (wait_result c) as [e |].
    + destruct (String.eqb_spec (Error e) "signal: terminated") as [H1 | H1];
        destruct (String.eqb_spec (Error e) "signal: broken pipe") as [H2 | H2];
        destruct (String.eqb_spec (Error e) "wait: no child processes") as [H3 | H3];
        destruct (String.eqb_spec (Error e) "waitid: no child processes") as [H4 | H4];
        cbn; split;
        try discriminate;
        try (intros (_ & _ & He & N1 & N2 & N3 & N4 & _);
             injection He as <-; congruence).
      intros He. injection He as <-. repeat split; auto.
    + cbn. split; [discriminate | intros (_ & _ & H & _); discriminate].
  - cbn. split; [discriminate | intros (_ & H & _); discriminate].
Qed.

Lemma terminateGracefully_error_iff_witness :
  snd (terminateGracefully os_text
         {| sigterm := None; exits_after := Some 5%Z;
            wait_result := Some (OSError "wait: interrupted");
            timer_first := false; kill := None |})
  = Some (OSError "wait: interrupted")
  /\ sigterm {| sigterm := None; exits_after := Some 5%Z;
                wait_result := Some (OSError "wait: interrupted");
                timer_first := false; kill := None |} = None.
Proof.
  split; [reflexivity |].
  apply (proj1 (terminateGracefully_error_iff os_text
                  {| sigterm := None; exits_after := Some 5%Z;
                     wait_result := Some (OSError "wait: interrupted");
                     timer_first := false; kill := None |}
                  (OSError "wait: interrupted"))).
  reflexivity.
Defined.

(** The part of a function name that [WrapError] keeps. *)
Lemma last_segment_spec (s : string) :
  forall acc,
    has_slash (last_segment acc s) = has_slash acc && negb (has_slash s)
    /\ (has_slash s = false -> last_segment acc s = String.append acc s)
    /\ (has_slash s = true ->
        exists pre, s = String.append pre (String "/" (last_segment acc s))).
Proof.
  assert (Happ_slash : forall a b,
             has_slash (String.append a b) = has_slash a || has_slash b).
  { induction a as [| c a IH]; intros b; cbn; [reflexivity |].
    now rewrite IH, orb_assoc. }
  assert (Happ_assoc : forall a b c,
             String.append (String.append a b) c
             = String.append a (String.append b c)).
  { induction a as [| x a IH]; intros b c; cbn; [reflexivity |].
    now rewrite IH. }
  induction s as [| c s IH]; intros acc.
  - cbn. split; [now rewrite andb_true_r |].
    split; [| discriminate].
    intros _. induction acc as [| x acc IHa]; cbn; [reflexivity |].
    now rewrite <- IHa.
  - cbn [last_segment has_slash].
    destruct (Ascii.eqb_spec c "/") as [-> | Hc]; cbn [orb negb].
    + destruct (IH EmptyString) as (Hs & Hno & Hyes).
      split; [| split; [discriminate |]].
      * rewrite Hs. cbn. now rewrite andb_false_r.
      * intros _. destruct (has_slash s) eqn:Hslash.
        -- destruct (Hyes eq_refl) as (pre & Hpre).
           exists (String "/" pre). cbn. now rewrite <- Hpre.
        -- rewrite (Hno eq_refl). cbn. now exists EmptyString.
    + destruct (IH (String.append acc (String c EmptyString))) as (Hs & Hno & Hyes).
      split; [| split].
      * rewrite Hs, Happ_slash. cbn.
        destruct (Ascii.eqb_spec c "/"); [contradiction |].
        cbn. now rewrite orb_false_r.
      * intros Hslash. rewrite (Hno Hslash), Happ_assoc. reflexivity.
      * intros Hslash. destruct (Hyes Hslash) as (pre & Hpre).
        exists (String c pre). cbn. now rewrite <- Hpre.
Qed.

(** X9.  [WrapError] returns nil for nil.  For an error it returns a new
    value that wraps it, whose frame is the caller's line and the part of
    the caller's function name after its last slash: a name without a
    slash is kept whole, and the kept part never holds a slash. *)
Theorem WrapError_keeps_last_segment
    (fullFuncName : string) (line : Z) (err : error) :
  WrapError fullFuncName line None = None
  /\ exists funcName,
       WrapError fullFuncName line (Some err)
       = Some (Wrapped funcName line err)
       /\ has_slash funcName = false
       /\ (if has_slash fullFuncName
           then exists pre,
                  fullFuncName = String.append pre (String "/" funcName)
           else funcName = fullFuncName)
       /\ Wrapped funcName line err <> err.
Proof.
  split; [reflexivity |].
  exists (last_segment EmptyString fullFuncName).
  destruct (last_segment_spec fullFuncName EmptyString) as (Hs & Hno & Hyes).
  split; [reflexivity |]. split; [exact Hs |]. split.
  - destruct (has_slash fullFuncName); [now apply Hyes | now apply Hno].
  - generalize (last_segment EmptyString fullFuncName). clear.
    induction err as [| code | msg | f l c IH]; intros g; try discriminate.
    intros H. injection H as Hf Hl Hc. subst. apply (IH f). exact Hc.
Qed.

End ProxyMore.

(** * Further properties of the command dispatcher *)

Section DispatcherMore.

Import Dispatch Extra.
Local Open Scope string_scope.
Local Open Scope list_scope.

Lemma nth_error_replace_eq {A : Type} (l : list A) :
  forall (i : nat) (x y : A),
    nth_error l i = Some y -> nth_error (replace i x l) i = Some x.
Proof.
  induction l as [| a l IH]; intros [| i] x y H; cbn in *; try discriminate.
  - reflexivity.
  - now apply (IH i x y).
Qed.

Lemma nth_error_replace_ne {A : Type} (l : list A) :
  forall (i j : nat) (x : A),
    i <> j -> nth_error (replace i x l) j = nth_error l j.
Proof.
  induction l as [| a l IH]; intros [| i] [| j] x H; cbn; try reflexivity.
  - contradiction.
  - apply IH. congruence.
Qed.

Lemma run_one_other (i j : nat) (p : pool) :
  i <> j -> nth_error (watchers (run_one i p)) j = nth_error (watchers p) j.
Proof.
  intros Hne. unfold run_one.
  destruct (nth_error (watchers p) i) as [w |]; [| reflexivity].
  destruct (returned w); [reflexivity |].
  destruct (turns w) as [| t rest]; [reflexivity |].
  destruct (iteration (input w) t) as [effs n]. cbn [watchers].
  now apply nth_error_replace_ne.
Qed.

Lemma run_schedule_app (a b : list nat) (p : pool) :
  run_schedule (a ++ b) p = run_schedule b (run_schedule a p).
Proof. apply fold_left_app. Qed.

Lemma returned_stays (schedule : list nat) :
  forall (p : pool) (j : nat) (w : watcher),
    nth_error (watchers p) j = Some w -> returned w = true ->
    nth_error (watchers (run_schedule schedule p)) j = Some w.
Proof.
  induction schedule as [| i schedule IH]; intros p j w Hnth Hret; [exact Hnth |].
  change (run_schedule (i :: schedule) p)
    with (run_schedule schedule (run_one i p)).
  apply IH; [| exact Hret].
  destruct (Nat.eq_dec i j) as [-> | Hne].
  - unfold run_one. now rewrite Hnth, Hret.
  - now rewrite run_one_other.
Qed.

Lemma monitor_stops_printed (inp : GetCommandInvocationInput)
    (pre : list turn) (t : turn) (rest : list turn) :
  forallb keeps_polling pre = true ->
  keeps_polling t = false ->
  printed (fst (monitorCommandInvocation inp (pre ++ t :: rest))) = last_words t.
Proof.
  intros Hpre Ht.
  rewrite (monitor_stops inp pre t rest Hpre Ht). cbn [fst printed].
  rewrite !printed_app, printed_quiet.
  destruct (iteration_stops inp t Ht) as (_ & -> & _).
  cbn. now rewrite app_nil_r.
Qed.

Lemma forallb_snoc {A : Type} (f : A -> bool) (l : list A) (x : A) :
  forallb f (l ++ [x]) = forallb f l && f x.
Proof.
  rewrite forallb_app. cbn. now rewrite andb_true_r.
Qed.

Lemma run_one_in_step (feeds : nat -> list turn) (i : nat) (p : pool) :
  all_in_step feeds p -> all_in_step feeds (run_one i p).
Proof.
  intros Hall j w' Hnth.
  destruct (Nat.eq_dec i j) as [<- | Hne];
    [| rewrite run_one_other in Hnth by exact Hne; now apply Hall].
  unfold run_one in Hnth.
  destruct (nth_error (watchers p) i) as [w |] eqn:Hw; [| now apply Hall].
  destruct (returned w) eqn:Hret; [now apply Hall |].
  destruct (turns w) as [| t rest] eqn:Hturns; [now apply Hall |].
  destruct (Hall i w Hw) as (consumed & Hfeed & Hstate).
  rewrite Hret in Hstate. destruct Hstate as [Hquiet Hlines].
  destruct (keeps_polling t) eqn:Ht.
  - rewrite (iteration_keeps_polling (input w) t Ht) in Hnth.
    cbn [watchers] in Hnth.
    rewrite (nth_error_replace_eq _ i _ w Hw) in Hnth. injection Hnth as <-.
    exists (consumed ++ [t]). cbn [turns returned lines].
    split; [rewrite Hfeed, Hturns, <- app_assoc; reflexivity |].
    split; [now rewrite forallb_snoc, Hquiet, Ht |].
    rewrite Hlines. reflexivity.
  - destruct (iteration_stops (input w) t Ht) as (Hn & Hpr & _).
    destruct (iteration (input w) t) as [effs n]. cbn [fst snd] in Hn, Hpr.
    subst n. cbn [watchers] in Hnth.
    rewrite (nth_error_replace_eq _ i _ w Hw) in Hnth. injection Hnth as <-.
    exists (consumed ++ [t]). cbn [turns returned lines].
    split; [rewrite Hfeed, Hturns, <- app_assoc; reflexivity |].
    exists consumed, t. rewrite Hlines, Hpr. auto.
Qed.

Lemma run_schedule_in_step (feeds : nat -> list turn) (schedule : list nat) :
  forall p, all_in_step feeds p -> all_in_step feeds (run_schedule schedule p).
Proof.
  induction schedule as [| i schedule IH]; intros p Hp; [exact Hp |].
  change (run_schedule (i :: schedule) p)
    with (run_schedule schedule (run_one i p)).
  apply IH. now apply run_one_in_step.
Qed.

Lemma replace_length {A : Type} (l : list A) :
  forall (i : nat) (x : A), List.length (replace i x l) = List.length l.
Proof.
  induction l as [| a l IH]; intros [| i] x; cbn; auto.
Qed.

Lemma run_one_length (i : nat) (p : pool) :
  List.length (watchers (run_one i p)) = List.length (watchers p).
Proof.
  unfold run_one.
  destruct (nth_error (watchers p) i) as [w |]; [| reflexivity].
  destruct (returned w); [reflexivity |].
  destruct (turns w) as [| t rest]; [reflexivity |].
  destruct (iteration (input w) t) as [effs n]. cbn [watchers].
  apply replace_length.
Qed.

Lemma run_schedule_length (schedule : list nat) :
  forall p, List.length (watchers (run_schedule schedule p))
            = List.length (watchers p).
Proof.
  induction schedule as [| i schedule IH]; intros p; [reflexivity |].
  change (run_schedule (i :: schedule) p)
    with (run_schedule schedule (run_one i p)).
  now rewrite IH, run_one_length.
Qed.

Lemma spawn_in_step (feeds : nat -> list turn) (early : nat -> list nat)
    (inputs : list GetCommandInvocationInput) :
  forall (i : nat) (p : pool),
    i = List.length (watchers p) ->
    all_in_step feeds p ->
    all_in_step feeds (spawn feeds early i inputs p).
Proof.
  induction inputs as [| inp inputs IH]; intros i p Hi Hp; [exact Hp |].
  cbn [spawn]. apply IH.
  - rewrite run_schedule_length. cbn [watchers].
    rewrite length_app. cbn. lia.
  - apply run_schedule_in_step.
    intros j w. cbn [watchers]. intros Hnth.
    destruct (Nat.lt_ge_cases j (List.length (watchers p))) as [Hlt | Hge].
    + rewrite nth_error_app1 in Hnth by exact Hlt. now apply Hp.
    + rewrite nth_error_app2 in Hnth by exact Hge.
      destruct (j - List.length (watchers p)) as [| k] eqn:Hk;
        [| destruct k; discriminate].
      cbn in Hnth. injection Hnth as <-.
      assert (j = i) as -> by lia.
      exists []. cbn. auto.
Qed.

Lemma PrintCommandInvocation_in_step (feeds : nat -> list turn)
    (early : nat -> list nat) (inputs : list GetCommandInvocationInput)
    (schedule : list nat) :
  all_in_step feeds (PrintCommandInvocation feeds early inputs schedule).
Proof.
  unfold PrintCommandInvocation.
  apply run_schedule_in_step, spawn_in_step; [reflexivity |].
  intros i w Hnth. destruct i; discriminate.
Qed.

(** X10.  A watcher is silent until it returns: under every
    interleaving of the goroutines, a watcher that has not returned has
    printed nothing, and the turns it has taken from its feed were all
    status calls answered pending, in progress or delayed, one call per
    turn; run alone on those turns [monitorCommandInvocation] is still in
    its loop, with its ticker not stopped and the wait group not
    signalled. *)
Theorem watcher_is_silent_until_it_returns
    (feeds : nat -> list turn) (early : nat -> list nat)
    (inputs : list GetCommandInvocationInput) (schedule : list nat)
    (i : nat) (w : watcher) :
  nth_error (watchers (PrintCommandInvocation feeds early inputs schedule)) i
  = Some w ->
  returned w = false ->
  lines w = []
  /\ exists taken,
       feeds i = taken ++ turns w
       /\ forallb keeps_polling taken = true
       /\ snd (monitorCommandInvocation (input w) taken) = Continue
       /\ printed (fst (monitorCommandInvocation (input w) taken)) = []
       /\ polls (fst (monitorCommandInvocation (input w) taken))
          = List.length taken
       /\ ~ In StopTicker (fst (monitorCommandInvocation (input w) taken))
       /\ ~ In WgDone (fst (monitorCommandInvocation (input w) taken)).
Proof.
  intros Hnth Hret.
  destruct (PrintCommandInvocation_in_step feeds early inputs schedule i w Hnth)
    as (taken & Hfeed & Hstep).
  rewrite Hret in Hstep. destruct Hstep as [Hquiet Hlines].
  split; [exact Hlines |].
  exists taken. split; [exact Hfeed |]. split; [exact Hquiet |].
  rewrite (monitor_running (input w) taken Hquiet). cbn [fst snd].
  split; [reflexivity |].
  split; [cbn [printed]; apply printed_quiet |].
  split; [change (polls (flat_map (fun _ => quiet_poll (input w)) taken)
                  = List.length taken); apply polls_quiet |].
  assert (Hin : forall e,
             In e (NewTicker pollInterval
                   :: flat_map (fun _ => quiet_poll (input w)) taken) ->
             e = NewTicker pollInterval
             \/ e = TickerFired pollInterval
             \/ e = CallGetCommandInvocation (input w)).
  { intros e [He | He]; [left; now symmetry |]. right.
    apply in_flat_map in He. destruct He as (t & _ & He).
    destruct He as [He | [He | []]]; [left | right]; now symmetry. }
  split; intros H; destruct (Hin _ H) as [E | [E | E]]; discriminate.
Qed.

Lemma watcher_is_silent_until_it_returns_witness :
  nth_error
    (watchers (PrintCommandInvocation two_feeds idle
                 (invocationInputs
                    {| CommandId := "cmd-1";
                       CommandInstanceIds := ["i-0"; "i-1"] |}) [1; 0]))
    1
  = Some {| input := {| InvocationCommandId := "cmd-1";
                        InvocationInstanceId := "i-1" |};
            turns := [answer "Failed" "i-1" "" "boom"];
            lines := [];
            returned := false |}
  /\ exists taken,
       two_feeds 1 = taken ++ [answer "Failed" "i-1" "" "boom"]
       /\ forallb keeps_polling taken = true.
Proof.
  split; [reflexivity |].
  destruct (watcher_is_silent_until_it_returns two_feeds idle
              (invocationInputs
                 {| CommandId := "cmd-1";
                    CommandInstanceIds := ["i-0"; "i-1"] |}) [1; 0] 1
              {| input := {| InvocationCommandId := "cmd-1";
                             InvocationInstanceId := "i-1" |};
                 turns := [answer "Failed" "i-1" "" "boom"];
                 lines := [];
                 returned := false |}
              eq_refl eq_refl) as (_ & taken & Hfeed & Hquiet & _).
  exists taken. split; [exact Hfeed | exact Hquiet].
Defined.

(** X11.  What a watcher prints does not depend on the schedule: under
    every interleaving of the goroutines, a watcher that has returned
    has printed exactly the lines that [monitorCommandInvocation] prints
    when it runs alone on the same input and the same answers. *)
Theorem watcher_output_is_schedule_independent
    (feeds : nat -> list turn) (early : nat -> list nat)
    (inputs : list GetCommandInvocationInput) (schedule : list nat)
    (i : nat) (w : watcher) :
  nth_error (watchers (PrintCommandInvocation feeds early inputs schedule)) i
  = Some w ->
  returned w = true ->
  nth_error inputs i = Some (input w)
  /\ lines w = printed (fst (monitorCommandInvocation (input w) (feeds i)))
  /\ snd (monitorCommandInvocation (input w) (feeds i)) = Return.
Proof.
  intros Hnth Hret.
  destruct (PrintCommandInvocation_spec feeds early inputs schedule) as [_ Hin].
  split.
  - rewrite <- Hin. rewrite nth_error_map, Hnth. reflexivity.
  - destruct (PrintCommandInvocation_in_step feeds early inputs schedule i w Hnth)
      as (consumed & Hfeed & Hstate).
    rewrite Hret in Hstate.
    destruct Hstate as (pre & t & -> & Hpre & Ht & Hlines).
    rewrite Hfeed, <- app_assoc. cbn [app].
    rewrite (monitor_stops_printed (input w) pre t (turns w) Hpre Ht).
    rewrite (monitor_stops (input w) pre t (turns w) Hpre Ht).
    split; [exact Hlines | reflexivity].
Qed.

Lemma watcher_output_is_schedule_independent_witness :
  exists w,
    nth_error
      (watchers (PrintCommandInvocation two_feeds idle
                   (invocationInputs
                      {| CommandId := "cmd-1";
                         CommandInstanceIds := ["i-0"; "i-1"] |}) [1; 0; 1]))
      1 = Some w
    /\ returned w = true
    /\ lines w = [error_line "i-1" "boom"].
Proof.
  eexists. split; [reflexivity |]. split; [reflexivity |].
  pose proof (watcher_output_is_schedule_independent two_feeds idle
                (invocationInputs
                   {| CommandId := "cmd-1";
                      CommandInstanceIds := ["i-0"; "i-1"] |})
                [1; 0; 1] 1 _ eq_refl eq_refl) as (_ & H & _).
  exact H.
Defined.

End DispatcherMore.

Section DispatcherProgress.

Import Dispatch Extra.
Local Open Scope string_scope.
Local Open Scope list_scope.

Lemma quiet_turns_do_not_end (ts : list turn) :
  forallb keeps_polling ts = true -> feed_ends ts = false.
Proof.
  unfold feed_ends. induction ts as [| t ts IH]; cbn; [reflexivity |].
  intros H. apply andb_true_iff in H as [Ht Hts].
  now rewrite Ht, (IH Hts).
Qed.

Lemma feed_ends_app (a b : list turn) :
  feed_ends (a ++ b) = feed_ends a || feed_ends b.
Proof. unfold feed_ends. apply existsb_app. Qed.

(** A watcher that is run often enough returns. *)
Lemma run_repeat_returns (i k : nat) :
  forall (p : pool) (w : watcher),
    nth_error (watchers p) i = Some w ->
    returned w = true
    \/ (feed_ends (turns w) = true /\ List.length (turns w) <= k) ->
    exists w',
      nth_error (watchers (run_schedule (repeat i k) p)) i = Some w'
      /\ returned w' = true.
Proof.
  induction k as [| k IH]; intros p w Hnth Hw.
  - exists w. split; [exact Hnth |].
    destruct Hw as [Hret | [Hends Hlen]]; [exact Hret |].
    destruct (turns w); [discriminate | cbn in Hlen; lia].
  - cbn [repeat].
    change (run_schedule (i :: repeat i k) p)
      with (run_schedule (repeat i k) (run_one i p)).
    destruct (returned w) eqn:Hret.
    + apply (IH _ w); [| now left].
      unfold run_one. now rewrite Hnth, Hret.
    + destruct Hw as [Hw | [Hends Hlen]]; [discriminate |].
      destruct (turns w) as [| t rest] eqn:Hturns; [discriminate |].
      cbn in Hlen.
      assert (Hstep : exists w1,
                 nth_error (watchers (run_one i p)) i = Some w1
                 /\ (returned w1 = true
                     \/ (feed_ends (turns w1) = true
                         /\ List.length (turns w1) <= k))).
      { unfold run_one. rewrite Hnth, Hret, Hturns.
        destruct (keeps_polling t) eqn:Ht.
        - rewrite (iteration_keeps_polling (input w) t Ht). cbn [watchers].
          eexists. split; [apply (nth_error_replace_eq _ i _ w Hnth) |].
          right. cbn [turns]. split; [| lia].
          unfold feed_ends in *. cbn in Hends. now rewrite Ht in Hends.
        - destruct (iteration_stops (input w) t Ht) as (Hn & _).
          destruct (iteration (input w) t) as [effs n]. cbn [snd] in Hn. subst n.
          cbn [watchers].
          eexists. split; [apply (nth_error_replace_eq _ i _ w Hnth) |].
          now left. }
      destruct Hstep as (w1 & Hnth1 & Hw1).
      apply (IH _ w1 Hnth1 Hw1).
Qed.

Lemma all_return (feeds : nat -> list turn) (n : nat) :
  forall (from : nat) (p : pool),
    all_in_step feeds p ->
    List.length (watchers p) = from + n ->
    (forall j w, j < from -> nth_error (watchers p) j = Some w ->
                 returned w = true) ->
    (forall i, from <= i < from + n -> feed_ends (feeds i) = true) ->
    forall j w,
      nth_error (watchers (run_schedule (one_after_another feeds from n) p)) j
      = Some w ->
      returned w = true.
Proof.
  induction n as [| n IH]; intros from p Hstep Hlen Hdone Hends j w Hnth.
  - cbn in Hnth. apply (Hdone j w); [| exact Hnth].
    assert (j < List.length (watchers p))
      by (apply nth_error_Some; rewrite Hnth; discriminate).
    lia.
  - cbn [one_after_another] in Hnth. rewrite run_schedule_app in Hnth.
    set (p1 := run_schedule (repeat from (List.length (feeds from))) p) in *.
    refine (IH (S from) p1 _ _ _ _ j w Hnth).
    + now apply run_schedule_in_step.
    + unfold p1. rewrite run_schedule_length. lia.
    + intros j' w' Hj' Hnth'.
      destruct (nth_error (watchers p) j') as [w0 |] eqn:Hw0.
      2:{ apply nth_error_None in Hw0. lia. }
      destruct (Nat.eq_dec j' from) as [-> | Hne].
      * destruct (run_repeat_returns from (List.length (feeds from)) p w0 Hw0)
          as (w1 & Hnth1 & Hret1).
        { destruct (returned w0) eqn:Hret0; [now left | right].
          destruct (Hstep from w0 Hw0) as (consumed & Hfeed & Hstate).
          rewrite Hret0 in Hstate. destruct Hstate as [Hquiet _].
          pose proof (Hends from ltac:(lia)) as He.
          rewrite Hfeed, feed_ends_app, (quiet_turns_do_not_end _ Hquiet) in He.
          split; [exact He |].
          rewrite Hfeed, length_app. lia. }
        unfold p1 in Hnth'. rewrite Hnth1 in Hnth'. now injection Hnth' as <-.
      * assert (Hret0 : returned w0 = true) by (apply (Hdone j' w0); [lia | exact Hw0]).
        unfold p1 in Hnth'.
        rewrite (returned_stays _ p j' w0 Hw0 Hret0) in Hnth'.
        now injection Hnth' as <-.
    + intros i Hi. apply Hends. lia.
Qed.

(** X12.  The dispatcher does return: when the answers offered to every
    watcher include one that ends it (a status that is not pending,
    inprogress or delayed, a failed status call, or a cancellation),
    then after the goroutines have run, one after the other as often as
    their answers are many, every watcher has returned and [wg.Wait()]
    returns, however the goroutines ran while they were being started. *)
Theorem dispatcher_returns_when_feeds_end
    (feeds : nat -> list turn) (early : nat -> list nat)
    (inputs : list GetCommandInvocationInput) :
  (forall i, i < List.length inputs -> feed_ends (feeds i) = true) ->
  wait_returns
    (PrintCommandInvocation feeds early inputs
       (one_after_another feeds 0 (List.length inputs))) = true
  /\ Forall (fun w => returned w = true)
       (watchers (PrintCommandInvocation feeds early inputs
                    (one_after_another feeds 0 (List.length inputs)))).
Proof.
  intros Hends.
  destruct (PrintCommandInvocation_spec feeds early inputs
              (one_after_another feeds 0 (List.length inputs))) as [Hok _].
  assert (Hall : Forall (fun w => returned w = true)
                   (watchers (PrintCommandInvocation feeds early inputs
                                (one_after_another feeds 0 (List.length inputs))))).
  { apply Forall_forall. intros w Hin.
    apply In_nth_error in Hin as [j Hj].
    unfold PrintCommandInvocation in Hj.
    refine (all_return feeds (List.length inputs) 0 _ _ _ _ _ j w Hj).
    - apply spawn_in_step; [reflexivity |].
      intros i w' Hnth. destruct i; discriminate.
    - assert (H0 : pool_ok {| wg := 0; watchers := []; stdout := [] |}).
      { split; cbn; auto. }
      destruct (spawn_spec feeds early inputs 0 _ H0) as (_ & Hin').
      apply (f_equal (@List.length _)) in Hin'.
      rewrite length_map in Hin'. cbn in Hin'. exact Hin'.
    - intros j' w' Hj'. lia.
    - intros i Hi. apply Hends. lia. }
  split; [| exact Hall].
  now apply wait_returns_iff.
Qed.

Lemma dispatcher_returns_when_feeds_end_witness :
  (forall i, i < List.length
                   (invocationInputs
                      {| CommandId := "cmd-1";
                         CommandInstanceIds := ["i-0"; "i-1"] |}) ->
             feed_ends (two_feeds i) = true)
  /\ wait_returns
       (PrintCommandInvocation two_feeds idle
          (invocationInputs
             {| CommandId := "cmd-1"; CommandInstanceIds := ["i-0"; "i-1"] |})
          (one_after_another two_feeds 0 2)) = true.
Proof.
  assert (H : forall i, i < List.length
                              (invocationInputs
                                 {| CommandId := "cmd-1";
                                    CommandInstanceIds := ["i-0"; "i-1"] |}) ->
                        feed_ends (two_feeds i) = true).
  { intros [| [| i]] Hi; [reflexivity | reflexivity | cbn in Hi; lia]. }
  split; [exact H |].
  apply (dispatcher_returns_when_feeds_end two_feeds idle
           (invocationInputs
              {| CommandId := "cmd-1"; CommandInstanceIds := ["i-0"; "i-1"] |}) H).
Defined.

Lemma all_lines_replace (ws : list watcher) :
  forall (i : nat) (w w' : watcher) (new : list line),
    nth_error ws i = Some w ->
    lines w' = lines w ++ new ->
    Permutation (all_lines (replace i w' ws)) (all_lines ws ++ new).
Proof.
  unfold all_lines.
  induction ws as [| a ws IH]; intros [| i] w w' new Hnth Hl;
    cbn [replace nth_error map List.concat] in *; try discriminate.
  - injection Hnth as ->. rewrite Hl, <- !app_assoc.
    apply Permutation_app_head, Permutation_app_comm.
  - rewrite <- app_assoc. apply Permutation_app_head.
    now apply (IH i w w' new).
Qed.

Lemma run_one_stdout (i : nat) (p : pool) :
  Permutation (stdout p) (all_lines (watchers p)) ->
  Permutation (stdout (run_one i p)) (all_lines (watchers (run_one i p))).
Proof.
  intros Hp. unfold run_one.
  destruct (nth_error (watchers p) i) as [w |] eqn:Hw; [| exact Hp].
  destruct (returned w); [exact Hp |].
  destruct (turns w) as [| t rest]; [exact Hp |].
  destruct (iteration (input w) t) as [effs n]. cbn [stdout watchers].
  symmetry.
  etransitivity; [apply (all_lines_replace _ i w _ (printed effs) Hw); reflexivity |].
  apply Permutation_app_tail. now symmetry.
Qed.

Lemma run_schedule_stdout (schedule : list nat) :
  forall p,
    Permutation (stdout p) (all_lines (watchers p)) ->
    Permutation (stdout (run_schedule schedule p))
      (all_lines (watchers (run_schedule schedule p))).
Proof.
  induction schedule as [| i schedule IH]; intros p Hp; [exact Hp |].
  change (run_schedule (i :: schedule) p)
    with (run_schedule schedule (run_one i p)).
  apply IH. now apply run_one_stdout.
Qed.

Lemma spawn_stdout (feeds : nat -> list turn) (early : nat -> list nat)
    (inputs : list GetCommandInvocationInput) :
  forall (i : nat) (p : pool),
    Permutation (stdout p) (all_lines (watchers p)) ->
    Permutation (stdout (spawn feeds early i inputs p))
      (all_lines (watchers (spawn feeds early i inputs p))).
Proof.
  induction inputs as [| inp inputs IH]; intros i p Hp; [exact Hp |].
  cbn [spawn]. apply IH, run_schedule_stdout. cbn [stdout watchers].
  unfold all_lines in *. rewrite map_app, concat_app. cbn.
  now rewrite app_nil_r.
Qed.

Lemma tidy_lines_bound (ws : list watcher) :
  Forall tidy ws -> List.length (all_lines ws) <= List.length ws.
Proof.
  unfold all_lines. induction 1 as [| w ws [_ Hw] _ IH]; cbn; [lia |].
  rewrite length_app. lia.
Qed.

(** X13.  Under every schedule, standard output holds exactly the lines
    the watchers have printed, none lost and none doubled (it is a
    rearrangement of them), and so at most one line per invocation
    input. *)
Theorem stdout_is_the_watchers_lines
    (feeds : nat -> list turn) (early : nat -> list nat)
    (inputs : list GetCommandInvocationInput) (schedule : list nat) :
  Permutation
    (stdout (PrintCommandInvocation feeds early inputs schedule))
    (List.concat
       (map lines (watchers (PrintCommandInvocation feeds early inputs schedule))))
  /\ List.length (stdout (PrintCommandInvocation feeds early inputs schedule))
     <= List.length inputs.
Proof.
  assert (Hperm : Permutation
            (stdout (PrintCommandInvocation feeds early inputs schedule))
            (all_lines
               (watchers (PrintCommandInvocation feeds early inputs schedule)))).
  { unfold PrintCommandInvocation.
    apply run_schedule_stdout, spawn_stdout. cbn. constructor. }
  split; [exact Hperm |].
  rewrite (Permutation_length Hperm).
  destruct (PrintCommandInvocation_spec feeds early inputs schedule)
    as [[_ Htidy] Hin].
  rewrite <- Hin at 2. rewrite length_map.
  now apply tidy_lines_bound.
Qed.

End DispatcherProgress.

(** * Properties of the instance inventory *)

Section InventoryFacts.

Import Inventory.
Local Open Scope string_scope.
Local Open Scope list_scope.

Lemma batchSize_bounds (ids : list string) :
  ids <> [] ->
  1 <= batchSize ids <= 199 /\ batchSize ids <= List.length ids.
Proof.
  intros Hne. unfold batchSize.
  destruct ids as [| x ids]; [contradiction |].
  destruct (Nat.leb_spec 200 (List.length (x :: ids))); cbn in *; lia.
Qed.

(** X14.  [FindInstances] asks for the instances in batches: every
    [DescribeInstances] call carries at least one and at most 199
    instance ids, the batches taken together are an initial part of the
    ids, in order, and when the function returns a table every id has
    been asked for exactly once, in as few calls as batches of 199
    allow. *)
Theorem FindInstances_asks_in_batches
    (answers : list (error + DescribeInstancesOutput)) :
  forall (instanceIDs : list string) (t : table),
    Forall (fun batch => 1 <= List.length batch <= 199)
      (fst (describe_batches answers instanceIDs t))
    /\ (exists rest,
          instanceIDs
          = List.concat (fst (describe_batches answers instanceIDs t)) ++ rest
          /\ forall t',
               snd (describe_batches answers instanceIDs t) = Ok t' ->
               rest = []
               /\ List.length instanceIDs
                  <= 199 * List.length (fst (describe_batches answers instanceIDs t))
                  < List.length instanceIDs + 199).
Proof.
  induction answers as [| a answers IH]; intros ids t.
  - destruct ids as [| x ids]; cbn [describe_batches fst snd].
    + split; [constructor |]. exists []. split; [reflexivity |].
      intros t' _. cbn. split; [reflexivity | lia].
    + destruct (batchSize_bounds (x :: ids) ltac:(discriminate)) as [Hb Hl].
      split.
      * constructor; [| constructor]. rewrite length_firstn. lia.
      * exists (skipn (batchSize (x :: ids)) (x :: ids)).
        split; [| discriminate].
        cbn [List.concat]. rewrite app_nil_r. symmetry. apply firstn_skipn.
  - destruct ids as [| x ids]; cbn [describe_batches].
    + cbn. split; [constructor |]. exists []. split; [reflexivity |].
      intros t' _. split; [reflexivity | lia].
    + destruct (batchSize_bounds (x :: ids) ltac:(discriminate)) as [Hb Hl].
      set (n := batchSize (x :: ids)) in *.
      assert (Hfirst : List.length (firstn n (x :: ids)) = n)
        by (rewrite length_firstn; lia).
      destruct a as [err | output].
      * cbn [fst snd]. split.
        -- constructor; [| constructor]. lia.
        -- exists (skipn n (x :: ids)). split; [| discriminate].
           cbn [List.concat]. rewrite app_nil_r. symmetry. apply firstn_skipn.
      * destruct (add_reservations t (Reservations output)) as [t1 |].
        -- specialize (IH (skipn n (x :: ids)) t1).
           destruct (describe_batches answers (skipn n (x :: ids)) t1)
             as [calls r].
           cbn [fst snd] in *. destruct IH as (Hall & rest & Hrest & Hok).
           split.
           ++ constructor; [lia | exact Hall].
           ++ exists rest. split.
              ** cbn [List.concat]. rewrite <- app_assoc, <- Hrest.
                 symmetry. apply firstn_skipn.
              ** intros t' Ht'. destruct (Hok t' Ht') as (-> & Hcount).
                 split; [reflexivity |].
                 rewrite length_skipn in Hcount. cbn [List.length] in *.
                 unfold n, batchSize in *. cbn [List.length] in *.
                 destruct (Nat.leb_spec 200 (S (List.length ids))); lia.
        -- cbn [fst snd]. split.
           ++ constructor; [| constructor]. lia.
           ++ exists (skipn n (x :: ids)). split; [| discriminate].
              cbn [List.concat]. rewrite app_nil_r. symmetry. apply firstn_skipn.
Qed.

Lemma FindInstances_asks_in_batches_witness :
  snd (describe_batches
         [inr {| Reservations := []; NextToken := None |};
          inr {| Reservations := []; NextToken := None |}]
         (repeat "i-0" 200) []) = Ok []
  /\ map (@List.length string)
       (fst (describe_batches
               [inr {| Reservations := []; NextToken := None |};
                inr {| Reservations := []; NextToken := None |}]
               (repeat "i-0" 200) [])) = [199; 1]
  /\ 200 <= 199 * 2 < 200 + 199.
Proof.
  split; [reflexivity |]. split; [reflexivity |].
  pose proof (FindInstances_asks_in_batches
                [inr {| Reservations := []; NextToken := None |};
                 inr {| Reservations := []; NextToken := None |}]
                (repeat "i-0" 200) []) as (_ & rest & _ & H).
  destruct (H [] eq_refl) as (_ & Hc). exact Hc.
Defined.

(** The target [FindInstances] stores for an instance, and its key. *)
Lemma table_get_set_same (k : string) (v : Dispatch.Target) (t : table) :
  table_get k (table_set k v t) = Some v.
Proof.
  induction t as [| [k' v'] t IH]; cbn.
  - now rewrite String.eqb_refl.
  - destruct (String.eqb_spec k' k) as [-> | Hne]; cbn.
    + now rewrite String.eqb_refl.
    + destruct (String.eqb_spec k' k); [contradiction | exact IH].
Qed.

Lemma table_get_set_other (k k' : string) (v : Dispatch.Target) (t : table) :
  k <> k' -> table_get k' (table_set k v t) = table_get k' t.
Proof.
  intros Hne. induction t as [| [k0 v0] t IH]; cbn.
  - destruct (String.eqb_spec k k'); [contradiction | reflexivity].
  - destruct (String.eqb_spec k0 k) as [-> | Hne0]; cbn.
    + destruct (String.eqb_spec k k'); [contradiction | reflexivity].
    + now rewrite IH.
Qed.

Lemma table_set_In (k : string) (v : Dispatch.Target) (t : table) :
  forall e, In e (table_set k v t) -> e = (k, v) \/ In e t.
Proof.
  induction t as [| [k' v'] t IH]; intros e; cbn.
  - intros [<- | []]. now left.
  - destruct (String.eqb_spec k' k) as [-> | Hne]; cbn.
    + intros [<- | H]; auto.
    + intros [<- | H]; auto. destruct (IH e H); auto.
Qed.

Lemma table_set_keys (k : string) (v : Dispatch.Target) (t : table) :
  forall k', In k' (map fst (table_set k v t)) <-> k' = k \/ In k' (map fst t).
Proof.
  induction t as [| [k0 v0] t IH]; intros k'; cbn.
  - split; [intros [<- | []]; now left | intros [-> | []]; now left].
  - destruct (String.eqb_spec k0 k) as [-> | Hne]; cbn.
    + split; [intros [H | H]; auto | intros [H | [H | H]]; auto].
    + rewrite IH. split; [intros [H | [H | H]] | intros [H | [H | H]]]; auto.
Qed.

Lemma table_set_NoDup (k : string) (v : Dispatch.Target) (t : table) :
  NoDup (map fst t) -> NoDup (map fst (table_set k v t)).
Proof.
  induction t as [| [k0 v0] t IH]; cbn; intros Hnd.
  - constructor; [intros [] | constructor].
  - inversion Hnd as [| ? ? Hnot Hrest]; subst.
    destruct (String.eqb_spec k0 k) as [-> | Hne]; cbn.
    + constructor; assumption.
    + constructor; [| now apply IH].
      rewrite table_set_keys. intros [H | H]; [congruence | contradiction].
Qed.

Lemma table_get_In (t : table) :
  forall k, (exists v, table_get k t = Some v) <-> In k (map fst t).
Proof.
  induction t as [| [k0 v0] t IH]; intros k; cbn.
  - split; [intros [v H]; discriminate | intros []].
  - destruct (String.eqb_spec k0 k) as [-> | Hne].
    + split; [now left | intros _; now exists v0].
    + rewrite IH. split; [now right | intros [H | H]; [contradiction | exact H]].
Qed.

Lemma add_instance_table (t : table) (seen : list Instance) (i : Instance) :
  table_of t seen ->
  match add_instance t i with
  | None => InstanceId i = None
  | Some t' => table_of t' (seen ++ [i])
  end.
Proof.
  intros (Hnd & Hsound & Hall). unfold add_instance.
  destruct (InstanceId i) as [id |] eqn:Hid; [| reflexivity].
  assert (Hentry : entry_of i
                   = (displayName (name_of_tags (Tags i)) id,
                      {| Dispatch.Name := id;
                         Dispatch.PublicDomain := ToString (PublicDnsName i);
                         Dispatch.PrivateDomain := ToString (PrivateDnsName i) |})).
  { unfold entry_of. now rewrite Hid. }
  cbn [ToString]. split; [| split].
  - now apply table_set_NoDup.
  - intros e He. apply table_set_In in He as [-> | He].
    + exists i. split; [apply in_or_app; right; now left | now rewrite Hentry].
    + destruct (Hsound e He) as (j & Hj & ->).
      exists j. split; [apply in_or_app; now left | reflexivity].
  - intros j Hj. apply in_app_or in Hj as [Hj | [<- | []]].
    + destruct (Hall j Hj) as [Hset Hkey]. split; [exact Hset |].
      apply table_set_keys. now right.
    + split; [congruence |]. rewrite Hentry. cbn [fst].
      apply table_set_keys. now left.
Qed.

Lemma add_instances_table (instances : list Instance) :
  forall (t : table) (seen : list Instance),
    table_of t seen ->
    match add_instances t instances with
    | None => exists i, In i instances /\ InstanceId i = None
    | Some t' => table_of t' (seen ++ instances)
    end.
Proof.
  induction instances as [| i instances IH]; intros t seen Ht; cbn.
  - now rewrite app_nil_r.
  - pose proof (add_instance_table t seen i Ht) as Hi.
    destruct (add_instance t i) as [t1 |].
    + specialize (IH t1 (seen ++ [i]) Hi).
      destruct (add_instances t1 instances) as [t2 |].
      * now rewrite <- app_assoc in IH.
      * destruct IH as (j & Hj & Hnil). exists j. auto.
    + exists i. auto.
Qed.

Lemma add_reservations_table (reservations : list Reservation) :
  forall (t : table) (seen : list Instance),
    table_of t seen ->
    match add_reservations t reservations with
    | None => exists i, In i (List.concat reservations) /\ InstanceId i = None
    | Some t' => table_of t' (seen ++ List.concat reservations)
    end.
Proof.
  induction reservations as [| r reservations IH]; intros t seen Ht; cbn.
  - now rewrite app_nil_r.
  - pose proof (add_instances_table r t seen Ht) as Hr.
    destruct (add_instances t r) as [t1 |].
    + specialize (IH t1 (seen ++ r) Hr).
      destruct (add_reservations t1 reservations) as [t2 |].
      * now rewrite <- app_assoc in IH.
      * destruct IH as (j & Hj & Hnil). exists j.
        split; [apply in_or_app; now right | exact Hnil].
    + destruct Hr as (j & Hj & Hnil). exists j.
      split; [apply in_or_app; now left | exact Hnil].
Qed.

Lemma describe_batches_table (answers : list (error + DescribeInstancesOutput)) :
  forall (ids : list string) (t : table) (seen : list Instance),
    table_of t seen ->
    match snd (describe_batches answers ids t) with
    | Ok t' =>
        exists outputs,
          firstn (List.length (fst (describe_batches answers ids t))) answers
          = map inr outputs
          /\ table_of t' (seen ++ instances_of outputs)
    | Panic =>
        exists i, In i (instances_of (outputs_of answers)) /\ InstanceId i = None
    | _ => True
    end.
Proof.
  induction answers as [| a answers IH]; intros ids t seen Ht.
  - destruct ids as [| x ids]; cbn [describe_batches fst snd]; [| exact I].
    exists []. cbn. now rewrite app_nil_r.
  - destruct ids as [| x ids]; cbn [describe_batches].
    + cbn [fst snd]. exists []. cbn. now rewrite app_nil_r.
    + destruct a as [err | output]; [exact I |].
      pose proof (add_reservations_table (Reservations output) t seen Ht) as Hr.
      destruct (add_reservations t (Reservations output)) as [t1 |].
      * specialize (IH (skipn (batchSize (x :: ids)) (x :: ids)) t1 _ Hr).
        destruct (describe_batches answers
                    (skipn (batchSize (x :: ids)) (x :: ids)) t1) as [calls r].
        cbn [fst snd] in *.
        destruct r as [t' | f | |]; try exact I.
        -- destruct IH as (outputs & Hfirst & Htab).
           exists (output :: outputs). cbn [List.length firstn map].
           split; [now rewrite Hfirst |].
           unfold instances_of in *. cbn [map List.concat].
           now rewrite app_assoc.
        -- destruct IH as (i & Hi & Hnil). exists i. split; [| exact Hnil].
           unfold instances_of in *. cbn [outputs_of map List.concat].
           apply in_or_app. now right.
      * cbn [snd]. destruct Hr as (i & Hi & Hnil). exists i. split; [| exact Hnil].
        unfold instances_of. cbn [outputs_of map List.concat].
        apply in_or_app. now left.
Qed.

(** X15.  When [FindInstances] returns a table, the answers it used
    were all outputs, one per call, and the table has one entry per
    display name among the instances of those outputs: no key occurs
    twice, every entry is the display name and the target (id, public
    and private DNS name) of one of those instances, and every one of
    those instances has its id pointer set and its display name in the
    table.  When it panics, some instance of the answers has a nil id
    pointer. *)
Theorem FindInstances_table_covers_instances
    (answers : list (error + DescribeInstancesOutput))
    (instanceIDs : list string) :
  match snd (FindInstances (Ok instanceIDs) answers) with
  | Ok t =>
      exists outputs,
        firstn (List.length (fst (FindInstances (Ok instanceIDs) answers)))
          answers = map inr outputs
        /\ NoDup (map fst t)
        /\ (forall key target,
              In (key, target) t ->
              exists i,
                In i (instances_of outputs)
                /\ key = displayName (name_of_tags (Tags i))
                           (ToString (InstanceId i))
                /\ Dispatch.Name target = ToString (InstanceId i)
                /\ Dispatch.PublicDomain target = ToString (PublicDnsName i)
                /\ Dispatch.PrivateDomain target = ToString (PrivateDnsName i))
        /\ (forall i,
              In i (instances_of outputs) ->
              InstanceId i <> None
              /\ exists target,
                   table_get (displayName (name_of_tags (Tags i))
                                (ToString (InstanceId i))) t = Some target)
  | Panic =>
      exists i, In i (instances_of (outputs_of answers)) /\ InstanceId i = None
  | _ => True
  end.
Proof.
  cbn [FindInstances].
  assert (H0 : table_of [] []).
  { split; [constructor |]. split; [intros e [] | intros i []]. }
  pose proof (describe_batches_table answers instanceIDs [] [] H0) as H.
  destruct (snd (describe_batches answers instanceIDs [])) as [t | f | |];
    try exact H.
  destruct H as (outputs & Hfirst & Hnd & Hsound & Hall).
  exists outputs. cbn [app] in *. split; [exact Hfirst |]. split; [exact Hnd |].
  split.
  - intros key target Hin. destruct (Hsound _ Hin) as (i & Hi & He).
    exists i. unfold entry_of in He. injection He as -> ->. cbn. auto.
  - intros i Hi. destruct (Hall i Hi) as [Hset Hkey]. split; [exact Hset |].
    apply table_get_In. exact Hkey.
Qed.

Lemma more_information_done (answers : list (error + InformationPage))
    (nextToken : option string) (acc : list string) :
  has_more nextToken = false ->
  more_information answers nextToken acc = ([], Ok acc).
Proof.
  intros H. destruct answers; cbn [more_information]; now rewrite H.
Qed.

Lemma more_information_chain (pages : list InformationPage) :
  forall (last : InformationPage) (rest : list (error + InformationPage))
         (nextToken : option string) (acc : list string),
    has_more nextToken = true ->
    Forall (fun p => has_more (PageNextToken p) = true) pages ->
    has_more (PageNextToken last) = false ->
    more_information (map inr pages ++ inr last :: rest) nextToken acc
    = (nextToken :: map PageNextToken pages,
       Ok (acc ++ flat_map (fun p => page_ids (InstanceInformationList p))
                    (pages ++ [last]))).
Proof.
  induction pages as [| p pages IH]; intros last rest tok acc Htok Hall Hlast.
  - cbn [map app more_information]. rewrite Htok.
    rewrite (more_information_done rest _ _ Hlast). cbn.
    now rewrite app_nil_r.
  - inversion Hall as [| ? ? Hp Hps]; subst.
    cbn [map app more_information]. rewrite Htok.
    rewrite (IH last rest (PageNextToken p) _ Hp Hps Hlast).
    cbn [flat_map app]. now rewrite <- app_assoc.
Qed.

Lemma more_information_error (pages : list InformationPage) :
  forall (err : error) (rest : list (error + InformationPage))
         (nextToken : option string) (acc : list string),
    has_more nextToken = true ->
    Forall (fun p => has_more (PageNextToken p) = true) pages ->
    more_information (map inr pages ++ inl err :: rest) nextToken acc
    = (nextToken :: map PageNextToken pages,
       Err (Failed "failed to describe additional instance information" err)).
Proof.
  induction pages as [| p pages IH]; intros err rest tok acc Htok Hall.
  - cbn [map app more_information]. now rewrite Htok.
  - inversion Hall as [| ? ? Hp Hps]; subst.
    cbn [map app more_information]. rewrite Htok.
    now rewrite (IH err rest (PageNextToken p) _ Hp Hps).
Qed.

(** X16.  [FindInstanceIdsWithConnectedSSM] follows the tokens: when
    the service answers with pages that each carry a non-empty next
    token and then with a page whose token is nil or empty, the function
    makes one call per page, the first without a token and each other
    with the token of the page before, never asks for more, and returns
    the ids of all those pages in order, the nil ids left out.  When
    instead an error follows the pages, the function returns that error
    in its frame and none of the ids collected so far. *)
Theorem FindInstanceIds_follows_tokens
    (pages : list InformationPage) (last : InformationPage)
    (rest : list (error + InformationPage)) (err : error) :
  Forall (fun p => has_more (PageNextToken p) = true) pages ->
  has_more (PageNextToken last) = false ->
  FindInstanceIdsWithConnectedSSM (map inr pages ++ inr last :: rest)
  = (None :: map PageNextToken pages,
     Ok (flat_map (fun p => page_ids (InstanceInformationList p))
           (pages ++ [last])))
  /\ FindInstanceIdsWithConnectedSSM (map inr pages ++ inl err :: rest)
     = (None :: map PageNextToken pages,
        Err (Failed (match pages with
                     | [] => "failed to describe instance information"
                     | _ => "failed to describe additional instance information"
                     end) err)).
Proof.
  intros Hall Hlast. destruct pages as [| p pages].
  - cbn [map app FindInstanceIdsWithConnectedSSM].
    rewrite (more_information_done rest _ _ Hlast). cbn.
    now rewrite app_nil_r.
  - inversion Hall as [| ? ? Hp Hps]; subst.
    cbn [map app FindInstanceIdsWithConnectedSSM]. split.
    + now rewrite (more_information_chain pages last rest _ _ Hp Hps Hlast).
    + now rewrite (more_information_error pages err rest _ _ Hp Hps).
Qed.

Lemma FindInstanceIds_follows_tokens_witness :
  Forall (fun p => has_more (PageNextToken p) = true)
    [{| InstanceInformationList := [Some "i-0"; None];
        PageNextToken := Some "t1" |}]
  /\ has_more (PageNextToken
                 {| InstanceInformationList := [Some "i-1"];
                    PageNextToken := Some "" |}) = false
  /\ FindInstanceIdsWithConnectedSSM
       (map inr [{| InstanceInformationList := [Some "i-0"; None];
                    PageNextToken := Some "t1" |}]
        ++ inr {| InstanceInformationList := [Some "i-1"];
                  PageNextToken := Some "" |}
        :: [inl EOF])
     = ([None; Some "t1"], Ok ["i-0"; "i-1"]).
Proof.
  assert (H1 : Forall (fun p => has_more (PageNextToken p) = true)
                 [{| InstanceInformationList := [Some "i-0"; None];
                     PageNextToken := Some "t1" |}]).
  { constructor; [reflexivity | constructor]. }
  split; [exact H1 |]. split; [reflexivity |].
  apply (FindInstanceIds_follows_tokens
           [{| InstanceInformationList := [Some "i-0"; None];
               PageNextToken := Some "t1" |}]
           {| InstanceInformationList := [Some "i-1"];
              PageNextToken := Some "" |}
           [inl EOF] EOF H1 eq_refl).
Defined.

(** The instance [findInstanceWithIP] answers with. *)
Lemma instance_with_ip_found (ip : string) (instances : list Instance) :
  forall id,
    instance_with_ip ip instances = Some id ->
    id <> EmptyString ->
    exists i,
      In i instances
      /\ InstanceId i = Some id
      /\ (PublicIpAddress i <> None \/ PrivateIpAddress i <> None)
      /\ (ip = ToString (PublicIpAddress i)
          \/ ip = ToString (PrivateIpAddress i)).
Proof.
  induction instances as [| i instances IH]; intros id Hfound Hid.
  - cbn in Hfound. congruence.
  - cbn [instance_with_ip] in Hfound.
    assert (Hrest : instance_with_ip ip instances = Some id ->
                    exists j, In j (i :: instances)
                              /\ InstanceId j = Some id
                              /\ (PublicIpAddress j <> None
                                  \/ PrivateIpAddress j <> None)
                              /\ (ip = ToString (PublicIpAddress j)
                                  \/ ip = ToString (PrivateIpAddress j))).
    { intros H. destruct (IH id H Hid) as (j & Hj & Hrest).
      exists j. split; [now right | exact Hrest]. }
    assert (Hhere : PublicIpAddress i <> None \/ PrivateIpAddress i <> None ->
                    (if String.eqb ip (ToString (PublicIpAddress i))
                        || String.eqb ip (ToString (PrivateIpAddress i))
                     then InstanceId i
                     else instance_with_ip ip instances) = Some id ->
                    exists j, In j (i :: instances)
                              /\ InstanceId j = Some id
                              /\ (PublicIpAddress j <> None
                                  \/ PrivateIpAddress j <> None)
                              /\ (ip = ToString (PublicIpAddress j)
                                  \/ ip = ToString (PrivateIpAddress j))).
    { intros Hset H.
      destruct (String.eqb_spec ip (ToString (PublicIpAddress i))) as [Hpub | _];
        [| destruct (String.eqb_spec ip (ToString (PrivateIpAddress i)))
             as [Hpriv | _]]; cbn [orb] in H.
      - exists i. split; [now left |]. auto.
      - exists i. split; [now left |]. auto.
      - now apply Hrest. }
    destruct (PublicIpAddress i) as [pub |] eqn:Hpub;
      destruct (PrivateIpAddress i) as [priv |] eqn:Hpriv.
    + apply Hhere; [left; discriminate | exact Hfound].
    + apply Hhere; [left; discriminate | exact Hfound].
    + apply Hhere; [right; discriminate | exact Hfound].
    + now apply Hrest.
Qed.

Lemma instances_of_cons (o : DescribeInstancesOutput)
    (outputs : list DescribeInstancesOutput) :
  instances_of (o :: outputs) = List.concat (Reservations o) ++ instances_of outputs.
Proof. reflexivity. Qed.

Lemma more_instances_by_ip_found (ip : string)
    (answers : list (error + DescribeInstancesOutput)) :
  forall (nextToken : option string) (id : string),
    snd (more_instances_by_ip ip answers nextToken) = Ok id ->
    id <> EmptyString
    /\ exists i,
         In i (instances_of (outputs_of answers))
         /\ InstanceId i = Some id
         /\ (PublicIpAddress i <> None \/ PrivateIpAddress i <> None)
         /\ (ip = ToString (PublicIpAddress i)
             \/ ip = ToString (PrivateIpAddress i)).
Proof.
  induction answers as [| a answers IH]; intros tok id Hok;
    cbn [more_instances_by_ip] in Hok.
  - destruct (has_more tok); cbn in Hok; discriminate.
  - destruct (has_more tok); [| cbn in Hok; discriminate].
    destruct a as [err | output]; [cbn in Hok; discriminate |].
    unfold findInstanceWithIP in Hok.
    destruct (instance_with_ip ip (List.concat (Reservations output)))
      as [found |] eqn:Hfound; [| cbn in Hok; discriminate].
    destruct (String.eqb_spec found EmptyString) as [-> | Hne]; cbn [negb] in Hok.
    + destruct (more_instances_by_ip ip answers (NextToken output))
        as [calls r] eqn:Hmore.
      cbn [snd] in Hok. subst r.
      destruct (IH (NextToken output) id) as (Hid & i & Hi & Hrest).
      { now rewrite Hmore. }
      split; [exact Hid |]. exists i. split; [| exact Hrest].
      cbn [outputs_of]. rewrite instances_of_cons. apply in_or_app. now right.
    + cbn [snd] in Hok. injection Hok as <-. split; [exact Hne |].
      destruct (instance_with_ip_found ip _ found Hfound Hne) as (i & Hi & Hrest).
      exists i. split; [| exact Hrest].
      cbn [outputs_of]. rewrite instances_of_cons. apply in_or_app. now left.
Qed.

(** X17.  [FindInstanceIdByIp] never returns an empty id without an
    error: an id it returns is not empty and is the id of an instance of
    one of the answers that has an address set and whose public or
    private address is the one looked for. *)
Theorem FindInstanceIdByIp_returns_a_matching_instance
    (ip : string) (answers : list (error + DescribeInstancesOutput))
    (id : string) :
  snd (FindInstanceIdByIp ip answers) = Ok id ->
  id <> EmptyString
  /\ exists i,
       In i (instances_of (outputs_of answers))
       /\ InstanceId i = Some id
       /\ (PublicIpAddress i <> None \/ PrivateIpAddress i <> None)
       /\ (ip = ToString (PublicIpAddress i)
           \/ ip = ToString (PrivateIpAddress i)).
Proof.
  intros Hok. unfold FindInstanceIdByIp in Hok.
  destruct answers as [| [err | output] answers]; try (cbn in Hok; discriminate).
  unfold findInstanceWithIP in Hok.
  destruct (instance_with_ip ip (List.concat (Reservations output)))
    as [found |] eqn:Hfound; [| cbn in Hok; discriminate].
  destruct (String.eqb_spec found EmptyString) as [-> | Hne]; cbn [negb] in Hok.
  - destruct (more_instances_by_ip ip answers (NextToken output))
      as [calls r] eqn:Hmore.
    cbn [snd] in Hok. subst r.
    destruct (more_instances_by_ip_found ip answers (NextToken output) id)
      as (Hid & i & Hi & Hrest).
    { now rewrite Hmore. }
    split; [exact Hid |]. exists i. split; [| exact Hrest].
    cbn [outputs_of]. rewrite instances_of_cons. apply in_or_app. now right.
  - cbn [snd] in Hok. injection Hok as <-. split; [exact Hne |].
    destruct (instance_with_ip_found ip _ found Hfound Hne) as (i & Hi & Hrest).
    exists i. split; [| exact Hrest].
    cbn [outputs_of]. rewrite instances_of_cons. apply in_or_app. now left.
Qed.

Lemma FindInstanceIdByIp_returns_a_matching_instance_witness :
  snd (FindInstanceIdByIp "10.0.0.7" two_pages) = Ok "i-7"
  /\ "i-7" <> EmptyString.
Proof.
  split; [reflexivity |].
  apply (FindInstanceIdByIp_returns_a_matching_instance
           "10.0.0.7" two_pages "i-7").
  reflexivity.
Defined.

Lemma domain_of_instance_found (id : string) (instances : list Instance) :
  forall x rest,
    domain_of_instance id instances = x :: rest ->
    exists i,
      In i instances
      /\ ToString (InstanceId i) = id
      /\ x :: rest = [ToString (PublicDnsName i); ToString (PrivateDnsName i)].
Proof.
  induction instances as [| i instances IH]; intros x rest H; cbn in H.
  - discriminate.
  - destruct (String.eqb_spec (ToString (InstanceId i)) id) as [Heq | Hne].
    + exists i. split; [now left |]. split; [exact Heq | now rewrite H].
    + destruct (IH x rest H) as (j & Hj & Hrest).
      exists j. split; [now right | exact Hrest].
Qed.

Lemma more_domains_found (instanceID : string)
    (answers : list (error + DescribeInstancesOutput)) :
  forall (nextToken : option string) (domain : list string),
    snd (more_domains instanceID answers nextToken) = Ok domain ->
    exists i,
      In i (instances_of (outputs_of answers))
      /\ ToString (InstanceId i) = instanceID
      /\ domain = [ToString (PublicDnsName i); ToString (PrivateDnsName i)].
Proof.
  induction answers as [| a answers IH]; intros tok domain Hok;
    cbn [more_domains] in Hok.
  - destruct (has_more tok); cbn in Hok; discriminate.
  - destruct (has_more tok); [| cbn in Hok; discriminate].
    destruct a as [err | output]; [cbn in Hok; discriminate |].
    unfold findDomainForInstance in Hok.
    destruct (domain_of_instance instanceID (List.concat (Reservations output)))
      as [| x rest] eqn:Hfound.
    + destruct (more_domains instanceID answers (NextToken output))
        as [calls r] eqn:Hmore.
      cbn [snd] in Hok. subst r.
      destruct (IH (NextToken output) domain) as (i & Hi & Hrest).
      { now rewrite Hmore. }
      exists i. split; [| exact Hrest].
      cbn [outputs_of]. rewrite instances_of_cons. apply in_or_app. now right.
    + cbn [snd] in Hok. injection Hok as <-.
      destruct (domain_of_instance_found instanceID _ x rest Hfound)
        as (i & Hi & Hid & Hdom).
      exists i. split; [| auto].
      cbn [outputs_of]. rewrite instances_of_cons. apply in_or_app. now left.
Qed.

(** X18.  A list [FindDomainByInstanceId] returns without error always
    has exactly two elements, the public and the private DNS name (empty
    where the pointer is nil) of an instance of the answers whose id is
    the one looked for; it is never empty. *)
Theorem FindDomainByInstanceId_returns_both_names
    (instanceID : string) (answers : list (error + DescribeInstancesOutput))
    (domain : list string) :
  snd (FindDomainByInstanceId instanceID answers) = Ok domain ->
  List.length domain = 2
  /\ exists i,
       In i (instances_of (outputs_of answers))
       /\ ToString (InstanceId i) = instanceID
       /\ domain = [ToString (PublicDnsName i); ToString (PrivateDnsName i)].
Proof.
  intros Hok.
  assert (H : exists i,
             In i (instances_of (outputs_of answers))
             /\ ToString (InstanceId i) = instanceID
             /\ domain = [ToString (PublicDnsName i);
                          ToString (PrivateDnsName i)]).
  { unfold FindDomainByInstanceId in Hok.
    destruct answers as [| [err | output] answers];
      try (cbn in Hok; discriminate).
    unfold findDomainForInstance in Hok.
    destruct (domain_of_instance instanceID (List.concat (Reservations output)))
      as [| x rest] eqn:Hfound.
    - destruct (more_domains instanceID answers (NextToken output))
        as [calls r] eqn:Hmore.
      cbn [snd] in Hok. subst r.
      destruct (more_domains_found instanceID answers (NextToken output) domain)
        as (i & Hi & Hrest).
      { now rewrite Hmore. }
      exists i. split; [| exact Hrest].
      cbn [outputs_of]. rewrite instances_of_cons. apply in_or_app. now right.
    - cbn [snd] in Hok. injection Hok as <-.
      destruct (domain_of_instance_found instanceID _ x rest Hfound)
        as (i & Hi & Hid & Hdom).
      exists i. split; [| auto].
      cbn [outputs_of]. rewrite instances_of_cons. apply in_or_app. now left. }
  split; [| exact H].
  destruct H as (i & _ & _ & ->). reflexivity.
Qed.

Lemma FindDomainByInstanceId_returns_both_names_witness :
  snd (FindDomainByInstanceId "i-7" two_pages)
  = Ok [""; "ip-10-0-0-7.internal"]
  /\ List.length [""; "ip-10-0-0-7.internal"] = 2.
Proof.
  split; [reflexivity |].
  apply (FindDomainByInstanceId_returns_both_names "i-7" two_pages
           [""; "ip-10-0-0-7.internal"] eq_refl).
Defined.

Lemma prefix_spec (a s : string) :
  String.prefix a s = true <-> exists post, s = String.append a post.
Proof.
  revert s. induction a as [| c a IH]; intros s.
  - split; [intros _; now exists s | intros _; now destruct s].
  - destruct s as [| d s]; cbn [String.prefix String.append].
    + split; [discriminate | intros [post H]; discriminate].
    + destruct (Ascii.ascii_dec c d) as [-> | Hne].
      * rewrite IH. split; intros [post H]; exists post; congruence.
      * split; [discriminate | intros [post H]; congruence].
Qed.

Lemma Contains_spec (s substr : string) :
  Contains s substr = true
  <-> exists pre post, s = String.append pre (String.append substr post).
Proof.
  induction s as [| c s IH].
  - cbn [Contains]. rewrite orb_false_r, prefix_spec. split.
    + intros [post H]. now exists EmptyString, post.
    + intros (pre & post & H). destruct pre; [now exists post |]. discriminate.
  - cbn [Contains]. rewrite orb_true_iff, prefix_spec, IH. split.
    + intros [[post H] | (pre & post & H)].
      * now exists EmptyString, post.
      * exists (String c pre), post. cbn. now rewrite H.
    + intros (pre & post & H). destruct pre as [| d pre].
      * left. now exists post.
      * right. cbn in H. injection H as _ H. now exists pre, post.
Qed.

(** X19.  [GenerateSSHExecCommand] only ever puts an identity option in
    front: with [base] the given command, or [user@domain] when none is
    given, the result is ["-i " ++ identity ++ " " ++ base] when an
    identity is given and [base] nowhere holds [" -i "], and [base]
    itself otherwise. *)
Theorem GenerateSSHExecCommand_prepends_identity
    (exec identity user domain : string) :
  exists base,
    base = (if String.eqb exec EmptyString
            then String.append user (String.append "@" domain)
            else exec)
    /\ ((identity <> EmptyString
         /\ (forall pre post,
               base <> String.append pre (String.append " -i " post))
         /\ GenerateSSHExecCommand exec identity user domain
            = String.append "-i "
                (String.append identity (String.append " " base)))
        \/ ((identity = EmptyString
             \/ exists pre post,
                  base = String.append pre (String.append " -i " post))
            /\ GenerateSSHExecCommand exec identity user domain = base)).
Proof.
  eexists. split; [reflexivity |].
  unfold GenerateSSHExecCommand.
  set (base := if String.eqb exec EmptyString
               then String.append user (String.append "@" domain) else exec).
  destruct (Contains base " -i ") eqn:Hc; cbn [negb andb].
  - right. split; [| reflexivity]. right. now apply Contains_spec.
  - destruct (String.eqb_spec identity EmptyString) as [-> | Hid]; cbn [negb].
    + right. split; [now left | reflexivity].
    + left. split; [exact Hid |]. split; [| reflexivity].
      intros pre post H.
      assert (Contains base " -i " = true) by (apply Contains_spec; eauto).
      congruence.
Qed.

End InventoryFacts.

(** * Properties of the callers of the proxy *)

Section SessionFacts.

Import Sessions.
Local Open Scope string_scope.
Local Open Scope list_scope.

(** X20.  [runStartSession] always ends the session it created: when
    [CreateStartSession] answers with a session id, the trace holds
    exactly one [TerminateSession], for that id; it comes after the call
    of the plugin has returned, with the terminal back in the mode it
    had before, whether marshalling failed, the plugin failed or all
    went well, and nothing is run after it.  When the session cannot be
    created, no plugin is run, nothing is terminated, and the program
    exits. *)
Theorem runStartSession_always_terminates
    (Error : error -> string) (w : world) (target : string) :
  match create w with
  | inr sessionId =>
      filter is_terminate (fst (runStartSession Error w target))
      = [TerminateSession sessionId]
      /\ List.length (filter is_call
                        (before_terminate (fst (runStartSession Error w target))))
         <= 1
      /\ filter is_call (after_terminate (fst (runStartSession Error w target)))
         = []
      /\ Proxy.final_mode (Proxy.prior (terminal w))
           (terminal_effects
              (before_terminate (fst (runStartSession Error w target))))
         = Proxy.prior (terminal w)
      /\ (snd (runStartSession Error w target) = true
          <-> terminate w <> None)
  | inl err =>
      fst (runStartSession Error w target)
      = [CreateSession None [] target;
         LogErrorAndExit (InContext "failed to create session" (AsIs err))]
      /\ snd (runStartSession Error w target) = true
  end.
Proof.
  unfold runStartSession.
  destruct (create w) as [err | sessionId]; [split; reflexivity |].
  unfold executeSession, DeleteStartSession, CallProcess_.
  pose proof (call_keeps_mode Error (terminal w)) as Hmode.
  destruct (Proxy.CallProcessWithSimpleEscape Error (terminal w))
    as [effects perr].
  cbn [fst] in Hmode.
  destruct (sessionJSON w) as [e1 | sj];
    [| destruct (paramsJSON w) as [e2 | pj]; [| destruct perr as [pe |]]];
    destruct (terminate w) as [te |]; cbn;
    rewrite ?app_nil_r, ?Hmode;
    repeat split; auto; try discriminate; try congruence.
Qed.

Lemma runStartSession_always_terminates_witness :
  filter is_terminate
    (fst (runStartSession Proxy.os_text
            (sample (inr "s-1") (inr "{}")) "i-0"))
  = [TerminateSession "s-1"]
  /\ filter is_terminate
       (fst (runStartSession Proxy.os_text
               (sample (inr "s-1") (inl EOF)) "i-0"))
     = [TerminateSession "s-1"].
Proof.
  split.
  - apply (runStartSession_always_terminates Proxy.os_text
             (sample (inr "s-1") (inr "{}")) "i-0").
  - apply (runStartSession_always_terminates Proxy.os_text
             (sample (inr "s-1") (inl EOF)) "i-0").
Defined.

(** X21.  [startPortForwardingSession] ends the session it created only
    when both marshallings succeed: then the plugin is called once,
    [TerminateSession] follows for that session id, an error of the
    plugin is printed and not returned, and the result is nil unless the
    termination fails.  When the session is created and a marshalling
    fails, the function returns that error without calling the plugin
    and without terminating the session; when the session cannot be
    created it returns that error and does nothing else. *)
Theorem startPortForwardingSession_terminates_after_plugin
    (Error : error -> string) (w : world) (target localPort remotePort : string) :
  match create w, sessionJSON w, paramsJSON w with
  | inr sessionId, inr _, inr _ =>
      filter is_terminate
        (fst (startPortForwardingSession Error w target localPort remotePort))
      = [TerminateSession sessionId]
      /\ List.length
           (filter is_call
              (before_terminate
                 (fst (startPortForwardingSession Error w target localPort
                         remotePort)))) = 1
      /\ filter is_call
           (after_terminate
              (fst (startPortForwardingSession Error w target localPort
                      remotePort))) = []
      /\ snd (startPortForwardingSession Error w target localPort remotePort)
         = match terminate w with
           | Some err =>
               Some (InContext "failed to terminate session"
                       (InContext "failed to terminate session" (AsIs err)))
           | None => None
           end
  | inr _, inl err, _ =>
      filter is_terminate
        (fst (startPortForwardingSession Error w target localPort remotePort))
      = []
      /\ filter is_call
           (fst (startPortForwardingSession Error w target localPort remotePort))
         = []
      /\ snd (startPortForwardingSession Error w target localPort remotePort)
         = Some (InContext "failed to marshal session" (AsIs err))
  | inr _, inr _, inl err =>
      filter is_terminate
        (fst (startPortForwardingSession Error w target localPort remotePort))
      = []
      /\ filter is_call
           (fst (startPortForwardingSession Error w target localPort remotePort))
         = []
      /\ snd (startPortForwardingSession Error w target localPort remotePort)
         = Some (InContext "failed to marshal parameters" (AsIs err))
  | inl err, _, _ =>
      fst (startPortForwardingSession Error w target localPort remotePort)
      = [CreateSession (Some "AWS-StartPortForwardingSession")
           [("portNumber", [remotePort]); ("localPortNumber", [localPort])]
           target]
      /\ snd (startPortForwardingSession Error w target localPort remotePort)
         = Some (InContext "failed to create session" (AsIs err))
  end.
Proof.
  unfold startPortForwardingSession, DeleteStartSession, CallProcess_.
  destruct (create w) as [err | sessionId]; [split; reflexivity |].
  destruct (sessionJSON w) as [e1 | sj]; [repeat split |].
  destruct (paramsJSON w) as [e2 | pj]; [repeat split |].
  destruct (Proxy.CallProcessWithSimpleEscape Error (terminal w))
    as [effects perr].
  destruct perr as [pe |]; destruct (terminate w) as [te |]; repeat split.
Qed.

End SessionFacts.

(** * Properties of the argument parsing *)

Section ArgsFacts.

Import Args.
Local Open Scope string_scope.
Local Open Scope list_scope.

Lemma Split_nonempty (s : string) (sep : ascii) : Split s sep <> [].
Proof.
  destruct s as [| c s]; cbn; [discriminate |].
  destruct (Ascii.eqb c sep); [discriminate |].
  destruct (Split s sep); discriminate.
Qed.

Lemma has_char_append (c : ascii) (a b : string) :
  has_char c (String.append a b) = has_char c a || has_char c b.
Proof.
  induction a as [| d a IH]; cbn; [reflexivity |].
  now rewrite IH, orb_assoc.
Qed.

(** The parts hold no separator, and there is one part more than there
    are separators: two or more exactly when a separator occurs. *)
Lemma Split_parts (s : string) (sep : ascii) :
  Forall (fun part => has_char sep part = false) (Split s sep)
  /\ (Nat.ltb (List.length (Split s sep)) 2 = negb (has_char sep s)).
Proof.
  induction s as [| c s [IHall IHlen]]; cbn [Split has_char].
  - split; [constructor; [reflexivity | constructor] | reflexivity].
  - destruct (Ascii.eqb c sep) eqn:Hc; cbn [orb negb].
    + split; [constructor; [reflexivity | exact IHall] |].
      pose proof (Split_nonempty s sep).
      destruct (Split s sep); [contradiction | reflexivity].
    + pose proof (Split_nonempty s sep) as Hne.
      destruct (Split s sep) as [| part parts]; [contradiction |].
      inversion IHall as [| ? ? Hpart Hparts]; subst. split.
      * constructor; [cbn; now rewrite Hc, Hpart | exact Hparts].
      * exact IHlen.
Qed.

Lemma last_Split_cons (c : ascii) (s : string) (sep : ascii) :
  List.last (Split (String c s) sep) EmptyString
  = if Ascii.eqb c sep then List.last (Split s sep) EmptyString
    else if has_char sep s then List.last (Split s sep) EmptyString
         else String c (List.last (Split s sep) EmptyString).
Proof.
  pose proof (Split_nonempty s sep) as Hne.
  pose proof (proj2 (Split_parts s sep)) as Hlen.
  cbn [Split]. destruct (Ascii.eqb c sep).
  - destruct (Split s sep); [contradiction | reflexivity].
  - destruct (Split s sep) as [| part [| part' parts]]; [contradiction | |].
    + cbn in Hlen. destruct (has_char sep s); [discriminate | reflexivity].
    + cbn in Hlen. destruct (has_char sep s); [reflexivity | discriminate].
Qed.

(** The last part is what follows the last separator. *)
Lemma Split_last (s : string) (sep : ascii) :
  has_char sep (List.last (Split s sep) EmptyString) = false
  /\ (if has_char sep s
      then exists pre,
             s = String.append pre
                   (String sep (List.last (Split s sep) EmptyString))
      else List.last (Split s sep) EmptyString = s).
Proof.
  induction s as [| c s [IHno IHsplit]].
  - split; reflexivity.
  - rewrite last_Split_cons. cbn [has_char].
    destruct (Ascii.eqb_spec c sep) as [-> | Hc]; cbn [orb].
    + split; [exact IHno |].
      destruct (has_char sep s).
      * destruct IHsplit as [pre Hpre]. exists (String sep pre). cbn.
        now rewrite <- Hpre.
      * exists EmptyString. cbn. now rewrite IHsplit.
    + destruct (has_char sep s).
      * split; [exact IHno |].
        destruct IHsplit as [pre Hpre]. exists (String c pre). cbn.
        now rewrite <- Hpre.
      * split; [| now rewrite IHsplit].
        cbn. destruct (Ascii.eqb_spec c sep); [contradiction | exact IHno].
Qed.

Lemma append_assoc (a b c : string) :
  String.append (String.append a b) c = String.append a (String.append b c).
Proof.
  induction a as [| x a IH]; cbn; [reflexivity | now rewrite IH].
Qed.

(** X22.  [handleDirectSSHCommand] takes as server everything after the
    last at-sign of the command, provided that at-sign is in the last
    word: the server then holds no at-sign and no space and the command
    ends with at-sign and server.  It reports an invalid format exactly
    when the last word of the command holds no at-sign. *)
Theorem direct_ssh_server_is_after_last_at (execFlag : string) :
  exists word,
    has_char " " word = false
    /\ (execFlag = word
        \/ exists pre, execFlag = String.append pre (String " " word))
    /\ match direct_ssh_server execFlag with
       | Some server =>
           has_char "@" word = true
           /\ has_char "@" server = false
           /\ has_char " " server = false
           /\ exists pre,
                execFlag = String.append pre (String "@" server)
       | None => has_char "@" word = false
       end.
Proof.
  exists (List.last (Split execFlag " ") EmptyString).
  destruct (Split_last execFlag " ") as [Hword Hsplit].
  split; [exact Hword |]. split.
  - destruct (has_char " " execFlag); [right; exact Hsplit | left; now rewrite Hsplit].
  - unfold direct_ssh_server.
    set (word := List.last (Split execFlag " ") EmptyString) in *.
    rewrite (proj2 (Split_parts word "@")).
    destruct (Split_last word "@") as [Hserver Hat].
    set (server := List.last (Split word "@") EmptyString) in *.
    clearbody server. clearbody word.
    destruct (has_char "@" word) eqn:Hw; cbn [negb]; [| reflexivity].
    destruct Hat as [pre Hpre].
    split; [reflexivity |]. split; [exact Hserver |]. split.
    + rewrite Hpre, has_char_append in Hword. cbn in Hword.
      apply orb_false_iff in Hword as [_ Hword]. exact Hword.
    + destruct (has_char " " execFlag).
      * destruct Hsplit as [pre' Hpre'].
        exists (String.append pre' (String " " pre)).
        rewrite Hpre', Hpre, append_assoc. reflexivity.
      * exists pre. now rewrite <- Hsplit.
Qed.

Lemma direct_ssh_server_examples :
  direct_ssh_server "-i key.pem ec2-user@10.0.0.7" = Some "10.0.0.7"
  /\ direct_ssh_server "ec2-user@host -v" = None.
Proof.
  split; reflexivity.
Qed.

Lemma Split_no_sep (s : string) (sep : ascii) :
  has_char sep s = false -> Split s sep = [s].
Proof.
  induction s as [| c s IH]; cbn; [reflexivity |].
  intros H. apply orb_false_iff in H as [Hc Hs].
  rewrite Hc, (IH Hs). reflexivity.
Qed.

Lemma Split_append (a b : string) (sep : ascii) :
  has_char sep a = false ->
  Split (String.append a (String sep b)) sep = a :: Split b sep.
Proof.
  induction a as [| c a IH]; cbn [String.append Split has_char].
  - intros _. now rewrite Ascii.eqb_refl.
  - intros H. apply orb_false_iff in H as [Hc Ha].
    rewrite Hc, (IH Ha). reflexivity.
Qed.

Lemma last_Split_append (pre w : string) (sep : ascii) :
  List.last (Split (String.append pre (String sep w)) sep) EmptyString
  = List.last (Split w sep) EmptyString.
Proof.
  induction pre as [| c pre IH]; cbn [String.append].
  - rewrite last_Split_cons. now rewrite Ascii.eqb_refl.
  - rewrite last_Split_cons, IH.
    destruct (Ascii.eqb c sep); [reflexivity |].
    rewrite has_char_append. cbn. rewrite Ascii.eqb_refl. cbn.
    now rewrite orb_true_r.
Qed.

(** A byte of a part is a byte of the string. *)
Lemma Split_parts_within (c : ascii) (s : string) (sep : ascii) :
  forall part,
    In part (Split s sep) -> has_char c part = true -> has_char c s = true.
Proof.
  induction s as [| d s IH]; intros part Hin Hc; cbn [Split] in Hin.
  - destruct Hin as [<- | []]. exact Hc.
  - cbn [has_char]. destruct (Ascii.eqb d sep).
    + destruct Hin as [<- | Hin]; [discriminate |].
      rewrite (IH part Hin Hc). apply orb_true_r.
    + pose proof (Split_nonempty s sep) as Hne.
      destruct (Split s sep) as [| p ps]; [contradiction |].
      destruct Hin as [<- | Hin].
      * cbn in Hc. apply orb_true_iff in Hc as [Hc | Hc].
        -- now rewrite Hc.
        -- rewrite (IH p (or_introl eq_refl) Hc). apply orb_true_r.
      * rewrite (IH part (or_intror Hin) Hc). apply orb_true_r.
Qed.

Lemma host_in_clean (arg : string) :
  host_in arg <> EmptyString ->
  has_char "@" (host_in arg) = false
  /\ has_char ":" (host_in arg) = false
  /\ (has_char " " arg = false -> has_char " " (host_in arg) = false).
Proof.
  unfold host_in.
  destruct (Nat.ltb 1 (List.length (Split arg ":"))); [| congruence].
  pose proof (proj1 (Split_parts arg ":")) as Hcolon.
  pose proof (Split_nonempty arg ":") as Hne.
  assert (Hhead : In (List.hd EmptyString (Split arg ":")) (Split arg ":")).
  { destruct (Split arg ":"); [contradiction | now left]. }
  set (head := List.hd EmptyString (Split arg ":")) in *. clearbody head.
  pose proof (proj1 (Split_parts head "@")) as Hat.
  destruct (Nat.eqb_spec (List.length (Split head "@")) 2) as [Hlen | _];
    [| congruence].
  intros _.
  assert (Hhost : In (List.nth 1 (Split head "@") EmptyString) (Split head "@")).
  { apply nth_In. lia. }
  set (host := List.nth 1 (Split head "@") EmptyString) in *. clearbody host.
  rewrite Forall_forall in Hat, Hcolon.
  split; [now apply Hat |]. split.
  - destruct (has_char ":" host) eqn:Hc; [| reflexivity].
    rewrite <- (Hcolon head Hhead).
    symmetry. now apply (Split_parts_within ":" head "@" host).
  - intros Hspace.
    destruct (has_char " " host) eqn:Hc; [| reflexivity].
    rewrite <- Hspace. symmetry.
    apply (Split_parts_within " " arg ":" head Hhead).
    now apply (Split_parts_within " " head "@" host).
Qed.

Lemma nth_last_index {A : Type} (l : list A) (d : A) :
  List.nth (List.length l - 1) l d = List.last l d.
Proof.
  induction l as [| x l IH]; [reflexivity |].
  destruct l as [| y l]; [reflexivity |].
  cbn [List.length List.last] in *.
  replace (S (S (List.length l)) - 1) with (S (S (List.length l) - 1)) by lia.
  exact IH.
Qed.

(** X23.  The arguments [validateSCPArguments] accepts are the ones it
    was given and never make [findTargetInstanceID] index out of range.
    A hostname [findTargetInstanceID] finds is never empty and holds no
    at-sign, colon or space.  When the last argument has the form
    user@host:path, with a non-empty host, no at-sign, colon or space in
    user and host and no space in the path, the hostname found is that
    host, whatever the other arguments are. *)
Theorem scp_hostname_is_the_remote_host (scpArgs : string) :
  (forall accepted,
      validateSCPArguments scpArgs = inr accepted ->
      accepted = scpArgs /\ scp_hostname scpArgs <> IndexOutOfRange)
  /\ (forall hostname,
         scp_hostname scpArgs = Hostname hostname ->
         hostname <> EmptyString
         /\ has_char "@" hostname = false
         /\ has_char ":" hostname = false
         /\ has_char " " hostname = false)
  /\ (forall pre user host path,
         scpArgs
         = String.append pre
             (String " "
                (String.append user
                   (String "@" (String.append host (String ":" path))))) ->
         host <> EmptyString ->
         has_char "@" user = false -> has_char ":" user = false ->
         has_char " " user = false ->
         has_char "@" host = false -> has_char ":" host = false ->
         has_char " " host = false ->
         has_char " " path = false ->
         scp_hostname scpArgs = Hostname host).
Proof.
  split; [| split].
  - intros accepted. unfold validateSCPArguments, scp_hostname.
    destruct (String.eqb scpArgs EmptyString); [discriminate |].
    destruct (Nat.ltb (List.length (Split scpArgs " ")) 2); [discriminate |].
    intros H. injection H as <-. split; [reflexivity |].
    destruct (String.eqb _ EmptyString); discriminate.
  - intros hostname. unfold scp_hostname.
    destruct (Nat.ltb_spec (List.length (Split scpArgs " ")) 2) as [| Hlen];
      [discriminate |].
    pose proof (proj1 (Split_parts scpArgs " ")) as Hparts.
    rewrite Forall_forall in Hparts.
    set (parts := Split scpArgs " ") in *. clearbody parts.
    assert (Hdst : has_char " " (List.nth (List.length parts - 1) parts EmptyString)
                   = false) by (apply Hparts, nth_In; lia).
    assert (Hsrc : has_char " " (List.nth (List.length parts - 2) parts EmptyString)
                   = false) by (apply Hparts, nth_In; lia).
    set (dst := List.nth (List.length parts - 1) parts EmptyString) in *.
    set (src := List.nth (List.length parts - 2) parts EmptyString) in *.
    clearbody dst src.
    destruct (String.eqb_spec (host_in dst) EmptyString) as [Hd | Hd].
    + destruct (String.eqb_spec (host_in src) EmptyString) as [Hs | Hs];
        [discriminate |].
      intros H. injection H as <-.
      destruct (host_in_clean src Hs) as (H1 & H2 & H3). auto.
    + destruct (String.eqb_spec (host_in dst) EmptyString) as [| _];
        [contradiction |].
      intros H. injection H as <-.
      destruct (host_in_clean dst Hd) as (H1 & H2 & H3). auto.
  - intros pre user host path -> Hhost Hu1 Hu2 Hu3 Hh1 Hh2 Hh3 Hp.
    set (head := String.append user (String "@" host)).
    set (dst := String.append user
                  (String "@" (String.append host (String ":" path)))).
    assert (Hdst_eq : dst = String.append head (String ":" path)).
    { unfold dst, head. now rewrite append_assoc. }
    assert (Hhead_colon : has_char ":" head = false).
    { unfold head. rewrite has_char_append. cbn. now rewrite Hu2, Hh2. }
    assert (Hdst_space : has_char " " dst = false).
    { unfold dst. rewrite has_char_append. cbn. rewrite has_char_append. cbn.
      now rewrite Hu3, Hh3, Hp. }
    assert (Hhost_in : host_in dst = host).
    { unfold host_in. rewrite Hdst_eq, (Split_append head path ":" Hhead_colon).
      pose proof (Split_nonempty path ":") as Hne.
      destruct (Split path ":") as [| p ps]; [contradiction |].
      cbn [List.length Nat.ltb Nat.leb List.hd].
      unfold head. rewrite (Split_append user host "@" Hu1).
      rewrite (Split_no_sep host "@" Hh1). reflexivity. }
    unfold scp_hostname.
    rewrite (proj2 (Split_parts _ " ")), has_char_append. cbn [has_char].
    rewrite Ascii.eqb_refl. cbn [orb]. rewrite orb_true_r. cbn [negb].
    rewrite nth_last_index, last_Split_append.
    fold dst. rewrite (Split_no_sep dst " " Hdst_space). cbn [List.last].
    rewrite Hhost_in.
    destruct (String.eqb_spec host EmptyString) as [| _]; [contradiction |].
    destruct (String.eqb_spec host EmptyString) as [| _]; [contradiction |].
    reflexivity.
Qed.

Lemma scp_hostname_is_the_remote_host_witness :
  validateSCPArguments "-r dir ec2-user@10.0.0.7:/tmp"
  = inr "-r dir ec2-user@10.0.0.7:/tmp"
  /\ scp_hostname "-r dir ec2-user@10.0.0.7:/tmp" = Hostname "10.0.0.7".
Proof.
  split; [reflexivity |].
  apply (proj2 (proj2 (scp_hostname_is_the_remote_host
                         "-r dir ec2-user@10.0.0.7:/tmp"))
           "-r dir" "ec2-user" "10.0.0.7" "/tmp");
    try reflexivity.
  discriminate.
Defined.

End ArgsFacts.

(** * Properties of the port prompts *)

Section PortFacts.

Import Ports.

Local Open Scope string_scope.

Variable TrimSpace : string -> string.

Lemma is_digit_value (c : ascii) :
  is_digit c = true -> (0 <= Z.of_nat (nat_of_ascii c) - 48 <= 9)%Z.
Proof.
  unfold is_digit. intros H. apply andb_true_iff in H. destruct H as [Hlo Hhi].
  apply Nat.leb_le in Hlo. apply Nat.leb_le in Hhi. lia.
Qed.

(** The digits of [s] read after [acc] give a number whose leading part
    is [acc]. *)
Lemma digits_bound (s : string) : forall (acc v : Z),
  (0 <= acc)%Z -> digits acc s = Some v ->
  (10 ^ Z.of_nat (String.length s) * acc <= v
   < 10 ^ Z.of_nat (String.length s) * (acc + 1))%Z.
Proof.
  induction s as [| c rest IH]; intros acc v Hacc Hd.
  - cbn in Hd. injection Hd as <-. cbn [String.length]. 
    change (10 ^ Z.of_nat 0)%Z with 1%Z. lia.
  - cbn [digits] in Hd. destruct (is_digit c) eqn:Hc; [| discriminate].
    pose proof (is_digit_value c Hc) as Hv.
    apply IH in Hd; [| lia].
    cbn [String.length]. rewrite Nat2Z.inj_succ, Z.pow_succ_r by lia.
    assert (0 < 10 ^ Z.of_nat (String.length rest))%Z
      by (apply Z.pow_pos_nonneg; lia).
    nia.
Qed.

Lemma digits_short (s : string) (n : nat) (v : Z) :
  digits 0 s = Some v -> String.length s <= n -> (0 <= v < 10 ^ Z.of_nat n)%Z.
Proof.
  intros Hd Hlen. apply digits_bound in Hd; [| lia].
  assert (10 ^ Z.of_nat (String.length s) <= 10 ^ Z.of_nat n)%Z
    by (apply Z.pow_le_mono_r; lia).
  lia.
Qed.

(** A number written in at most five bytes. *)
Lemma Atoi_bounds (s : string) (v : Z) :
  Atoi s = Some v -> String.length s <= 5 -> (- 9999 <= v <= 99999)%Z.
Proof.
  unfold Atoi. destruct s as [| c rest]; [discriminate |].
  cbn [String.length]. intros H Hlen.
  destruct (Ascii.eqb c "-") eqn:Hm; [| destruct (Ascii.eqb c "+") eqn:Hp];
    cbn [fst snd] in H.
  - destruct rest as [| c' r']; [discriminate |].
    destruct (digits 0 (String c' r')) as [v0 |] eqn:Hd; [| discriminate].
    apply (digits_short _ 4) in Hd; [| cbn [String.length] in *; lia].
    destruct ((_ <=? _)%Z && _); [| discriminate].
    injection H as <-. change (10 ^ Z.of_nat 4)%Z with 10000%Z in Hd. lia.
  - destruct rest as [| c' r']; [discriminate |].
    destruct (digits 0 (String c' r')) as [v0 |] eqn:Hd; [| discriminate].
    apply (digits_short _ 4) in Hd; [| cbn [String.length] in *; lia].
    destruct ((_ <=? _)%Z && _); [| discriminate].
    injection H as <-. change (10 ^ Z.of_nat 4)%Z with 10000%Z in Hd. lia.
  - destruct (digits 0 (String c rest)) as [v0 |] eqn:Hd; [| discriminate].
    apply (digits_short _ 5) in Hd; [| cbn [String.length]; lia].
    destruct ((_ <=? _)%Z && _); [| discriminate].
    injection H as <-. change (10 ^ Z.of_nat 5)%Z with 100000%Z in Hd. lia.
Qed.

Lemma Atoi_nonempty (s : string) (v : Z) : Atoi s = Some v -> s <> "".
Proof. intros H ->. discriminate H. Qed.

(** What [AskPorts] returns on success. *)
Lemma AskPorts_success (remote local : string) (p : Port) :
  AskPorts TrimSpace (inr (remote, local)) = inr p ->
  Remote p = TrimSpace remote
  /\ Local_ p = (if String.eqb (TrimSpace local) "" then TrimSpace remote
                 else TrimSpace local)
  /\ Atoi (TrimSpace remote) <> None
  /\ String.length (Remote p) <= 5 /\ String.length (Local_ p) <= 5.
Proof.
  unfold AskPorts. destruct (Atoi (TrimSpace remote)) as [v |]; [| discriminate].
  set (loc := if String.eqb (TrimSpace local) "" then TrimSpace remote
              else TrimSpace local).
  destruct (Nat.ltb 5 (String.length (TrimSpace remote))) eqn:Hr;
    [discriminate |].
  destruct (Nat.ltb 5 (String.length loc)) eqn:Hl; [discriminate |].
  cbn [orb]. intros [= <-]. cbn [Remote Local_].
  apply Nat.ltb_ge in Hr. apply Nat.ltb_ge in Hl.
  repeat split; try assumption; discriminate.
Qed.

(** X24. A port that [AskPorts] accepts has a remote part that
    [strconv.Atoi] reads as a number between -9999 and 99999, written in
    one to five bytes, and a local part of one to five bytes, which is the
    remote part when the local answer is blank; the local part is not
    read as a number. *)
Theorem AskPorts_accepted_port_bounds (remote local : string) (p : Port) :
  AskPorts TrimSpace (inr (remote, local)) = inr p ->
  (exists v : Z, Atoi (Remote p) = Some v /\ (- 9999 <= v <= 99999)%Z)
  /\ 1 <= String.length (Remote p) <= 5
  /\ 1 <= String.length (Local_ p) <= 5
  /\ (TrimSpace local = "" -> Local_ p = Remote p)
  /\ (TrimSpace local <> "" -> Local_ p = TrimSpace local).
Proof.
  intros H. apply AskPorts_success in H.
  destruct H as (Hr & Hl & Hnum & Hlr & Hll).
  destruct (Atoi (TrimSpace remote)) as [v |] eqn:Hv; [| contradiction].
  rewrite <- Hr in Hv.
  pose proof (Atoi_nonempty _ _ Hv) as Hne.
  assert (Hpos : forall s : string, s <> "" -> 1 <= String.length s).
  { intros [| c s] Hs; [contradiction | cbn [String.length]; lia]. }
  split; [exists v; split; [exact Hv | exact (Atoi_bounds _ _ Hv Hlr)] |].
  split; [split; [apply Hpos; exact Hne | exact Hlr] |].
  destruct (String.eqb_spec (TrimSpace local) "") as [He | Hn].
  - split; [split; [rewrite Hl, <- Hr; apply Hpos; exact Hne | exact Hll] |].
    split; [intros _; rewrite Hl, Hr; reflexivity | intros C; contradiction].
  - split; [split; [rewrite Hl; apply Hpos; exact Hn | exact Hll] |].
    split; [intros C; contradiction | intros _; exact Hl].
Qed.

(** X25. The ports that [GetPortConfiguration] returns are never
    empty, whether they come from the flags or from the prompts. *)
Theorem GetPortConfiguration_ports_nonempty (remoteFlag localFlag : string)
    (answers : error + (string * string)) (localPort remotePort : string) :
  GetPortConfiguration TrimSpace remoteFlag localFlag answers
  = inr (localPort, remotePort) ->
  localPort <> "" /\ remotePort <> "".
Proof.
  unfold GetPortConfiguration.
  destruct (String.eqb_spec (TrimSpace remoteFlag) "") as [_ | Hr].
  - destruct answers as [err | [remote local]];
      [cbn [AskPorts]; discriminate |].
    destruct (AskPorts TrimSpace (inr (remote, local))) as [e | p] eqn:Hp;
      [discriminate |].
    intros [= <- <-].
    apply AskPorts_accepted_port_bounds in Hp.
    destruct Hp as (_ & [Hr _] & [Hl _] & _).
    split; intros E; rewrite E in *; cbn [String.length] in *; lia.
  - destruct (String.eqb_spec (TrimSpace localFlag) "") as [_ | Hl];
      intros [= <- <-]; split; assumption.
Qed.

(** X26. With a remote-port flag that is not blank,
    [GetPortConfiguration] never fails and never looks at the prompts'
    answers: the remote port is the trimmed flag, whatever it holds, and
    the local port the trimmed local flag, or the remote port when that
    one is blank. *)
Theorem GetPortConfiguration_flags_skip_prompt (remoteFlag localFlag : string)
    (answers : error + (string * string)) :
  TrimSpace remoteFlag <> "" ->
  GetPortConfiguration TrimSpace remoteFlag localFlag answers
  = inr (if String.eqb (TrimSpace localFlag) "" then TrimSpace remoteFlag
         else TrimSpace localFlag,
         TrimSpace remoteFlag).
Proof.
  intros Hr. unfold GetPortConfiguration.
  destruct (String.eqb_spec (TrimSpace remoteFlag) "") as [E | _];
    [contradiction |].
  destruct (String.eqb (TrimSpace localFlag) ""); reflexivity.
Qed.

(** X27. When the remote-port flag is blank the local-port flag is
    dropped: the result is that of the prompts alone, and an error of
    [AskPorts] is returned in the context of the port configuration. *)
Theorem GetPortConfiguration_blank_remote_drops_local_flag
    (remoteFlag localFlag other : string)
    (answers : error + (string * string)) :
  TrimSpace remoteFlag = "" ->
  GetPortConfiguration TrimSpace remoteFlag localFlag answers
  = GetPortConfiguration TrimSpace remoteFlag other answers
  /\ (forall e, AskPorts TrimSpace answers = inl e ->
        GetPortConfiguration TrimSpace remoteFlag localFlag answers
        = inl (NoConfiguration e))
  /\ (forall p, AskPorts TrimSpace answers = inr p ->
        GetPortConfiguration TrimSpace remoteFlag localFlag answers
        = inr (Local_ p, Remote p)).
Proof.
  intros Hr. unfold GetPortConfiguration. rewrite Hr. cbn [String.eqb].
  split; [reflexivity |].
  split; intros x Hx; rewrite Hx; reflexivity.
Qed.

End PortFacts.

(** The witnesses read the answers and the flags as they are, for runs
    without blanks around them. *)

Lemma AskPorts_accepted_port_bounds_witness :
  Ports.AskPorts (fun s => s) (inr ("8080"%string, ""%string))
  = inr {| Ports.Remote := "8080"; Ports.Local_ := "8080" |}
  /\ exists v : Z,
       Ports.Atoi "8080" = Some v /\ (- 9999 <= v <= 99999)%Z.
Proof.
  split; [reflexivity |].
  exact (proj1 (AskPorts_accepted_port_bounds (fun s => s)
                  "8080"%string ""%string
                  {| Ports.Remote := "8080"; Ports.Local_ := "8080" |}
                  eq_refl)).
Defined.

Lemma GetPortConfiguration_ports_nonempty_witness :
  Ports.GetPortConfiguration (fun s => s) ""%string "9000"%string
    (inr ("5432"%string, "15432"%string))
  = inr ("15432"%string, "5432"%string)
  /\ "15432"%string <> ""%string /\ "5432"%string <> ""%string.
Proof.
  split; [reflexivity |].
  apply (GetPortConfiguration_ports_nonempty (fun s => s)
           ""%string "9000"%string (inr ("5432"%string, "15432"%string))).
  reflexivity.
Defined.

Lemma GetPortConfiguration_flags_skip_prompt_witness :
  Ports.GetPortConfiguration (fun s => s) "http"%string ""%string (inl EOF)
  = inr ("http"%string, "http"%string).
Proof.
  apply (GetPortConfiguration_flags_skip_prompt (fun s => s)
           "http"%string ""%string (inl EOF)).
  discriminate.
Defined.

Lemma GetPortConfiguration_blank_remote_drops_local_flag_witness :
  Ports.GetPortConfiguration (fun s => s) ""%string "9000"%string
    (inr ("70000"%string, "1"%string))
  = Ports.GetPortConfiguration (fun s => s) ""%string ""%string
      (inr ("70000"%string, "1"%string))
  /\ Ports.GetPortConfiguration (fun s => s) ""%string "9000"%string
       (inr ("70000"%string, "1"%string))
     = inr ("1"%string, "70000"%string).
Proof.
  destruct (GetPortConfiguration_blank_remote_drops_local_flag (fun s => s)
              ""%string "9000"%string ""%string
              (inr ("70000"%string, "1"%string)) eq_refl) as (H1 & _ & H3).
  split; [exact H1 |].
  exact (H3 {| Ports.Remote := "70000"; Ports.Local_ := "1" |} eq_refl).
Defined.
